(** * aiokafka/fetcher.py: the consumer-side fetch engine

    A shallow embedding of [FetchResult] and of the synchronous bodies of
    [Fetcher]'s methods, with the properties of the specification that
    concern them.  Python objects that are mutated in place (the
    subscription state, the record map, a buffer's deque) are threaded
    through the functions explicitly; an exception is a [Raise] result. *)

From stdpp Require Import gmap strings list fin_maps sorting.
From Stdlib Require Import ZArith.

Local Open Scope Z_scope.

(** ** Topic partitions and exceptions *)

Record TopicPartition := TP { topic : string; partition : Z }.

#[global] Instance TopicPartition_eq_dec : EqDecision TopicPartition.
Proof. solve_decision. Defined.

#[global] Instance TopicPartition_countable : Countable TopicPartition.
Proof.
  apply (inj_countable' (fun tp => (topic tp, partition tp))
                        (fun p => TP p.1 p.2)).
  by intros [].
Defined.

(** A message-set entry is [(offset, size, message)]; the message is a
    truncated tail ([PartialMessage]), a plain message or a compressed
    container whose [decompress()] is a nested message set.  [crc_ok] is what
    [validate_crc()] answers. *)
#[warnings="-register-all"]
Inductive Message :=
| PartialMessage
| PlainMessage (crc_ok : bool) (m_key m_value : string)
| CompressedMessage (crc_ok : bool) (inner : list (Z * Z * Message)).

(** [kafka.common.for_code]: the error class of a wire error code (the
    codes are the protocol's); a code the fetcher does not name stays
    [OtherError]. *)
Inductive ErrorType :=
| NoError
| OffsetOutOfRange
| UnknownTopicOrPartition
| NotLeaderForPartition
| TopicAuthorizationFailed
| OtherError (code : Z).

Definition for_code (error_code : Z) : ErrorType :=
  if error_code =? 0 then NoError
  else if error_code =? 1 then OffsetOutOfRange
  else if error_code =? 3 then UnknownTopicOrPartition
  else if error_code =? 6 then NotLeaderForPartition
  else if error_code =? 29 then TopicAuthorizationFailed
  else OtherError error_code.

(** [kafka.common] error classes the fetcher installs, raises or catches,
    with the constructor arguments the source gives them. *)
Inductive KafkaError :=
| InvalidMessageError (msg : Message)
| RecordTooLargeError (tp : TopicPartition) (fetch_offset max_bytes : Z)
| OffsetOutOfRangeError (tp : TopicPartition) (fetch_offset : Z)
| TopicAuthorizationFailedError (t : string)
| StaleMetadata (tp : TopicPartition)
| LeaderNotAvailableError (tp : TopicPartition)
| NodeNotReadyError (node_id : Z)
| BrokerError (error_type : ErrorType) (tp : TopicPartition).

Inductive Exn :=
| KeyError
| IndexError
| AttributeError
| AssertionError
| Kafka (e : KafkaError).

Inductive result (A : Type) :=
| Ok (a : A)
| Raise (e : Exn).
Arguments Ok {A} a.
Arguments Raise {A} e.

(** Exceptions propagate through sequencing: stdpp's [x ← m; k]. *)
#[global] Instance result_ret : MRet result := fun _ a => Ok a.
#[global] Instance result_bind : MBind result := fun _ _ k m =>
  match m with
  | Ok a => k a
  | Raise e => Raise e
  end.

(** ** Subscription state (kafka.consumer.subscription_state) *)

(** [kafka.protocol.offset.OffsetResetStrategy] of the client library:
    plain integer constants, the first two being the wire timestamps
    "latest" and "earliest" of an OffsetRequest. *)
Module OffsetResetStrategy.
Definition LATEST : Z := -1.
Definition EARLIEST : Z := -2.
Definition NONE : Z := 0.
End OffsetResetStrategy.

Record TopicPartitionState := {
  position : Z;
  has_valid_position : bool;
  committed : option Z;
  highwater : option Z;
  reset_strategy : Z;
  paused : bool;
  awaiting_reset : bool
}.

Record SubscriptionState := {
  needs_partition_assignment : bool;
  assignment : gmap TopicPartition TopicPartitionState;
  default_offset_reset_strategy : Z
}.

Definition with_assignment (s : SubscriptionState)
    (a : gmap TopicPartition TopicPartitionState) : SubscriptionState :=
  {| needs_partition_assignment := needs_partition_assignment s;
     assignment := a;
     default_offset_reset_strategy := default_offset_reset_strategy s |}.

Definition with_position (st : TopicPartitionState) (p : Z) :=
  {| position := p; has_valid_position := has_valid_position st;
     committed := committed st; highwater := highwater st;
     reset_strategy := reset_strategy st; paused := paused st;
     awaiting_reset := awaiting_reset st |}.

Definition with_highwater (st : TopicPartitionState) (h : option Z) :=
  {| position := position st; has_valid_position := has_valid_position st;
     committed := committed st; highwater := h;
     reset_strategy := reset_strategy st; paused := paused st;
     awaiting_reset := awaiting_reset st |}.

(** Modelled from the spec: [SubscriptionState] belongs to the client
    library.  §3 gives a partition's state a [position: int]; whether that
    position is valid is a flag of its own, and every read or write of
    [position] in fetcher.py happens on a fetchable partition.
    [is_assigned(tp)]: the partition has an entry in [assignment]. *)
Definition is_assigned (s : SubscriptionState) (tp : TopicPartition) : bool :=
  bool_decide (is_Some (assignment s !! tp)).

(** Modelled from the spec: "Fetchable: TP is assigned, not paused, and has
    a valid position". *)
Definition is_fetchable (s : SubscriptionState) (tp : TopicPartition) : bool :=
  match assignment s !! tp with
  | Some st => negb (paused st) && has_valid_position st
  | None => false
  end.

(** Modelled from the spec: [fetchable_partitions() -> set<TP>]. *)
Definition fetchable_partitions (s : SubscriptionState) : gset TopicPartition :=
  dom (filter (fun kv => negb (paused kv.2) && has_valid_position kv.2 = true)
              (assignment s)).

(** Modelled from the spec: [has_default_offset_reset_policy()]: the default
    strategy is one of EARLIEST and LATEST. *)
Definition has_default_offset_reset_policy (s : SubscriptionState) : bool :=
  negb (default_offset_reset_strategy s =? OffsetResetStrategy.NONE).

(** Modelled from the spec: [need_offset_reset(tp)] marks the partition as
    needing a reset with the default strategy; it then has no valid position
    (§4.E: a reset is meaningful only for such partitions). *)
Definition need_offset_reset (s : SubscriptionState) (tp : TopicPartition)
    : result SubscriptionState :=
  match assignment s !! tp with
  | None => Raise KeyError
  | Some st =>
      Ok (with_assignment s
            (<[tp := {| position := position st; has_valid_position := false;
                        committed := committed st;
                        highwater := highwater st;
                        reset_strategy := default_offset_reset_strategy s;
                        paused := paused st; awaiting_reset := true |}]>
               (assignment s)))
  end.

(** Modelled from the spec: [seek(tp, offset)] gives the partition the
    position [offset]; no reset is awaited any more. *)
Definition seek (s : SubscriptionState) (tp : TopicPartition) (offset : Z)
    : result SubscriptionState :=
  match assignment s !! tp with
  | None => Raise KeyError
  | Some st =>
      Ok (with_assignment s
            (<[tp := {| position := offset; has_valid_position := true;
                        committed := committed st;
                        highwater := highwater st;
                        reset_strategy := reset_strategy st;
                        paused := paused st; awaiting_reset := false |}]>
               (assignment s)))
  end.

(** [self._subscriptions.assignment[tp].position] *)
Definition get_position (s : SubscriptionState) (tp : TopicPartition)
    : result Z :=
  match assignment s !! tp with
  | None => Raise KeyError
  | Some st => Ok (position st)
  end.

(** [self._subscriptions.assignment[tp].position += 1] *)
Definition incr_position (s : SubscriptionState) (tp : TopicPartition)
    : result SubscriptionState :=
  match assignment s !! tp with
  | None => Raise KeyError
  | Some st =>
      Ok (with_assignment s
            (<[tp := with_position st (position st + 1)]> (assignment s)))
  end.

(** [self._subscriptions.assignment[tp].highwater = highwater] *)
Definition set_highwater (s : SubscriptionState) (tp : TopicPartition) (h : Z)
    : result SubscriptionState :=
  match assignment s !! tp with
  | None => Raise KeyError
  | Some st =>
      Ok (with_assignment s (<[tp := with_highwater st (Some h)]> (assignment s)))
  end.

(** ** ConsumerRecord and FetchResult *)

Record ConsumerRecord := {
  r_topic : string;
  r_partition : Z;
  offset : Z;
  key : string;
  value : string
}.

#[global] Instance ConsumerRecord_eq_dec : EqDecision ConsumerRecord.
Proof. solve_decision. Defined.

Definition record_tp (r : ConsumerRecord) : TopicPartition :=
  TP (r_topic r) (r_partition r).

Module FetchResult.

(** [_check_assignment]: the flag returned and the deque afterwards
    (cleared when the partition is not to be served). *)
Definition _check_assignment (s : SubscriptionState) (tp : TopicPartition)
    (_messages : list ConsumerRecord) : bool * list ConsumerRecord :=
  if needs_partition_assignment s || negb (is_fetchable s tp)
  then (false, [])
  else (true, _messages).

(** The [while True] loop of [getone]; every iteration pops the head of
    the deque.  The result is the value returned, the subscription state
    and the deque as the call leaves them. *)
Fixpoint getone_loop (s : SubscriptionState) (tp : TopicPartition)
    (_messages : list ConsumerRecord)
    : result (option ConsumerRecord * SubscriptionState * list ConsumerRecord) :=
  match _messages with
  | [] => Ok (None, s, [])
  | msg :: rest =>
      pos ← get_position s tp;
      if offset msg =? pos then
        s' ← incr_position s tp;
        Ok (Some msg, s', rest)
      else getone_loop s tp rest
  end.

Definition getone (s : SubscriptionState) (tp : TopicPartition)
    (_messages : list ConsumerRecord)
    : result (option ConsumerRecord * SubscriptionState * list ConsumerRecord) :=
  let '(ok, msgs) := _check_assignment s tp _messages in
  if negb ok then Ok (None, s, msgs)
  else getone_loop s tp msgs.

(** The [while True] loop of [getall], [ret_list] being the records
    appended so far. *)
Fixpoint getall_loop (s : SubscriptionState) (tp : TopicPartition)
    (ret_list : list ConsumerRecord) (_messages : list ConsumerRecord)
    : result (list ConsumerRecord * SubscriptionState * list ConsumerRecord) :=
  match _messages with
  | [] => Ok (ret_list, s, [])
  | msg :: rest =>
      pos ← get_position s tp;
      if offset msg =? pos then
        s' ← incr_position s tp;
        getall_loop s' tp (ret_list ++ [msg]) rest
      else getall_loop s tp ret_list rest
  end.

Definition getall (s : SubscriptionState) (tp : TopicPartition)
    (_messages : list ConsumerRecord)
    : result (list ConsumerRecord * SubscriptionState * list ConsumerRecord) :=
  let '(ok, msgs) := _check_assignment s tp _messages in
  if negb ok then Ok ([], s, msgs)
  else getall_loop s tp [] msgs.

End FetchResult.


(** ** collections.OrderedDict, as used for [Fetcher._records] *)

Module OrderedDict.
Section ordered_dict.
Context {V : Type}.

Definition t := list (TopicPartition * V).

Definition keys (d : t) : list TopicPartition := d.*1.

Fixpoint get (tp : TopicPartition) (d : t) : option V :=
  match d with
  | [] => None
  | (k, v) :: d' => if decide (k = tp) then Some v else get tp d'
  end.

Definition contains (tp : TopicPartition) (d : t) : bool :=
  bool_decide (is_Some (get tp d)).

(** [d[tp] = v]: an existing key keeps its place, a new one goes last. *)
Fixpoint set (tp : TopicPartition) (v : V) (d : t) : t :=
  match d with
  | [] => [(tp, v)]
  | (k, w) :: d' =>
      if decide (k = tp) then (k, v) :: d' else (k, w) :: set tp v d'
  end.

(** [del d[tp]] *)
Fixpoint del (tp : TopicPartition) (d : t) : result t :=
  match d with
  | [] => Raise KeyError
  | (k, w) :: d' =>
      if decide (k = tp) then Ok d' else d'' ← del tp d'; Ok ((k, w) :: d'')
  end.

End ordered_dict.
Arguments t : clear implicits.
End OrderedDict.

(** ** The fetcher *)

(** An entry of the record map: a [FetchResult] (its deque of records; its
    topic partition is the key, its subscriptions the fetcher's own) or an
    exception object. *)
Inductive Entry :=
| Buffer (_messages : list ConsumerRecord)
| Err (e : KafkaError).

(** An [asyncio.Future] as [_notify] sees it. *)
Inductive Future := Pending | Done.

Definition MessageSet := list (Z * Z * Message).

(** FetchRequest: [(replica_id, max_wait_ms, min_bytes, topics)], a topic
    being [(topic, [(partition, fetch_offset, max_bytes)])]. *)
Record FetchRequest := {
  replica_id : Z;
  max_wait_time : Z;
  min_bytes : Z;
  topics : list (string * list (Z * Z * Z))
}.

(** FetchResponse topics:
    [(topic, [(partition, error_code, highwater, messages)])]. *)
Definition FetchResponse := list (string * list (Z * Z * Z * MessageSet)).

(** OffsetRequest [(replica_id, [(topic, [(partition, timestamp, max_offsets)])])]
    and OffsetResponse topics [(topic, [(partition, error_code, offsets)])]. *)
Definition OffsetRequest := (Z * list (string * list (Z * Z * Z)))%type.
Definition OffsetResponse := list (string * list (Z * Z * list Z)).

(** The broker client at one moment: what [cluster.leader_for_partition],
    [ready] and [send] (of an OffsetRequest) answer. *)
Record Client := {
  leader_for_partition : TopicPartition -> option Z;
  ready : Z -> bool;
  send : Z -> OffsetRequest -> result OffsetResponse
}.

Record Fetcher := {
  _key_deserializer : option (string -> string);
  _value_deserializer : option (string -> string);
  _fetch_min_bytes : Z;
  _fetch_max_wait_ms : Z;
  _max_partition_fetch_bytes : Z;
  _check_crcs : bool;
  _subscriptions : SubscriptionState;
  _records : OrderedDict.t Entry;
  _in_flight : gset Z;
  _wait_full_future : option Future;
  (* the client's mutable part: calls of force_metadata_update so far *)
  _metadata_updates : nat
}.

Definition with_subscriptions (f : Fetcher) (s : SubscriptionState) : Fetcher :=
  {| _key_deserializer := _key_deserializer f;
     _value_deserializer := _value_deserializer f;
     _fetch_min_bytes := _fetch_min_bytes f;
     _fetch_max_wait_ms := _fetch_max_wait_ms f;
     _max_partition_fetch_bytes := _max_partition_fetch_bytes f;
     _check_crcs := _check_crcs f;
     _subscriptions := s;
     _records := _records f;
     _in_flight := _in_flight f;
     _wait_full_future := _wait_full_future f;
     _metadata_updates := _metadata_updates f |}.

Definition with_records (f : Fetcher) (r : OrderedDict.t Entry) : Fetcher :=
  {| _key_deserializer := _key_deserializer f;
     _value_deserializer := _value_deserializer f;
     _fetch_min_bytes := _fetch_min_bytes f;
     _fetch_max_wait_ms := _fetch_max_wait_ms f;
     _max_partition_fetch_bytes := _max_partition_fetch_bytes f;
     _check_crcs := _check_crcs f;
     _subscriptions := _subscriptions f;
     _records := r;
     _in_flight := _in_flight f;
     _wait_full_future := _wait_full_future f;
     _metadata_updates := _metadata_updates f |}.

Definition with_in_flight (f : Fetcher) (i : gset Z) : Fetcher :=
  {| _key_deserializer := _key_deserializer f;
     _value_deserializer := _value_deserializer f;
     _fetch_min_bytes := _fetch_min_bytes f;
     _fetch_max_wait_ms := _fetch_max_wait_ms f;
     _max_partition_fetch_bytes := _max_partition_fetch_bytes f;
     _check_crcs := _check_crcs f;
     _subscriptions := _subscriptions f;
     _records := _records f;
     _in_flight := i;
     _wait_full_future := _wait_full_future f;
     _metadata_updates := _metadata_updates f |}.

Definition with_wait_full_future (f : Fetcher) (w : option Future) : Fetcher :=
  {| _key_deserializer := _key_deserializer f;
     _value_deserializer := _value_deserializer f;
     _fetch_min_bytes := _fetch_min_bytes f;
     _fetch_max_wait_ms := _fetch_max_wait_ms f;
     _max_partition_fetch_bytes := _max_partition_fetch_bytes f;
     _check_crcs := _check_crcs f;
     _subscriptions := _subscriptions f;
     _records := _records f;
     _in_flight := _in_flight f;
     _wait_full_future := w;
     _metadata_updates := _metadata_updates f |}.

(** [self._client.force_metadata_update()] *)
Definition force_metadata_update (f : Fetcher) : Fetcher :=
  {| _key_deserializer := _key_deserializer f;
     _value_deserializer := _value_deserializer f;
     _fetch_min_bytes := _fetch_min_bytes f;
     _fetch_max_wait_ms := _fetch_max_wait_ms f;
     _max_partition_fetch_bytes := _max_partition_fetch_bytes f;
     _check_crcs := _check_crcs f;
     _subscriptions := _subscriptions f;
     _records := _records f;
     _in_flight := _in_flight f;
     _wait_full_future := _wait_full_future f;
     _metadata_updates := S (_metadata_updates f) |}.

(** [_notify(future)]: a pending future gets its result. *)
Definition _notify (future : option Future) : option Future :=
  match future with
  | Some Pending => Some Done
  | other => other
  end.

Definition notify_full (f : Fetcher) : Fetcher :=
  with_wait_full_future f (_notify (_wait_full_future f)).

(** *** Record unpacker *)

Definition _deserialize (f : Fetcher) (m_key m_value : string) : string * string :=
  (match _key_deserializer f with Some d => d m_key | None => m_key end,
   match _value_deserializer f with Some d => d m_value | None => m_value end).

(** [_unpack_message_set], the generator run to its end (as [deque(...)]
    does): the records yielded, or the exception that stopped it. *)
Fixpoint unpack_message (f : Fetcher) (tp : TopicPartition) (offset : Z)
    (msg : Message) {struct msg} : result (list ConsumerRecord) :=
  match msg with
  | PartialMessage => Raise AttributeError
  | PlainMessage crc_ok k v =>
      if _check_crcs f && negb crc_ok then Raise (Kafka (InvalidMessageError msg))
      else
        let '(key, value) := _deserialize f k v in
        Ok [ {| r_topic := topic tp; r_partition := partition tp;
                offset := offset; key := key; value := value |} ]
  | CompressedMessage crc_ok inner =>
      if _check_crcs f && negb crc_ok then Raise (Kafka (InvalidMessageError msg))
      else
        (fix unpack_set (messages : list (Z * Z * Message)) :=
           match messages with
           | [] => Ok []
           | (o, _, m) :: rest =>
               rs ← unpack_message f tp o m;
               rs' ← unpack_set rest;
               Ok (rs ++ rs')
           end) inner
  end.

Fixpoint _unpack_message_set (f : Fetcher) (tp : TopicPartition)
    (messages : MessageSet) : result (list ConsumerRecord) :=
  match messages with
  | [] => Ok []
  | (o, _, m) :: rest =>
      rs ← unpack_message f tp o m;
      rs' ← _unpack_message_set f tp rest;
      Ok (rs ++ rs')
  end.

(** *** Fetch request planner *)

Definition PartitionInfo := (Z * Z * Z)%type.

(** [d[t].append(info)] on a [defaultdict(list)], kept in insertion order. *)
Fixpoint append_topic (t : string) (info : PartitionInfo)
    (d : list (string * list PartitionInfo)) : list (string * list PartitionInfo) :=
  match d with
  | [] => [(t, [info])]
  | (k, l) :: d' =>
      if decide (k = t) then (k, l ++ [info]) :: d'
      else (k, l) :: append_topic t info d'
  end.

(** [fetchable[node_id][t].append(info)] on the two-level defaultdict. *)
Fixpoint append_node (node_id : Z) (t : string) (info : PartitionInfo)
    (d : list (Z * list (string * list PartitionInfo)))
    : list (Z * list (string * list PartitionInfo)) :=
  match d with
  | [] => [(node_id, [(t, [info])])]
  | (k, td) :: d' =>
      if decide (k = node_id) then (k, append_topic t info td) :: d'
      else (k, td) :: append_node node_id t info d'
  end.

(** [node_id in self._in_flight], [node_id] being [None] or an integer. *)
Definition in_flight_has (f : Fetcher) (node_id : option Z) : bool :=
  match node_id with
  | None => false
  | Some n => bool_decide (n ∈ _in_flight f)
  end.

(** The loop over [fetchable_partitions], in the order the set is
    iterated. *)
Fixpoint plan_partitions (f : Fetcher) (c : Client)
    (fetchable_partitions : list TopicPartition)
    (fetchable : list (Z * list (string * list PartitionInfo)))
    : result (list (Z * list (string * list PartitionInfo))) :=
  match fetchable_partitions with
  | [] => Ok fetchable
  | tp :: rest =>
      if OrderedDict.contains tp (_records f) then
        plan_partitions f c rest fetchable
      else
        let node_id := leader_for_partition c tp in
        if in_flight_has f node_id then plan_partitions f c rest fetchable
        else
          match node_id with
          | None => plan_partitions f c rest fetchable
          | Some n =>
              if n =? -1 then plan_partitions f c rest fetchable
              else
                position ← get_position (_subscriptions f) tp;
                let partition_info :=
                  (partition tp, position, _max_partition_fetch_bytes f) in
                plan_partitions f c rest
                  (append_node n (topic tp) partition_info fetchable)
          end
  end.

Definition build_requests (f : Fetcher)
    (fetchable : list (Z * list (string * list PartitionInfo)))
    : list (Z * FetchRequest) :=
  (fun '(node_id, partition_data) =>
     (node_id, {| replica_id := -1;
                  max_wait_time := _fetch_max_wait_ms f;
                  min_bytes := _fetch_min_bytes f;
                  topics := partition_data |})) <$> fetchable.

(** [_create_fetch_requests] when the set of fetchable partitions is
    iterated in the order [order]. *)
Definition _create_fetch_requests_in (order : list TopicPartition)
    (f : Fetcher) (c : Client) : result (list (Z * FetchRequest)) :=
  if needs_partition_assignment (_subscriptions f) then Ok []
  else
    fetchable ← plan_partitions f c order [];
    Ok (build_requests f fetchable).

Definition _create_fetch_requests (f : Fetcher) (c : Client)
    : result (list (Z * FetchRequest)) :=
  _create_fetch_requests_in
    (elements (fetchable_partitions (_subscriptions f))) f c.

(** The topic partitions a request lists. *)
Definition request_partitions (req : FetchRequest) : list TopicPartition :=
  '(t, infos) ← topics req; (fun info : PartitionInfo => TP t info.1.1) <$> infos.

(** *** Fetch response processor *)

(** [fetch_offsets] of [_proc_fetch_request]. *)
Definition fetch_offsets_of (request : FetchRequest) : gmap TopicPartition Z :=
  foldl (fun (m : gmap TopicPartition Z) '(t, partitions) =>
           foldl (fun (m : gmap TopicPartition Z) '(p, o, _) => <[TP t p := o]> m)
                 m partitions)
        ∅ (topics request).

(** A trailing [PartialMessage] entry is popped aside. *)
Definition pop_partial (messages : MessageSet)
    : option (Z * Z * Message) * MessageSet :=
  match last messages with
  | Some (o, sz, PartialMessage) =>
      (Some (o, sz, PartialMessage), removelast messages)
  | _ => (None, messages)
  end.

(** The body of the inner [for] of [_proc_fetch_request] for one partition
    entry of the response: the new value of [needs_wakeup] and the fetcher
    afterwards. *)
Definition proc_partition (fetch_offsets : gmap TopicPartition Z)
    (t : string) (entry : Z * Z * Z * MessageSet)
    (needs_wakeup : bool) (f : Fetcher) : result bool * Fetcher :=
  let '(p, error_code, highwater, messages) := entry in
  let tp := TP t p in
  let error_type := for_code error_code in
  if negb (is_fetchable (_subscriptions f) tp) then (Ok needs_wakeup, f)
  else
    match error_type with
    | NoError =>
        match set_highwater (_subscriptions f) tp highwater with
        | Raise e => (Raise e, f)
        | Ok s1 =>
            let f1 := with_subscriptions f s1 in
            match fetch_offsets !! tp with
            | None => (Raise KeyError, f1)
            | Some fetch_offset =>
                let '(partial, messages) := pop_partial messages in
                match messages with
                | _ :: _ =>
                    match _unpack_message_set f1 tp messages with
                    | Ok records =>
                        (Ok true,
                         with_records f1
                           (OrderedDict.set tp (Buffer records) (_records f1)))
                    | Raise (Kafka (InvalidMessageError m)) =>
                        (Ok needs_wakeup,
                         with_records f1
                           (OrderedDict.set tp (Err (InvalidMessageError m))
                              (_records f1)))
                    | Raise e => (Raise e, f1)
                    end
                | [] =>
                    match partial with
                    | Some _ =>
                        let f2 :=
                          with_records f1
                            (OrderedDict.set tp
                               (Err (RecordTooLargeError tp fetch_offset
                                       (_max_partition_fetch_bytes f1)))
                               (_records f1)) in
                        match incr_position (_subscriptions f2) tp with
                        | Raise e => (Raise e, f2)
                        | Ok s2 => (Ok true, with_subscriptions f2 s2)
                        end
                    | None => (Ok needs_wakeup, f1)
                    end
                end
            end
        end
    | NotLeaderForPartition | UnknownTopicOrPartition =>
        (Ok needs_wakeup, force_metadata_update f)
    | OffsetOutOfRange =>
        match fetch_offsets !! tp with
        | None => (Raise KeyError, f)
        | Some fetch_offset =>
            if has_default_offset_reset_policy (_subscriptions f) then
              match need_offset_reset (_subscriptions f) tp with
              | Raise e => (Raise e, f)
              | Ok s1 => (Ok needs_wakeup, with_subscriptions f s1)
              end
            else
              (Ok true,
               with_records f
                 (OrderedDict.set tp (Err (OffsetOutOfRangeError tp fetch_offset))
                    (_records f)))
        end
    | TopicAuthorizationFailed =>
        (Ok true,
         with_records f
           (OrderedDict.set tp (Err (TopicAuthorizationFailedError (topic tp)))
              (_records f)))
    | OtherError _ => (Ok needs_wakeup, f)
    end.

Fixpoint proc_partitions (fetch_offsets : gmap TopicPartition Z) (t : string)
    (partitions : list (Z * Z * Z * MessageSet))
    (needs_wakeup : bool) (f : Fetcher) : result bool * Fetcher :=
  match partitions with
  | [] => (Ok needs_wakeup, f)
  | entry :: rest =>
      match proc_partition fetch_offsets t entry needs_wakeup f with
      | (Ok w, f') => proc_partitions fetch_offsets t rest w f'
      | raised => raised
      end
  end.

Fixpoint proc_topics (fetch_offsets : gmap TopicPartition Z)
    (response : FetchResponse)
    (needs_wakeup : bool) (f : Fetcher) : result bool * Fetcher :=
  match response with
  | [] => (Ok needs_wakeup, f)
  | (t, partitions) :: rest =>
      match proc_partitions fetch_offsets t partitions needs_wakeup f with
      | (Ok w, f') => proc_topics fetch_offsets rest w f'
      | raised => raised
      end
  end.

(** [_proc_fetch_request] from the moment [send] gives [response] (or
    raises); [f] is the fetcher at that moment. *)
Definition _proc_fetch_request (node_id : Z) (request : FetchRequest)
    (response : result FetchResponse) (f : Fetcher) : result bool * Fetcher :=
  if bool_decide (node_id ∈ _in_flight f) then
    let f := with_in_flight f (_in_flight f ∖ {[node_id]}) in
    match response with
    | Raise (Kafka _) => (Ok false, f)
    | Raise e => (Raise e, f)
    | Ok response => proc_topics (fetch_offsets_of request) response false f
    end
  else (Raise KeyError, f).

(** *** Offset reset subsystem *)

(** What the fetcher asks of the client on the offset path. *)
Inductive ClientCall :=
| Send (node_id : Z) (request : OffsetRequest)
| ForceMetadataUpdate.

(** The timestamps of the OffsetRequests in a list of client calls. *)
Definition request_timestamps (request : OffsetRequest) : list Z :=
  '(_, partitions) ← request.2; (fun i : Z * Z * Z => i.1.2) <$> partitions.

Definition sent_timestamps (calls : list ClientCall) : list Z :=
  call ← calls;
  match call with
  | Send _ request => request_timestamps request
  | ForceMetadataUpdate => []
  end.

(** [_proc_offset_request] against the client as it is during the call:
    the outcome and the calls made. *)
Definition _proc_offset_request (c : Client) (partition_ : TopicPartition)
    (timestamp : Z) : result Z * list ClientCall :=
  match leader_for_partition c partition_ with
  | None => (Raise (Kafka (StaleMetadata partition_)), [])
  | Some node_id =>
      if node_id =? -1 then
        (Raise (Kafka (LeaderNotAvailableError partition_)), [])
      else
        let request : OffsetRequest :=
          (-1, [(topic partition_, [(partition partition_, timestamp, 1)])]) in
        if negb (ready c node_id) then
          (Raise (Kafka (NodeNotReadyError node_id)), [])
        else
          (response ← send c node_id request;
           '(t, partition_info) ← from_option Ok (Raise IndexError) (head response);
           if negb (bool_decide (length response = 1%nat)
                    && bool_decide (length partition_info = 1%nat))
           then Raise AssertionError
           else
             '(part, error_code, offsets) ←
               from_option Ok (Raise IndexError) (head partition_info);
             if negb (bool_decide (t = topic partition_)
                      && bool_decide (part = partition partition_))
             then Raise AssertionError
             else
               match for_code error_code with
               | NoError =>
                   if negb (bool_decide (length offsets = 1%nat))
                   then Raise AssertionError
                   else from_option Ok (Raise IndexError) (head offsets)
               | error_type => Raise (Kafka (BrokerError error_type partition_))
               end,
           [Send node_id request])
  end.

Section offset_retry.

(** The [retriable] and [invalid_metadata] attributes of [kafka.common]'s
    error classes. *)
Variables retriable invalid_metadata : KafkaError -> bool.

(** [_offset]: one attempt per state the client goes through; [None] when
    the loop is still retrying after the last of them. *)
Fixpoint _offset (clients : list Client) (partition_ : TopicPartition)
    (timestamp : Z) : option (result Z) * list ClientCall :=
  match clients with
  | [] => (None, [])
  | c :: later =>
      match _proc_offset_request c partition_ timestamp with
      | (Ok offset, calls) => (Some (Ok offset), calls)
      | (Raise (Kafka error), calls) =>
          if negb (retriable error) then (Some (Raise (Kafka error)), calls)
          else
            let refresh :=
              if invalid_metadata error then [ForceMetadataUpdate] else [] in
            let '(r, calls') := _offset later partition_ timestamp in
            (r, calls ++ refresh ++ calls')
      | (Raise e, calls) => (Some (Raise e), calls)
      end
  end.

(** [_reset_offset]; [s] is the subscription state when it starts and
    [s_resumed] the one it finds when [_offset] has returned. *)
Definition _reset_offset (clients : list Client) (s s_resumed : SubscriptionState)
    (partition_ : TopicPartition)
    : option (result SubscriptionState) * list ClientCall :=
  match assignment s !! partition_ with
  | None => (Some (Raise KeyError), [])
  | Some st =>
      let timestamp := reset_strategy st in
      match _offset clients partition_ timestamp with
      | (None, calls) => (None, calls)
      | (Some (Raise e), calls) => (Some (Raise e), calls)
      | (Some (Ok offset), calls) =>
          (Some (if is_assigned s_resumed partition_
                 then seek s_resumed partition_ offset
                 else Ok s_resumed),
           calls)
      end
  end.

End offset_retry.

(** *** Consumer API *)

(** [partitions and tp not in partitions] *)
Definition filtered_out (partitions : list TopicPartition) (tp : TopicPartition)
    : bool :=
  bool_decide (partitions ≠ []) && bool_decide (tp ∉ partitions).

(** [del self._records[tp]; self._notify(self._wait_full_future)] *)
Definition del_and_notify (tp : TopicPartition) (f : Fetcher) : result Fetcher :=
  records ← OrderedDict.del tp (_records f);
  Ok (notify_full (with_records f records)).

(** The [for] loop of [next_record] over the keys listed when it started.
    [Ok None] stands for the loop running out: the coroutine then waits for
    new records and starts over. *)
Fixpoint next_record_loop (partitions : list TopicPartition)
    (keys : list TopicPartition) (f : Fetcher)
    : result (option ConsumerRecord) * Fetcher :=
  match keys with
  | [] => (Ok None, f)
  | tp :: keys' =>
      if filtered_out partitions tp then next_record_loop partitions keys' f
      else
        match OrderedDict.get tp (_records f) with
        | None => (Raise KeyError, f)
        | Some (Buffer messages) =>
            match FetchResult.getone (_subscriptions f) tp messages with
            | Raise e => (Raise e, f)
            | Ok (None, s, messages') =>
                let f1 :=
                  with_records (with_subscriptions f s)
                    (OrderedDict.set tp (Buffer messages') (_records f)) in
                match del_and_notify tp f1 with
                | Raise e => (Raise e, f1)
                | Ok f2 => next_record_loop partitions keys' f2
                end
            | Ok (Some message, s, messages') =>
                (Ok (Some message),
                 with_records (with_subscriptions f s)
                   (OrderedDict.set tp (Buffer messages') (_records f)))
            end
        | Some (Err res_or_error) =>
            match del_and_notify tp f with
            | Raise e => (Raise e, f)
            | Ok f1 => (Raise (Kafka res_or_error), f1)
            end
        end
  end.

Definition next_record (partitions : list TopicPartition) (f : Fetcher)
    : result (option ConsumerRecord) * Fetcher :=
  next_record_loop partitions (OrderedDict.keys (_records f)) f.

(** The [for] loop of [fetched_records], left at its end or by one of its
    [return drained] and [raise]. *)
Fixpoint fetched_records_loop (partitions : list TopicPartition)
    (keys : list TopicPartition)
    (drained : OrderedDict.t (list ConsumerRecord)) (f : Fetcher)
    : result (OrderedDict.t (list ConsumerRecord)) * Fetcher :=
  match keys with
  | [] => (Ok drained, f)
  | tp :: keys' =>
      if filtered_out partitions tp
      then fetched_records_loop partitions keys' drained f
      else
        match OrderedDict.get tp (_records f) with
        | None => (Raise KeyError, f)
        | Some (Buffer messages) =>
            match FetchResult.getall (_subscriptions f) tp messages with
            | Raise e => (Raise e, f)
            | Ok (ret_list, s, messages') =>
                let f1 :=
                  with_records (with_subscriptions f s)
                    (OrderedDict.set tp (Buffer messages') (_records f)) in
                match del_and_notify tp f1 with
                | Raise e => (Raise e, f1)
                | Ok f2 =>
                    fetched_records_loop partitions keys'
                      (OrderedDict.set tp ret_list drained) f2
                end
            end
        | Some (Err res_or_error) =>
            match drained with
            | _ :: _ => (Ok drained, f)
            | [] =>
                match del_and_notify tp f with
                | Raise e => (Raise e, f)
                | Ok f1 => (Raise (Kafka res_or_error), f1)
                end
            end
        end
  end.

(** [fetched_records] up to its wait: [Ok None] stands for "nothing drained
    and a timeout to spend", where the coroutine waits for new records and,
    if some arrive in time, runs once more with [timeout = 0]. *)
Definition fetched_records (partitions : list TopicPartition) (timeout : Z)
    (f : Fetcher)
    : result (option (OrderedDict.t (list ConsumerRecord))) * Fetcher :=
  match fetched_records_loop partitions (OrderedDict.keys (_records f)) [] f with
  | (Ok drained, f') =>
      match drained with
      | _ :: _ => (Ok (Some drained), f')
      | [] => if timeout =? 0 then (Ok (Some drained), f') else (Ok None, f')
      end
  | (Raise e, f') => (Raise e, f')
  end.

(** ** Vocabulary of the properties *)

(** The position of a partition, when it is assigned. *)
Definition position_of (s : SubscriptionState) (tp : TopicPartition) : option Z :=
  position <$> assignment s !! tp.

(** [delivers tp s l s']: going from [s] to [s'], the records of [l] are
    handed out one after the other, each one at the moment the position
    equals its offset, and each one with a single [position += 1]. *)
Inductive delivers (tp : TopicPartition)
    : SubscriptionState -> list ConsumerRecord -> SubscriptionState -> Prop :=
| delivers_nil s : delivers tp s [] s
| delivers_cons s s1 s' r l :
    position_of s tp = Some (offset r) ->
    incr_position s tp = Ok s1 ->
    position_of s1 tp = Some (offset r + 1) ->
    delivers tp s1 l s' ->
    delivers tp s (r :: l) s'.

(** The error sentinels a record map holds, in its order. *)
Definition sentinels (d : OrderedDict.t Entry) : list KafkaError :=
  omap (fun kv : TopicPartition * Entry =>
          match kv.2 with
          | Err e => Some e
          | Buffer _ => None
          end) d.

(** A call of the consumer API, up to the point where it returns, raises or
    starts waiting: the exception it lets out, if any, and the fetcher
    afterwards. *)
Inductive ConsumerCall :=
| NextRecord (partitions : list TopicPartition)
| FetchedRecords (partitions : list TopicPartition) (timeout : Z).

Definition consume (call : ConsumerCall) (f : Fetcher) : option Exn * Fetcher :=
  match call with
  | NextRecord partitions =>
      match next_record partitions f with
      | (Raise e, f') => (Some e, f')
      | (Ok _, f') => (None, f')
      end
  | FetchedRecords partitions timeout =>
      match fetched_records partitions timeout f with
      | (Raise e, f') => (Some e, f')
      | (Ok _, f') => (None, f')
      end
  end.

(** The Kafka errors a sequence of consumer calls lets out, one after the
    other, when nothing is installed in between. *)
Fixpoint surfaced (calls : list ConsumerCall) (f : Fetcher) : list KafkaError :=
  match calls with
  | [] => []
  | call :: later =>
      match consume call f with
      | (Some (Kafka e), f') => e :: surfaced later f'
      | (_, f') => surfaced later f'
      end
  end.

(** What the planner maintains about the grouped partitions: no node with
    a request in flight, no partition present in the record map, one group
    per node. *)
Definition plan_ok (f : Fetcher)
    (fetchable : list (Z * list (string * list PartitionInfo))) : Prop :=
  NoDup fetchable.*1
  /\ forall node_id td,
       (node_id, td) ∈ fetchable ->
       (node_id ∉ _in_flight f)
       /\ forall t infos (info : PartitionInfo),
            (t, infos) ∈ td -> info ∈ infos ->
            OrderedDict.contains (TP t info.1.1) (_records f) = false.

(** ** Sample data *)

Definition tp0 : TopicPartition := TP "T" 0.

Definition rec_at (o : Z) : ConsumerRecord :=
  {| r_topic := "T"; r_partition := 0; offset := o; key := ""; value := "" |}.

Definition state_at (p : Z) : TopicPartitionState :=
  {| position := p; has_valid_position := true; committed := None;
     highwater := None; reset_strategy := OffsetResetStrategy.LATEST;
     paused := false; awaiting_reset := false |}.

Definition subs_at (p : Z) : SubscriptionState :=
  {| needs_partition_assignment := false;
     assignment := {[ tp0 := state_at p ]};
     default_offset_reset_strategy := OffsetResetStrategy.LATEST |}.

Definition paused_at (p : Z) : SubscriptionState :=
  {| needs_partition_assignment := false;
     assignment := {[ tp0 := {| position := p; has_valid_position := true;
                                committed := None; highwater := None;
                                reset_strategy := OffsetResetStrategy.LATEST;
                                paused := true; awaiting_reset := false |} ]};
     default_offset_reset_strategy := OffsetResetStrategy.LATEST |}.

(** A fetcher with the constructor's defaults. *)
Definition fetcher_with (s : SubscriptionState) (records : OrderedDict.t Entry)
    (in_flight : gset Z) : Fetcher :=
  {| _key_deserializer := None; _value_deserializer := None;
     _fetch_min_bytes := 1; _fetch_max_wait_ms := 500;
     _max_partition_fetch_bytes := 1048576; _check_crcs := true;
     _subscriptions := s; _records := records; _in_flight := in_flight;
     _wait_full_future := None; _metadata_updates := 0 |}.

(** A request for [tp0] at offset [o]. *)
Definition request_at (o : Z) : FetchRequest :=
  {| replica_id := -1; max_wait_time := 500; min_bytes := 1;
     topics := [("T", [(0, o, 1048576)])] |}.

(** A client whose answers do not depend on the node or the request. *)
Definition client_with (leader : option Z) (node_ready : bool)
    (response : result OffsetResponse) : Client :=
  {| leader_for_partition := fun _ => leader;
     ready := fun _ => node_ready;
     send := fun _ _ => response |}.

(** [tp0] awaiting a reset with [strategy]. *)
Definition awaiting_reset_with (strategy : Z) : SubscriptionState :=
  {| needs_partition_assignment := false;
     assignment := {[ tp0 := {| position := 0; has_valid_position := false;
                                committed := None; highwater := None;
                                reset_strategy := strategy;
                                paused := false; awaiting_reset := true |} ]};
     default_offset_reset_strategy := strategy |}.

(** Modelled from the spec: the error attributes of the client library, as
    §7 classifies the errors of the offset path (all of them retried, the
    stale-leader ones after a metadata refresh). *)
Definition spec_retriable (e : KafkaError) : bool :=
  match e with
  | StaleMetadata _ | LeaderNotAvailableError _ | NodeNotReadyError _
  | BrokerError NotLeaderForPartition _
  | BrokerError UnknownTopicOrPartition _ => true
  | _ => false
  end.

Definition spec_invalid_metadata (e : KafkaError) : bool :=
  match e with
  | StaleMetadata _ | LeaderNotAvailableError _
  | BrokerError NotLeaderForPartition _
  | BrokerError UnknownTopicOrPartition _ => true
  | _ => false
  end.

(** ** Further operations and vocabulary *)

(** Modelled from the spec: [is_offset_reset_needed(tp)], the mark that
    [need_offset_reset] sets and [seek] clears. *)
Definition is_offset_reset_needed (s : SubscriptionState) (tp : TopicPartition)
    : result bool :=
  match assignment s !! tp with
  | None => Raise KeyError
  | Some st => Ok (awaiting_reset st)
  end.

(** The [for] loop of [update_fetch_positions]: the partitions for which a
    [_reset_offset] coroutine has been appended to [futures], in order, and
    the subscription state when the loop ends.  The coroutines themselves
    only run in the [asyncio.wait] that follows. *)
Fixpoint update_fetch_positions_loop (partitions futures : list TopicPartition)
    (s : SubscriptionState) : result (list TopicPartition * SubscriptionState) :=
  match partitions with
  | [] => Ok (futures, s)
  | tp :: rest =>
      if negb (is_assigned s tp) then update_fetch_positions_loop rest futures s
      else if is_fetchable s tp then update_fetch_positions_loop rest futures s
      else
        needed ← is_offset_reset_needed s tp;
        if (needed : bool) then
          update_fetch_positions_loop rest (futures ++ [tp]) s
        else
          st ← from_option Ok (Raise KeyError) (assignment s !! tp);
          match committed st with
          | None =>
              s1 ← need_offset_reset s tp;
              update_fetch_positions_loop rest (futures ++ [tp]) s1
          | Some c =>
              s1 ← seek s tp c;
              update_fetch_positions_loop rest futures s1
          end
  end.

(** Induction on messages that reaches into compressed containers. *)
Fixpoint Message_nested_ind (P : Message -> Prop)
    (Hpartial : P PartialMessage)
    (Hplain : forall crc_ok k v, P (PlainMessage crc_ok k v))
    (Hcompressed : forall crc_ok inner,
        Forall (fun e : Z * Z * Message => P e.2) inner ->
        P (CompressedMessage crc_ok inner))
    (m : Message) : P m :=
  match m with
  | PartialMessage => Hpartial
  | PlainMessage crc_ok k v => Hplain crc_ok k v
  | CompressedMessage crc_ok inner =>
      Hcompressed crc_ok inner
        ((fix all (l : list (Z * Z * Message))
            : Forall (fun e : Z * Z * Message => P e.2) l :=
            match l with
            | [] => List.Forall_nil _
            | e :: l' =>
                @List.Forall_cons _ _ e l'
                  (match e as e0 return P e0.2 with
                   | (_, m') =>
                       Message_nested_ind P Hpartial Hplain Hcompressed m'
                   end)
                  (all l')
            end) inner)
  end.

(** A message the unpacker gets through: no partial message anywhere in
    it, and, when CRCs are checked, every CRC right. *)
Fixpoint unpackable (check_crcs : bool) (m : Message) : bool :=
  match m with
  | PartialMessage => false
  | PlainMessage crc_ok _ _ => negb check_crcs || crc_ok
  | CompressedMessage crc_ok inner =>
      (negb check_crcs || crc_ok)
      && forallb (fun e : Z * Z * Message => unpackable check_crcs e.2) inner
  end.

(** The plain messages of a message, left to right, each with the offset
    of its own entry (for one inside a container, the entry of the nested
    set). *)
Fixpoint leaves (offset : Z) (m : Message) : list (Z * string * string) :=
  match m with
  | PartialMessage => []
  | PlainMessage _ k v => [(offset, k, v)]
  | CompressedMessage _ inner =>
      (fix go (l : list (Z * Z * Message)) :=
         match l with
         | [] => []
         | (o, _, m') :: l' => leaves o m' ++ go l'
         end) inner
  end.

Fixpoint set_leaves (messages : MessageSet) : list (Z * string * string) :=
  match messages with
  | [] => []
  | (o, _, m) :: rest => leaves o m ++ set_leaves rest
  end.

(** The record the unpacker makes of a plain message. *)
Definition record_of (f : Fetcher) (tp : TopicPartition)
    (leaf : Z * string * string) : ConsumerRecord :=
  let '(o, k, v) := leaf in
  {| r_topic := topic tp; r_partition := partition tp; offset := o;
     key := (_deserialize f k v).1; value := (_deserialize f k v).2 |}.

(** Calling [getone] again and again on the same buffer, at most [n] times,
    until it returns nothing: the records returned, the subscription state
    and the deque at the end. *)
Fixpoint getone_repeatedly (n : nat) (s : SubscriptionState) (tp : TopicPartition)
    (_messages : list ConsumerRecord)
    : result (list ConsumerRecord * SubscriptionState * list ConsumerRecord) :=
  match n with
  | O => Ok ([], s, _messages)
  | S n' =>
      '(r, s', rest) ← FetchResult.getone s tp _messages;
      match r with
      | None => Ok ([], s', rest)
      | Some msg =>
          '(l, s'', rest') ← getone_repeatedly n' s' tp rest;
          Ok (msg :: l, s'', rest')
      end
  end.

(** What unpacking may end in: the records of the plain messages when
    every message is unpackable; [InvalidMessageError], only with CRC
    checking on, or [AttributeError] (a partial message has none of a
    message's methods) when one is not. *)
Definition unpack_outcome (f : Fetcher) (tp : TopicPartition)
    (all_unpackable : bool) (expected : list (Z * string * string))
    (r : result (list ConsumerRecord)) : Prop :=
  match r with
  | Ok rs => all_unpackable = true /\ rs = record_of f tp <$> expected
  | Raise (Kafka (InvalidMessageError _)) =>
      all_unpackable = false /\ _check_crcs f = true
  | Raise AttributeError => all_unpackable = false
  | Raise _ => False
  end.

(** [listed d node_id tp info]: the grouped partitions [d] have [info] for
    the partition [tp] under the node [node_id]. *)
Definition listed (d : list (Z * list (string * list PartitionInfo)))
    (node_id : Z) (tp : TopicPartition) (info : PartitionInfo) : Prop :=
  exists td infos,
    (node_id, td) ∈ d /\ (topic tp, infos) ∈ td /\ info ∈ infos
    /\ info.1.1 = partition tp.

(** What makes the planner ask [node_id] for [tp] with [info]. *)
Definition planned (f : Fetcher) (c : Client) (node_id : Z)
    (tp : TopicPartition) (info : PartitionInfo) : Prop :=
  OrderedDict.get tp (_records f) = None
  /\ leader_for_partition c tp = Some node_id
  /\ node_id <> -1
  /\ (node_id ∉ _in_flight f)
  /\ exists st,
       assignment (_subscriptions f) !! tp = Some st
       /\ info = (partition tp, position st, _max_partition_fetch_bytes f).

(** The topic partitions a response has an entry for. *)
Definition response_partitions (response : FetchResponse) : list TopicPartition :=
  '(t, partitions) ← response;
  (fun e : Z * Z * Z * MessageSet => TP t e.1.1.1) <$> partitions.

(** [touches_only tps f f']: from [f] to [f'] the settings, the in-flight
    set and the waiter are the same, no metadata refresh is taken back, the
    record map is still a dictionary and has lost no key, and the record
    map entry and the subscription state of every partition outside [tps]
    are the same. *)
Definition touches_only (tps : list TopicPartition) (f f' : Fetcher) : Prop :=
  _key_deserializer f' = _key_deserializer f
  /\ _value_deserializer f' = _value_deserializer f
  /\ _fetch_min_bytes f' = _fetch_min_bytes f
  /\ _fetch_max_wait_ms f' = _fetch_max_wait_ms f
  /\ _max_partition_fetch_bytes f' = _max_partition_fetch_bytes f
  /\ _check_crcs f' = _check_crcs f
  /\ _in_flight f' = _in_flight f
  /\ _wait_full_future f' = _wait_full_future f
  /\ (_metadata_updates f <= _metadata_updates f')%nat
  /\ needs_partition_assignment (_subscriptions f')
     = needs_partition_assignment (_subscriptions f)
  /\ default_offset_reset_strategy (_subscriptions f')
     = default_offset_reset_strategy (_subscriptions f)
  /\ (NoDup (OrderedDict.keys (_records f)) ->
      NoDup (OrderedDict.keys (_records f')))
  /\ (forall tp, is_Some (OrderedDict.get tp (_records f)) ->
                 is_Some (OrderedDict.get tp (_records f')))
  /\ (forall tp, tp ∉ tps ->
        OrderedDict.get tp (_records f') = OrderedDict.get tp (_records f)
        /\ assignment (_subscriptions f') !! tp
           = assignment (_subscriptions f) !! tp).

(** [consumes_only ps f f']: from [f] to [f'] the settings, the in-flight
    set and the count of metadata refreshes are the same, the record map has
    gained no key (its keys are a sublist of the former ones), and the
    record map entry and the subscription state of every partition that the
    filter [ps] holds back are the same. *)
Definition consumes_only (ps : list TopicPartition) (f f' : Fetcher) : Prop :=
  _key_deserializer f' = _key_deserializer f
  /\ _value_deserializer f' = _value_deserializer f
  /\ _fetch_min_bytes f' = _fetch_min_bytes f
  /\ _fetch_max_wait_ms f' = _fetch_max_wait_ms f
  /\ _max_partition_fetch_bytes f' = _max_partition_fetch_bytes f
  /\ _check_crcs f' = _check_crcs f
  /\ _in_flight f' = _in_flight f
  /\ _metadata_updates f' = _metadata_updates f
  /\ needs_partition_assignment (_subscriptions f')
     = needs_partition_assignment (_subscriptions f)
  /\ default_offset_reset_strategy (_subscriptions f')
     = default_offset_reset_strategy (_subscriptions f)
  /\ OrderedDict.keys (_records f') `sublist_of` OrderedDict.keys (_records f)
  /\ (forall tp, filtered_out ps tp = true ->
        OrderedDict.get tp (_records f') = OrderedDict.get tp (_records f)
        /\ assignment (_subscriptions f') !! tp
           = assignment (_subscriptions f) !! tp).

(** [settled s futures tp]: the partition is assigned and either has a
    valid position or awaits a reset for which a [_reset_offset] is among
    [futures]. *)
Definition settled (s : SubscriptionState) (futures : list TopicPartition)
    (tp : TopicPartition) : Prop :=
  exists st,
    assignment s !! tp = Some st
    /\ (has_valid_position st = true
        \/ (awaiting_reset st = true /\ tp ∈ futures)).

(** * Properties *)

(** ** FetchResult *)

Example getall_8_to_11 :
  FetchResult.getall (subs_at 10) tp0 (rec_at <$> [8; 9; 10; 11])
  = Ok (rec_at <$> [10; 11], subs_at 12, []).
Proof. vm_compute. reflexivity. Qed.

Example getone_8_to_11 :
  FetchResult.getone (subs_at 10) tp0 (rec_at <$> [8; 9; 10; 11])
  = Ok (Some (rec_at 10), subs_at 11, [rec_at 11]).
Proof. vm_compute. reflexivity. Qed.

Lemma incr_position_spec s tp st :
  assignment s !! tp = Some st ->
  exists s1,
    incr_position s tp = Ok s1
    /\ assignment s1 !! tp = Some (with_position st (position st + 1))
    /\ needs_partition_assignment s1 = needs_partition_assignment s
    /\ is_fetchable s1 tp = is_fetchable s tp.
Proof.
  intros Hst. unfold incr_position. rewrite Hst. eexists. split; [reflexivity|].
  unfold is_fetchable. cbn. rewrite lookup_insert_eq, Hst. done.
Qed.

Lemma position_of_lookup s tp st :
  assignment s !! tp = Some st -> position_of s tp = Some (position st).
Proof. intros H. unfold position_of. by rewrite H. Qed.

Lemma get_position_lookup s tp st :
  assignment s !! tp = Some st -> get_position s tp = Ok (position st).
Proof. intros H. unfold get_position. by rewrite H. Qed.

(** The loop of [getall] on an assigned partition: it never raises, empties
    the deque, and what it appends is delivered record by record, at
    consecutive offsets from the position on. *)
Lemma getall_loop_spec tp msgs : forall s acc st,
  assignment s !! tp = Some st ->
  exists l s',
    FetchResult.getall_loop s tp acc msgs = Ok (acc ++ l, s', [])
    /\ delivers tp s l s'
    /\ offset <$> l = seqZ (position st) (Z.of_nat (length l))
    /\ position_of s' tp = Some (position st + Z.of_nat (length l))
    /\ l `sublist_of` msgs.
Proof.
  induction msgs as [|r rest IH]; intros s acc st Hst; cbn.
  - exists [], s. rewrite app_nil_r. repeat split; try constructor.
    rewrite (position_of_lookup _ _ _ Hst). f_equal. cbn. lia.
  - rewrite (get_position_lookup _ _ _ Hst). cbn.
    destruct (Z.eqb_spec (offset r) (position st)) as [Heq|Hne].
    + destruct (incr_position_spec _ _ _ Hst) as (s1 & Hinc & Hst1 & _).
      rewrite Hinc. cbn.
      destruct (IH s1 (acc ++ [r]) _ Hst1) as (l & s' & Hrun & Hdel & Hoff & Hpos & Hsub).
      exists (r :: l), s'. rewrite Hrun, <- app_assoc. cbn in *.
      repeat split.
      * econstructor; eauto.
        -- rewrite (position_of_lookup _ _ _ Hst). by rewrite Heq.
        -- rewrite (position_of_lookup _ _ _ Hst1). cbn. by rewrite Heq.
      * rewrite Hoff, Heq.
        replace (Z.of_nat (S (length l))) with (Z.succ (Z.of_nat (length l))) by lia.
        rewrite (seqZ_cons (position st)) by lia. f_equal. f_equal; lia.
      * rewrite Hpos. f_equal. lia.
      * by apply sublist_skip.
    + destruct (IH s acc _ Hst) as (l & s' & Hrun & Hdel & Hoff & Hpos & Hsub).
      exists l, s'. repeat split; try done. by apply sublist_cons.
Qed.

(** The loop of [getone] on an assigned partition: either no record sits at
    the position and the deque is emptied, or the first record that does is
    returned after one increment, everything before it being dropped. *)
Lemma getone_loop_spec tp msgs : forall s st,
  assignment s !! tp = Some st ->
  (Forall (fun r => offset r <> position st) msgs
   /\ FetchResult.getone_loop s tp msgs = Ok (None, s, []))
  \/ (exists pre r rest s1,
        msgs = pre ++ r :: rest
        /\ Forall (fun r => offset r <> position st) pre
        /\ offset r = position st
        /\ incr_position s tp = Ok s1
        /\ FetchResult.getone_loop s tp msgs = Ok (Some r, s1, rest)).
Proof.
  induction msgs as [|m rest IH]; intros s st Hst; cbn.
  - left. by split.
  - rewrite (get_position_lookup _ _ _ Hst). cbn.
    destruct (Z.eqb_spec (offset m) (position st)) as [Heq|Hne].
    + right. destruct (incr_position_spec _ _ _ Hst) as (s1 & Hinc & _).
      exists [], m, rest, s1. rewrite Hinc. by repeat split.
    + destruct (IH s st Hst) as [[Hall Hrun]|(pre & r & rest' & s1 & -> & Hall & Hr & Hinc & Hrun)].
      * left. split; [by constructor | done].
      * right. exists (m :: pre), r, rest', s1. repeat split; try done.
        by constructor.
Qed.

(** What [_check_assignment] decides for both operations. *)
Lemma check_assignment_cases s tp msgs :
  (FetchResult.getone s tp msgs = Ok (None, s, [])
   /\ FetchResult.getall s tp msgs = Ok ([], s, [])
   /\ (needs_partition_assignment s = true \/ is_fetchable s tp = false))
  \/ (exists st,
        assignment s !! tp = Some st
        /\ needs_partition_assignment s = false
        /\ is_fetchable s tp = true
        /\ FetchResult.getone s tp msgs = FetchResult.getone_loop s tp msgs
        /\ FetchResult.getall s tp msgs = FetchResult.getall_loop s tp [] msgs).
Proof.
  unfold FetchResult.getone, FetchResult.getall, FetchResult._check_assignment.
  destruct (needs_partition_assignment s) eqn:Hn; cbn; [left; auto|].
  destruct (is_fetchable s tp) eqn:Hf; cbn; [|left; auto].
  right. unfold is_fetchable in Hf.
  destruct (assignment s !! tp) as [st|] eqn:Hst; [|done].
  exists st. auto.
Qed.

(** Neither operation raises. *)
Lemma getone_total s tp msgs : exists x, FetchResult.getone s tp msgs = Ok x.
Proof.
  destruct (check_assignment_cases s tp msgs) as [(H & _)|(st & Hst & _ & _ & -> & _)]; [eauto|].
  destruct (getone_loop_spec tp msgs s st Hst) as [[_ ->]|(? & ? & ? & ? & _ & _ & _ & _ & ->)]; eauto.
Qed.

Lemma getall_total s tp msgs : exists x, FetchResult.getall s tp msgs = Ok x.
Proof.
  destruct (check_assignment_cases s tp msgs) as [(_ & H & _)|(st & Hst & _ & _ & _ & ->)]; [eauto|].
  destruct (getall_loop_spec tp msgs s [] st Hst) as (? & ? & -> & _); eauto.
Qed.

(** What [getall] does, fetchable or not. *)
Lemma getall_spec s tp msgs p :
  position_of s tp = Some p ->
  exists l s',
    FetchResult.getall s tp msgs = Ok (l, s', [])
    /\ delivers tp s l s'
    /\ offset <$> l = seqZ p (Z.of_nat (length l))
    /\ position_of s' tp = Some (p + Z.of_nat (length l))
    /\ l `sublist_of` msgs.
Proof.
  intros Hp.
  destruct (check_assignment_cases s tp msgs) as [(_ & H & _)|(st & Hst & _ & _ & _ & ->)].
  - exists [], s. rewrite H, Hp. repeat split; try constructor.
    + f_equal. cbn. lia.
    + apply sublist_nil_l.
  - rewrite (position_of_lookup _ _ _ Hst) in Hp. injection Hp as <-.
    apply (getall_loop_spec tp msgs s [] st Hst).
Qed.

Lemma Forall_sublist {A} (P : A -> Prop) (l k : list A) :
  l `sublist_of` k -> Forall P k -> Forall P l.
Proof.
  intros Hsub. rewrite !Forall_forall. intros Hk x Hx.
  apply Hk. by apply (sublist_subseteq _ _ Hsub).
Qed.

Lemma delivers_last tp s l s' r :
  delivers tp s l s' -> last l = Some r ->
  position_of s' tp = Some (offset r + 1).
Proof.
  induction 1 as [|s s1 s' r' l Hp Hinc Hp1 Hd IH]; [done|].
  destruct l as [|r'' l'].
  - cbn. intros [= ->]. inversion Hd; subst. done.
  - intros Hl. apply IH. by rewrite last_cons_cons in Hl.
Qed.

(** C1. Whenever [getone] or [getall] hands out a record [r] of a partition
    buffer, the position of [r]'s topic partition is [offset r + 1] right
    after [r] is handed out, and the position is written exactly once per
    record handed out: [getone] returning [r] is one [position += 1] from
    [offset r], [getone] returning nothing leaves the subscription state as
    it was, and [getall] returning [l] is one such increment per record of
    [l], in order, ending at the last offset plus one. *)
Theorem position_advanced_once_per_record s tp msgs
    (Hbuf : Forall (fun r => record_tp r = tp) msgs) :
  (forall r s' rest,
      FetchResult.getone s tp msgs = Ok (Some r, s', rest) ->
      position_of s (record_tp r) = Some (offset r)
      /\ incr_position s (record_tp r) = Ok s'
      /\ position_of s' (record_tp r) = Some (offset r + 1))
  /\ (forall s' rest,
        FetchResult.getone s tp msgs = Ok (None, s', rest) -> s' = s)
  /\ (forall l s' rest,
        FetchResult.getall s tp msgs = Ok (l, s', rest) ->
        delivers tp s l s'
        /\ Forall (fun r => record_tp r = tp) l
        /\ forall r, last l = Some r ->
             position_of s' (record_tp r) = Some (offset r + 1)).
Proof.
  split; [|split].
  - intros r s' rest Hrun.
    destruct (check_assignment_cases s tp msgs) as [(H & _)|(st & Hst & _ & _ & Hone & _)];
      [congruence|].
    rewrite Hone in Hrun.
    destruct (getone_loop_spec tp msgs s st Hst)
      as [[_ H]|(pre & r' & rest' & s1 & -> & _ & Hr & Hinc & H)]; [congruence|].
    rewrite H in Hrun. injection Hrun as <- <- <-.
    assert (record_tp r' = tp) as ->.
    { rewrite Forall_app, Forall_cons in Hbuf. tauto. }
    destruct (incr_position_spec _ _ _ Hst) as (s2 & Hinc2 & Hst2 & _).
    assert (s2 = s1) as -> by congruence.
    rewrite (position_of_lookup _ _ _ Hst), (position_of_lookup _ _ _ Hst2), Hr.
    done.
  - intros s' rest Hrun.
    destruct (check_assignment_cases s tp msgs) as [(H & _)|(st & Hst & _ & _ & Hone & _)];
      [congruence|].
    rewrite Hone in Hrun.
    destruct (getone_loop_spec tp msgs s st Hst)
      as [[_ H]|(pre & r' & rest' & s1 & -> & _ & Hr & Hinc & H)]; congruence.
  - intros l s' rest Hrun.
    destruct (check_assignment_cases s tp msgs) as [(_ & H & _)|(st & Hst & _ & _ & _ & Hall)].
    + rewrite H in Hrun. injection Hrun as <- <- <-.
      repeat split; [constructor | constructor | done].
    + rewrite Hall in Hrun.
      destruct (getall_loop_spec tp msgs s [] st Hst) as (l' & s'' & H & Hd & _ & _ & Hsub).
      rewrite H in Hrun. injection Hrun as <- <- <-.
      assert (Forall (fun r => record_tp r = tp) l') as Hl
        by (eapply Forall_sublist; eauto).
      repeat split; try done.
      intros r Hlast.
      assert (record_tp r = tp) as ->.
      { rewrite Forall_forall in Hl. apply Hl. by apply last_Some_elem_of. }
      by eapply delivers_last.
Qed.

Lemma position_advanced_once_per_record_witness :
  position_of (subs_at 11) (record_tp (rec_at 10)) = Some (offset (rec_at 10) + 1)
  /\ position_of (subs_at 12) (record_tp (rec_at 11)) = Some (offset (rec_at 11) + 1).
Proof.
  assert (Forall (fun r => record_tp r = tp0) (rec_at <$> [8; 9; 10; 11])) as Hbuf
    by (repeat constructor).
  destruct (position_advanced_once_per_record (subs_at 10) tp0 _ Hbuf)
    as (Hone & _ & Hall).
  split.
  - apply (Hone (rec_at 10) (subs_at 11) [rec_at 11]). vm_compute. reflexivity.
  - apply (Hall (rec_at <$> [10; 11]) (subs_at 12) []);
      [vm_compute; reflexivity | reflexivity].
Defined.

(** Records that are not at the position are popped and forgotten. *)
Lemma getone_loop_skip tp pre rest s st :
  assignment s !! tp = Some st ->
  Forall (fun r => offset r <> position st) pre ->
  FetchResult.getone_loop s tp (pre ++ rest) = FetchResult.getone_loop s tp rest.
Proof.
  intros Hst. induction 1 as [|r pre Hr _ IH]; [done|]. cbn.
  rewrite (get_position_lookup _ _ _ Hst). cbn.
  by destruct (Z.eqb_spec (offset r) (position st)).
Qed.

Lemma getall_loop_skip tp pre rest s acc st :
  assignment s !! tp = Some st ->
  Forall (fun r => offset r <> position st) pre ->
  FetchResult.getall_loop s tp acc (pre ++ rest)
  = FetchResult.getall_loop s tp acc rest.
Proof.
  intros Hst. induction 1 as [|r pre Hr _ IH]; [done|]. cbn.
  rewrite (get_position_lookup _ _ _ Hst). cbn.
  by destruct (Z.eqb_spec (offset r) (position st)).
Qed.

Lemma getone_skip tp pre rest s p :
  position_of s tp = Some p ->
  Forall (fun r => offset r <> p) pre ->
  FetchResult.getone s tp (pre ++ rest) = FetchResult.getone s tp rest.
Proof.
  intros Hp Hpre. unfold FetchResult.getone, FetchResult._check_assignment.
  destruct (needs_partition_assignment s || negb (is_fetchable s tp)); [done|].
  cbn. unfold position_of in Hp.
  destruct (assignment s !! tp) as [st|] eqn:Hst; [|done].
  injection Hp as <-. by eapply getone_loop_skip.
Qed.

Lemma getall_skip tp pre rest s p :
  position_of s tp = Some p ->
  Forall (fun r => offset r <> p) pre ->
  FetchResult.getall s tp (pre ++ rest) = FetchResult.getall s tp rest.
Proof.
  intros Hp Hpre. unfold FetchResult.getall, FetchResult._check_assignment.
  destruct (needs_partition_assignment s || negb (is_fetchable s tp)); [done|].
  cbn. unfold position_of in Hp.
  destruct (assignment s !! tp) as [st|] eqn:Hst; [|done].
  injection Hp as <-. by eapply getall_loop_skip.
Qed.

(** C2. Let the leading records [pre] of a buffer have offsets below the
    position [p].  Then [getone] and [getall] behave as if [pre] were not
    there (it is dropped and not returned); what [getall] returns has the
    offsets [p, p+1, ...] without repetition, none below [p], and leaves the
    position at [p] plus their number, so never below [p]; [getone] returns
    the record at [p] and leaves [p + 1], or returns nothing and leaves the
    state alone.  A buffer with offsets 8, 9, 10, 11 at position 10 yields
    the records at 10 and 11 and position 12. *)
Theorem stale_leading_records_dropped s tp p pre rest
    (Hpos : position_of s tp = Some p)
    (Hpre : Forall (fun r => offset r < p) pre) :
  FetchResult.getone s tp (pre ++ rest) = FetchResult.getone s tp rest
  /\ FetchResult.getall s tp (pre ++ rest) = FetchResult.getall s tp rest
  /\ (exists l s',
        FetchResult.getall s tp (pre ++ rest) = Ok (l, s', [])
        /\ l `sublist_of` rest
        /\ Forall (fun r => p <= offset r) l
        /\ offset <$> l = seqZ p (Z.of_nat (length l))
        /\ NoDup (offset <$> l)
        /\ position_of s' tp = Some (p + Z.of_nat (length l)))
  /\ (exists o s' b,
        FetchResult.getone s tp (pre ++ rest) = Ok (o, s', b)
        /\ match o with
           | Some r => offset r = p /\ position_of s' tp = Some (p + 1)
           | None => s' = s
           end)
  /\ FetchResult.getall (subs_at 10) tp0 (rec_at <$> [8; 9; 10; 11])
     = Ok (rec_at <$> [10; 11], subs_at 12, []).
Proof.
  assert (Forall (fun r => offset r <> p) pre) as Hne.
  { eapply Forall_impl; [exact Hpre|]. cbn. intros; lia. }
  split; [by eapply getone_skip|].
  split; [by eapply getall_skip|].
  split; [|split].
  - rewrite (getall_skip _ _ _ _ _ Hpos Hne).
    destruct (getall_spec s tp rest p Hpos) as (l & s' & Hrun & _ & Hoff & Hp' & Hsub).
    exists l, s'. repeat split; try done.
    + apply Forall_fmap with (f := offset) (P := fun o => p <= o).
      rewrite Hoff. apply Forall_forall. intros o Ho.
      apply elem_of_seqZ in Ho. lia.
    + rewrite Hoff. apply NoDup_seqZ.
  - rewrite (getone_skip _ _ _ _ _ Hpos Hne).
    destruct (check_assignment_cases s tp rest) as [(H & _)|(st & Hst & _ & _ & Hone & _)].
    + exists None, s, []. by rewrite H.
    + rewrite Hone.
      rewrite (position_of_lookup _ _ _ Hst) in Hpos. injection Hpos as <-.
      destruct (getone_loop_spec tp rest s st Hst)
        as [[_ H]|(pre' & r & rest' & s1 & -> & _ & Hr & Hinc & H)].
      * exists None, s, []. by rewrite H.
      * exists (Some r), s1, rest'. rewrite H. repeat split; try done.
        destruct (incr_position_spec _ _ _ Hst) as (s2 & Hinc2 & Hst2 & _).
        assert (s2 = s1) as -> by congruence.
        by rewrite (position_of_lookup _ _ _ Hst2).
  - vm_compute. reflexivity.
Qed.

Lemma stale_leading_records_dropped_witness :
  FetchResult.getone (subs_at 10) tp0 ((rec_at <$> [8; 9]) ++ (rec_at <$> [10; 11]))
  = FetchResult.getone (subs_at 10) tp0 (rec_at <$> [10; 11]).
Proof.
  apply (stale_leading_records_dropped (subs_at 10) tp0 10
           (rec_at <$> [8; 9]) (rec_at <$> [10; 11])).
  - reflexivity.
  - repeat constructor.
Defined.

(** A run of records at consecutive offsets from the position on is handed
    out whole. *)
Lemma getall_loop_run tp pre : forall s acc st rest,
  assignment s !! tp = Some st ->
  offset <$> pre = seqZ (position st) (Z.of_nat (length pre)) ->
  exists s1 st1,
    assignment s1 !! tp = Some st1
    /\ position st1 = position st + Z.of_nat (length pre)
    /\ FetchResult.getall_loop s tp acc (pre ++ rest)
       = FetchResult.getall_loop s1 tp (acc ++ pre) rest.
Proof.
  induction pre as [|r pre IH]; intros s acc st rest Hst Hoff.
  - exists s, st. rewrite app_nil_r. cbn. repeat split; [done | lia].
  - cbn [length] in Hoff.
    replace (Z.of_nat (S (length pre))) with (Z.succ (Z.of_nat (length pre))) in Hoff by lia.
    rewrite seqZ_cons in Hoff by lia. cbn in Hoff. injection Hoff as Hr Hoff.
    replace (Z.pred (Z.succ (Z.of_nat (length pre)))) with (Z.of_nat (length pre)) in Hoff by lia.
    cbn. rewrite (get_position_lookup _ _ _ Hst). cbn.
    rewrite Hr, Z.eqb_refl.
    destruct (incr_position_spec _ _ _ Hst) as (s1 & Hinc & Hst1 & _).
    rewrite Hinc. cbn.
    destruct (IH s1 (acc ++ [r]) _ rest Hst1) as (s2 & st2 & Hst2 & Hp2 & Hrun).
    { cbn. by rewrite Z.add_1_r. }
    exists s2, st2. rewrite Hrun, <- app_assoc. cbn in *.
    repeat split; [done | lia].
Qed.

Lemma above_position_of_sorted p (r : ConsumerRecord) rest :
  p < offset r ->
  StronglySorted Z.lt (offset <$> (r :: rest)) ->
  Forall (fun r => offset r <> p) (r :: rest).
Proof.
  intros Hr Hs. cbn in Hs. apply StronglySorted_inv in Hs as [_ Hall].
  constructor; [lia|].
  rewrite Forall_fmap in Hall. eapply Forall_impl; [exact Hall|].
  intros x Hx. cbn in Hx. lia.
Qed.

(** C10. A popped record whose offset is not the position, below or above
    it, is removed, not returned, and the position stays: the operations go
    on as if it had not been in the buffer.  So when the head of an
    ascending buffer lies above the position, [getone] and [getall] return
    nothing, leave the subscription state as it was and empty the buffer;
    and when [getall] meets such a gap after a run [pre] of consecutive
    records, it returns [pre] alone and the records from the gap on are
    gone. *)
Theorem records_off_position_discarded s tp p
    (Hpos : position_of s tp = Some p) :
  (forall r rest,
      offset r <> p ->
      FetchResult.getone s tp (r :: rest) = FetchResult.getone s tp rest
      /\ FetchResult.getall s tp (r :: rest) = FetchResult.getall s tp rest)
  /\ (forall r rest,
        p < offset r ->
        StronglySorted Z.lt (offset <$> (r :: rest)) ->
        FetchResult.getone s tp (r :: rest) = Ok (None, s, [])
        /\ FetchResult.getall s tp (r :: rest) = Ok ([], s, []))
  /\ (forall pre r rest,
        needs_partition_assignment s = false ->
        is_fetchable s tp = true ->
        offset <$> pre = seqZ p (Z.of_nat (length pre)) ->
        p + Z.of_nat (length pre) < offset r ->
        StronglySorted Z.lt (offset <$> (r :: rest)) ->
        exists s',
          FetchResult.getall s tp (pre ++ r :: rest) = Ok (pre, s', [])
          /\ position_of s' tp = Some (p + Z.of_nat (length pre))).
Proof.
  split; [|split].
  - intros r rest Hr. split.
    + apply (getone_skip tp [r] rest s p Hpos). by repeat constructor.
    + apply (getall_skip tp [r] rest s p Hpos). by repeat constructor.
  - intros r rest Hr Hs.
    pose proof (above_position_of_sorted p r rest Hr Hs) as Hall.
    pose proof (getone_skip tp (r :: rest) [] s p Hpos Hall) as H1.
    pose proof (getall_skip tp (r :: rest) [] s p Hpos Hall) as H2.
    rewrite app_nil_r in H1, H2. rewrite H1, H2.
    destruct (check_assignment_cases s tp []) as [(Ha & Hb & _)|(st & _ & _ & _ & Ha & Hb)];
      rewrite Ha, Hb; done.
  - intros pre r rest Hn Hf Hoff Hr Hs.
    unfold FetchResult.getall, FetchResult._check_assignment.
    rewrite Hn, Hf. cbn.
    unfold position_of in Hpos.
    destruct (assignment s !! tp) as [st|] eqn:Hst; [|done].
    injection Hpos as <-.
    destruct (getall_loop_run tp pre s [] st (r :: rest) Hst Hoff)
      as (s1 & st1 & Hst1 & Hp1 & Hrun).
    rewrite Hrun. cbn [app].
    assert (Forall (fun x => offset x <> position st1) (r :: rest)) as Hall.
    { apply above_position_of_sorted; [lia | done]. }
    pose proof (getall_loop_skip tp (r :: rest) [] s1 pre st1 Hst1 Hall) as H.
    rewrite app_nil_r in H. rewrite H. cbn.
    exists s1. split; [done|].
    rewrite (position_of_lookup _ _ _ Hst1). by rewrite Hp1.
Qed.

Lemma records_off_position_discarded_witness :
  FetchResult.getone (subs_at 10) tp0 (rec_at <$> [12; 13])
  = Ok (None, subs_at 10, [])
  /\ FetchResult.getall (subs_at 10) tp0 (rec_at <$> [12; 13])
     = Ok ([], subs_at 10, []).
Proof.
  apply (records_off_position_discarded (subs_at 10) tp0 10).
  - reflexivity.
  - reflexivity.
  - cbn. repeat constructor.
Defined.

Example getall_gap :
  FetchResult.getall (subs_at 10) tp0 (rec_at <$> [10; 12; 13])
  = Ok ([rec_at 10], subs_at 11, []).
Proof. vm_compute. reflexivity. Qed.

(** ** Fetch response processor *)

Example happy_path :
  _proc_fetch_request 1 (request_at 5)
    (Ok [("T", [(0, 0, 10,
                 [(5, 10, PlainMessage true "k" "a");
                  (6, 10, PlainMessage true "k" "b");
                  (7, 10, PlainMessage true "k" "c")])])])
    (fetcher_with (subs_at 5) [] {[1]})
  = (Ok true,
     fetcher_with
       {| needs_partition_assignment := false;
          assignment := {[ tp0 := with_highwater (state_at 5) (Some 10) ]};
          default_offset_reset_strategy := OffsetResetStrategy.LATEST |}
       [(tp0, Buffer [ {| r_topic := "T"; r_partition := 0; offset := 5;
                          key := "k"; value := "a" |};
                       {| r_topic := "T"; r_partition := 0; offset := 6;
                          key := "k"; value := "b" |};
                       {| r_topic := "T"; r_partition := 0; offset := 7;
                          key := "k"; value := "c" |} ])]
       ∅).
Proof. vm_compute. reflexivity. Qed.

Lemma get_set_eq {V} tp (v : V) d :
  OrderedDict.get tp (OrderedDict.set tp v d) = Some v.
Proof.
  induction d as [|[k w] d IH]; cbn.
  - by rewrite decide_True.
  - destruct (decide (k = tp)) as [->|Hne]; cbn.
    + by rewrite decide_True.
    + by rewrite decide_False.
Qed.

Lemma get_set_ne {V} tp tp' (v : V) d :
  tp <> tp' ->
  OrderedDict.get tp' (OrderedDict.set tp v d) = OrderedDict.get tp' d.
Proof.
  intros Hne. induction d as [|[k w] d IH]; cbn.
  - by rewrite decide_False.
  - repeat (case_decide; cbn); congruence.
Qed.

Lemma get_None_keys {V} tp (d : OrderedDict.t V) :
  OrderedDict.get tp d = None <-> tp ∉ OrderedDict.keys d.
Proof.
  unfold OrderedDict.keys. induction d as [|[k v] d IH]; cbn.
  - split; [intros _; apply not_elem_of_nil | done].
  - rewrite not_elem_of_cons. case_decide as Hk.
    + split; [done | intros [? _]; congruence].
    + rewrite IH. split; [intros; split; congruence | tauto].
Qed.

Lemma not_contains_keys {V} tp (d : OrderedDict.t V) :
  OrderedDict.contains tp d = false -> tp ∉ OrderedDict.keys d.
Proof.
  unfold OrderedDict.contains. intros H%bool_decide_eq_false.
  apply get_None_keys. destruct (OrderedDict.get tp d); [|done].
  destruct H. eauto.
Qed.

Lemma is_fetchable_assigned s tp :
  is_fetchable s tp = true ->
  exists st, assignment s !! tp = Some st
             /\ paused st = false /\ has_valid_position st = true.
Proof.
  unfold is_fetchable. destruct (assignment s !! tp) as [st|]; [|done].
  intros [Hp Hv]%andb_prop. exists st. by destruct (paused st).
Qed.

(** C9. A partition entry of the response whose topic partition is not
    fetchable when the response is processed changes nothing: the fetcher
    (record map, subscription positions and high-watermarks, metadata
    refreshes) and the has-new-data flag are as before, and nothing is
    raised.  A response all of whose entries are for such partitions leaves
    the fetcher as it was but for the node leaving the in-flight set, and
    reports no new data. *)
Theorem unfetchable_entry_dropped :
  (forall fetch_offsets t p error_code hw messages w f,
      is_fetchable (_subscriptions f) (TP t p) = false ->
      proc_partition fetch_offsets t (p, error_code, hw, messages) w f = (Ok w, f))
  /\ (forall node_id request (response : FetchResponse) f,
        node_id ∈ _in_flight f ->
        (forall t partitions p error_code hw messages,
            (t, partitions) ∈ response ->
            (p, error_code, hw, messages) ∈ partitions ->
            is_fetchable (_subscriptions f) (TP t p) = false) ->
        _proc_fetch_request node_id request (Ok response) f
        = (Ok false, with_in_flight f (_in_flight f ∖ {[node_id]}))).
Proof.
  assert (forall fetch_offsets t p error_code hw messages w f,
      is_fetchable (_subscriptions f) (TP t p) = false ->
      proc_partition fetch_offsets t (p, error_code, hw, messages) w f = (Ok w, f))
    as Hone.
  { intros. unfold proc_partition. by rewrite H. }
  split; [exact Hone|].
  intros node_id request response f Hin Hall.
  unfold _proc_fetch_request. rewrite bool_decide_eq_true_2 by done.
  set (f1 := with_in_flight f _).
  assert (forall t partitions p error_code hw messages,
            (t, partitions) ∈ response ->
            (p, error_code, hw, messages) ∈ partitions ->
            is_fetchable (_subscriptions f1) (TP t p) = false) as Hall1 by exact Hall.
  clearbody f1. clear Hall Hin.
  generalize (fetch_offsets_of request) as fo. intros fo.
  induction response as [|[t partitions] rest IH]; [done|]. cbn.
  assert (proc_partitions fo t partitions false f1 = (Ok false, f1)) as ->.
  { assert (forall e, e ∈ partitions -> (t, partitions) ∈ (t, partitions) :: rest) as Hin
      by (intros; apply list_elem_of_here).
    assert (forall p error_code hw messages,
              (p, error_code, hw, messages) ∈ partitions ->
              is_fetchable (_subscriptions f1) (TP t p) = false) as Hp.
    { intros. eapply Hall1; [apply list_elem_of_here | done]. }
    clear Hin Hall1 IH.
    induction partitions as [|[[[p c] hw] ms] ps IHp]; [done|]. cbn [proc_partitions].
    rewrite Hone by (eapply Hp; apply list_elem_of_here).
    apply IHp. intros. eapply Hp. by apply list_elem_of_further. }
  apply IH. intros. eapply Hall1; [by apply list_elem_of_further | done].
Qed.

Lemma unfetchable_entry_dropped_witness :
  proc_partition (fetch_offsets_of (request_at 3)) "T"
    (0, 0, 10, [(3, 10, PlainMessage true "k" "v")]) false
    (fetcher_with (paused_at 3) [] ∅)
  = (Ok false, fetcher_with (paused_at 3) [] ∅).
Proof.
  apply (proj1 unfetchable_entry_dropped). reflexivity.
Defined.

Lemma incr_position_frame s tp s1 tp' :
  incr_position s tp = Ok s1 -> tp' <> tp ->
  assignment s1 !! tp' = assignment s !! tp'.
Proof.
  unfold incr_position. destruct (assignment s !! tp); [|done].
  intros [= <-] Hne. cbn. by rewrite lookup_insert_ne.
Qed.

(** C4, as the code has it.  Take an entry with error code NoError whose
    messages are a single trailing [PartialMessage] ([pop_partial] leaves
    none), for a topic partition that is fetchable when the response is
    processed and that the request asked for (at [fetch_offset]).  The
    processor then stores the high-watermark, puts a [RecordTooLargeError]
    for the partition into the record map, adds exactly 1 to its position,
    leaving the positions of the others alone, and reports new data. *)
Theorem partial_only_entry_record_too_large
    fetch_offsets t p error_code hw messages partial w f fetch_offset
    (Hfetchable : is_fetchable (_subscriptions f) (TP t p) = true)
    (Hcode : for_code error_code = NoError)
    (Hpartial : pop_partial messages = (Some partial, []))
    (Hrequested : fetch_offsets !! TP t p = Some fetch_offset) :
  exists f' pos,
    proc_partition fetch_offsets t (p, error_code, hw, messages) w f = (Ok true, f')
    /\ OrderedDict.get (TP t p) (_records f')
       = Some (Err (RecordTooLargeError (TP t p) fetch_offset
                      (_max_partition_fetch_bytes f)))
    /\ (forall tp', tp' <> TP t p ->
          OrderedDict.get tp' (_records f') = OrderedDict.get tp' (_records f))
    /\ position_of (_subscriptions f) (TP t p) = Some pos
    /\ position_of (_subscriptions f') (TP t p) = Some (pos + 1)
    /\ (forall tp', tp' <> TP t p ->
          position_of (_subscriptions f') tp' = position_of (_subscriptions f) tp').
Proof.
  destruct (is_fetchable_assigned _ _ Hfetchable) as (st & Hst & _ & _).
  unfold proc_partition. rewrite Hfetchable, Hcode. cbn [negb].
  unfold set_highwater. rewrite Hst. cbn [_subscriptions with_subscriptions].
  rewrite Hrequested, Hpartial.
  set (s1 := with_assignment _ _).
  assert (assignment s1 !! TP t p = Some (with_highwater st (Some hw))) as Hst1.
  { subst s1. cbn. by rewrite lookup_insert_eq. }
  destruct (incr_position_spec _ _ _ Hst1) as (s2 & Hinc & Hst2 & _).
  cbn [_subscriptions with_records with_subscriptions _records
       _max_partition_fetch_bytes].
  rewrite Hinc.
  eexists _, (position st). split; [reflexivity|].
  cbn [_subscriptions with_records with_subscriptions _records].
  split; [apply get_set_eq|].
  split; [intros tp' Hne; by apply get_set_ne|].
  split; [by apply position_of_lookup|].
  split; [by rewrite (position_of_lookup _ _ _ Hst2)|].
  intros tp' Hne. unfold position_of.
  rewrite (incr_position_frame _ _ _ _ Hinc Hne). subst s1. cbn.
  by rewrite lookup_insert_ne.
Qed.

Lemma partial_only_entry_record_too_large_witness :
  exists f' pos,
    proc_partition (fetch_offsets_of (request_at 3)) "T"
      (0, 0, 10, [(3, 2000000, PartialMessage)]) false
      (fetcher_with (subs_at 3) [] ∅) = (Ok true, f')
    /\ OrderedDict.get tp0 (_records f')
       = Some (Err (RecordTooLargeError tp0 3 1048576))
    /\ (forall tp', tp' <> tp0 ->
          OrderedDict.get tp' (_records f') = OrderedDict.get tp' [])
    /\ position_of (subs_at 3) tp0 = Some pos
    /\ position_of (_subscriptions f') tp0 = Some (pos + 1)
    /\ (forall tp', tp' <> tp0 ->
          position_of (_subscriptions f') tp' = position_of (subs_at 3) tp').
Proof.
  apply (partial_only_entry_record_too_large
           (fetch_offsets_of (request_at 3)) "T" 0 0 10
           [(3, 2000000, PartialMessage)] (3, 2000000, PartialMessage)
           false (fetcher_with (subs_at 3) [] ∅) 3).
  - reflexivity.
  - reflexivity.
  - reflexivity.
  - vm_compute. reflexivity.
Defined.

(** C4 as stated fails for a partition that was paused while the request
    was in flight: NoError, nothing but a partial message, and yet no
    sentinel, no new data and the position where it was. *)
Lemma partial_only_entry_unfetchable_counterexample :
  let f := fetcher_with (paused_at 3) [] ∅ in
  let messages := [(3, 2000000, PartialMessage)] in
  let out := proc_partition (fetch_offsets_of (request_at 3)) "T"
               (0, 0, 10, messages) false f in
  for_code 0 = NoError
  /\ pop_partial messages = (Some (3, 2000000, PartialMessage), [])
  /\ out.1 = Ok false
  /\ OrderedDict.get tp0 (_records out.2) = None
  /\ position_of (_subscriptions f) tp0 = Some 3
  /\ position_of (_subscriptions out.2) tp0 = Some 3.
Proof. vm_compute. repeat split; reflexivity. Qed.

Example out_of_range_without_policy :
  proc_partition (fetch_offsets_of (request_at 3)) "T" (0, 1, -1, []) false
    (fetcher_with (awaiting_reset_with OffsetResetStrategy.NONE) [] ∅)
  = (Ok false, fetcher_with (awaiting_reset_with OffsetResetStrategy.NONE) [] ∅)
  /\ (let s := {| needs_partition_assignment := false;
                  assignment := {[ tp0 := state_at 3 ]};
                  default_offset_reset_strategy := OffsetResetStrategy.NONE |} in
      proc_partition (fetch_offsets_of (request_at 3)) "T" (0, 1, -1, []) false
        (fetcher_with s [] ∅)
      = (Ok true, fetcher_with s [(tp0, Err (OffsetOutOfRangeError tp0 3))] ∅)).
Proof. vm_compute. split; reflexivity. Qed.

Example oversized_message :
  _proc_fetch_request 1 (request_at 3)
    (Ok [("T", [(0, 0, 10, [(3, 2000000, PartialMessage)])])])
    (fetcher_with (subs_at 3) [] {[1]})
  = (Ok true,
     fetcher_with
       {| needs_partition_assignment := false;
          assignment := {[ tp0 := with_highwater (state_at 4) (Some 10) ]};
          default_offset_reset_strategy := OffsetResetStrategy.LATEST |}
       [(tp0, Err (RecordTooLargeError tp0 3 1048576))]
       ∅).
Proof. vm_compute. reflexivity. Qed.

(** C5. Take an entry with error code OffsetOutOfRange for a fetchable
    topic partition that the request asked for at [fetch_offset].  With a
    default reset policy the processor calls [need_offset_reset] for the
    partition, which succeeds, and touches neither the record map nor the
    has-new-data flag; without one it puts [OffsetOutOfRangeError] with
    [{tp: fetch_offset}] into the record map, leaves the subscription state
    alone and reports new data. *)
Theorem offset_out_of_range_entry
    fetch_offsets t p error_code hw messages w f fetch_offset
    (Hfetchable : is_fetchable (_subscriptions f) (TP t p) = true)
    (Hcode : for_code error_code = OffsetOutOfRange)
    (Hrequested : fetch_offsets !! TP t p = Some fetch_offset) :
  (has_default_offset_reset_policy (_subscriptions f) = true ->
   exists s1,
     need_offset_reset (_subscriptions f) (TP t p) = Ok s1
     /\ proc_partition fetch_offsets t (p, error_code, hw, messages) w f
        = (Ok w, with_subscriptions f s1)
     /\ _records (with_subscriptions f s1) = _records f)
  /\ (has_default_offset_reset_policy (_subscriptions f) = false ->
      exists f',
        proc_partition fetch_offsets t (p, error_code, hw, messages) w f
        = (Ok true, f')
        /\ _records f'
           = OrderedDict.set (TP t p)
               (Err (OffsetOutOfRangeError (TP t p) fetch_offset)) (_records f)
        /\ OrderedDict.get (TP t p) (_records f')
           = Some (Err (OffsetOutOfRangeError (TP t p) fetch_offset))
        /\ _subscriptions f' = _subscriptions f).
Proof.
  destruct (is_fetchable_assigned _ _ Hfetchable) as (st & Hst & _ & _).
  split; intros Hpolicy.
  - unfold proc_partition, need_offset_reset.
    rewrite Hfetchable, Hcode, Hrequested, Hpolicy. cbn [negb].
    unfold need_offset_reset. rewrite Hst. eauto.
  - unfold proc_partition.
    rewrite Hfetchable, Hcode, Hrequested, Hpolicy. cbn [negb].
    eexists. split; [reflexivity|]. cbn. split; [done|].
    split; [apply get_set_eq | done].
Qed.

Lemma offset_out_of_range_entry_witness :
  exists s1,
    need_offset_reset (subs_at 3) tp0 = Ok s1
    /\ proc_partition (fetch_offsets_of (request_at 3)) "T" (0, 1, -1, []) false
         (fetcher_with (subs_at 3) [] ∅)
       = (Ok false, with_subscriptions (fetcher_with (subs_at 3) [] ∅) s1)
    /\ _records (with_subscriptions (fetcher_with (subs_at 3) [] ∅) s1) = [].
Proof.
  apply (offset_out_of_range_entry (fetch_offsets_of (request_at 3)) "T" 0 1 (-1) []
           false (fetcher_with (subs_at 3) [] ∅) 3).
  - reflexivity.
  - reflexivity.
  - vm_compute. reflexivity.
  - reflexivity.
Defined.

(** ** Fetch request planner *)

Lemma elem_of_append_topic t info d t' infos :
  (t', infos) ∈ append_topic t info d ->
  (t', infos) ∈ d
  \/ t' = t /\ (infos = [info] \/ exists l, (t, l) ∈ d /\ infos = l ++ [info]).
Proof.
  induction d as [|[k l] d IH]; cbn.
  - rewrite list_elem_of_singleton. intros [= -> ->]. right. auto.
  - case_decide as Hk.
    + subst k. rewrite !elem_of_cons. intros [[= -> ->]|Hin]; [|auto].
      right. split; [done|]. right. exists l. split; [|done]. apply list_elem_of_here.
    + rewrite !elem_of_cons. intros [Heq|Hin]; [auto|].
      destruct (IH Hin) as [?|[-> [->|(l0 & Hl0 & ->)]]]; [auto| |].
      * right. auto.
      * right. split; [done|]. right. exists l0. split; [|done].
        by apply list_elem_of_further.
Qed.

Lemma append_node_keys node_id t info d :
  (append_node node_id t info d).*1
  = if bool_decide (node_id ∈ d.*1) then d.*1 else d.*1 ++ [node_id].
Proof.
  induction d as [|[k td] d IH]; cbn.
  - rewrite bool_decide_eq_false_2; [done|]. apply not_elem_of_nil.
  - destruct (decide (k = node_id)) as [->|Hk].
    + cbn. rewrite bool_decide_eq_true_2; [done|]. apply list_elem_of_here.
    + cbn. rewrite IH. case_bool_decide as Hin.
      * rewrite bool_decide_eq_true_2; [done|]. by apply list_elem_of_further.
      * rewrite bool_decide_eq_false_2; [done|].
        rewrite elem_of_cons. intros [?|?]; congruence.
Qed.

Lemma elem_of_append_node node_id t info d n td :
  (n, td) ∈ append_node node_id t info d ->
  (n, td) ∈ d
  \/ n = node_id
     /\ (td = [(t, [info])] \/ exists td0, (n, td0) ∈ d /\ td = append_topic t info td0).
Proof.
  induction d as [|[k l] d IH]; cbn.
  - rewrite list_elem_of_singleton. intros [= -> ->]. right. auto.
  - case_decide as Hk.
    + subst k. rewrite !elem_of_cons. intros [[= -> ->]|Hin]; [|auto].
      right. split; [done|]. right. exists l. split; [|done]. apply list_elem_of_here.
    + rewrite !elem_of_cons. intros [Heq|Hin]; [auto|].
      destruct (IH Hin) as [?|[-> [->|(l0 & Hl0 & ->)]]]; [auto| |].
      * right. auto.
      * right. split; [done|]. right. exists l0. split; [|done].
        by apply list_elem_of_further.
Qed.

Lemma plan_ok_append f node_id tp info d :
  plan_ok f d ->
  node_id ∉ _in_flight f ->
  OrderedDict.contains tp (_records f) = false ->
  TP (topic tp) info.1.1 = tp ->
  plan_ok f (append_node node_id (topic tp) info d).
Proof.
  intros [Hnd Hall] Hnode Htp Hinfo. split.
  - rewrite append_node_keys. case_bool_decide as Hin; [done|].
    apply NoDup_app. repeat split; [done | | apply NoDup_singleton].
    intros x Hx ->%list_elem_of_singleton. done.
  - intros n td [Hin|[-> Hnew]]%elem_of_append_node; [by apply Hall|].
    split; [done|].
    assert (forall t infos (i : PartitionInfo),
              (t, infos) ∈ [(topic tp, [info])] -> i ∈ infos ->
              OrderedDict.contains (TP t i.1.1) (_records f) = false) as Hsingle.
    { intros t infos i [= -> ->]%list_elem_of_singleton ->%list_elem_of_singleton.
      by rewrite Hinfo. }
    destruct Hnew as [->|(td0 & Hin0 & ->)]; [exact Hsingle|].
    destruct (Hall _ _ Hin0) as [_ Hold].
    intros t infos i [Hin|[-> [->|(l & Hl & ->)]]]%elem_of_append_topic Hi.
    + by eapply Hold.
    + eapply Hsingle; [apply list_elem_of_here | done].
    + apply elem_of_app in Hi as [Hi|Hi]; [by eapply Hold|].
      apply list_elem_of_singleton in Hi as ->. by rewrite Hinfo.
Qed.

Lemma plan_partitions_ok f c order : forall d,
  plan_ok f d ->
  (forall tp, tp ∈ order -> is_Some (assignment (_subscriptions f) !! tp)) ->
  exists d', plan_partitions f c order d = Ok d' /\ plan_ok f d'.
Proof.
  induction order as [|tp rest IH]; intros d Hd Has; cbn; [eauto|].
  assert (forall tp, tp ∈ rest -> is_Some (assignment (_subscriptions f) !! tp)) as Hrest.
  { intros. apply Has. by apply list_elem_of_further. }
  destruct (OrderedDict.contains tp (_records f)) eqn:Hc; [by apply IH|].
  destruct (in_flight_has f (leader_for_partition c tp)) eqn:Hfl; [by apply IH|].
  destruct (leader_for_partition c tp) as [n|]; [|by apply IH].
  destruct (n =? -1); [by apply IH|].
  destruct (Has tp) as [st Hst]; [apply list_elem_of_here|].
  rewrite (get_position_lookup _ _ _ Hst). cbn.
  apply IH; [|done]. apply plan_ok_append; try done.
  - cbn in Hfl. by apply bool_decide_eq_false in Hfl.
  - by destruct tp.
Qed.

Lemma fetchable_partitions_assigned s tp :
  tp ∈ elements (fetchable_partitions s) -> is_Some (assignment s !! tp).
Proof.
  rewrite elem_of_elements. unfold fetchable_partitions.
  rewrite elem_of_dom. intros [st Hst].
  apply map_lookup_filter_Some in Hst as [Hst _]. eauto.
Qed.

Lemma planned_in_order_ok order f c :
  (forall tp, tp ∈ order -> is_Some (assignment (_subscriptions f) !! tp)) ->
  exists requests,
    _create_fetch_requests_in order f c = Ok requests
    /\ (needs_partition_assignment (_subscriptions f) = true -> requests = [])
    /\ NoDup requests.*1
    /\ forall node_id request,
         (node_id, request) ∈ requests ->
         (node_id ∉ _in_flight f)
         /\ forall tp, tp ∈ request_partitions request ->
              tp ∉ OrderedDict.keys (_records f).
Proof.
  intros Horder. unfold _create_fetch_requests_in.
  destruct (needs_partition_assignment (_subscriptions f)) eqn:Hn.
  { exists []. repeat split; [constructor | by apply not_elem_of_nil in H
                             | by apply not_elem_of_nil in H]. }
  destruct (plan_partitions_ok f c order []) as (d & -> & [Hnd Hall]); [|done|].
  { split; [constructor|]. by intros ?? ?%not_elem_of_nil. }
  exists (build_requests f d). cbn. split; [done|]. split; [done|].
  assert ((build_requests f d).*1 = d.*1) as Hkeys.
  { unfold build_requests. rewrite <- list_fmap_compose.
    apply list_fmap_ext. by intros ? [??]. }
  split; [by rewrite Hkeys|].
  intros node_id request Hin. unfold build_requests in Hin.
  apply list_elem_of_fmap in Hin as ([n td] & [= -> ->] & Hin).
  destruct (Hall _ _ Hin) as [Hnode Htps]. split; [done|].
  intros tp Htp. unfold request_partitions in Htp. cbn in Htp.
  apply list_elem_of_bind in Htp as ([t infos] & Htp & Ht).
  apply list_elem_of_fmap in Htp as (info & -> & Hinfo).
  by apply not_contains_keys, (Htps t infos).
Qed.

(** C7. In whatever order the set of fetchable partitions is gone through,
    the planner produces a request list, and that list is empty when
    [needs_partition_assignment] holds; no request goes to a node of the
    in-flight set; no request lists a topic partition that is a key of the
    record map; and no node gets two requests. *)
Theorem planned_requests_respect_state f c order :
  order ≡ₚ elements (fetchable_partitions (_subscriptions f)) ->
  exists requests,
    _create_fetch_requests_in order f c = Ok requests
    /\ (needs_partition_assignment (_subscriptions f) = true -> requests = [])
    /\ NoDup requests.*1
    /\ forall node_id request,
         (node_id, request) ∈ requests ->
         (node_id ∉ _in_flight f)
         /\ forall tp, tp ∈ request_partitions request ->
              tp ∉ OrderedDict.keys (_records f).
Proof.
  intros Hperm. apply planned_in_order_ok.
  intros tp Htp. apply fetchable_partitions_assigned. by rewrite <- Hperm.
Qed.

Lemma planned_requests_respect_state_witness :
  let s := {| needs_partition_assignment := false;
              assignment := {[ TP "T" 0 := state_at 5; TP "T" 1 := state_at 7;
                               TP "T" 2 := state_at 9; TP "T" 3 := state_at 3 ]};
              default_offset_reset_strategy := OffsetResetStrategy.LATEST |} in
  let f := fetcher_with s
             [(TP "T" 1, Buffer [rec_at 7]);
              (TP "T" 2, Err (OffsetOutOfRangeError (TP "T" 2) 9))]
             {[ 2 ]} in
  let c := {| leader_for_partition :=
                fun tp => Some (if partition tp =? 3 then 2 else 1);
              ready := fun _ => true;
              send := fun _ _ => Ok [] |} in
  _create_fetch_requests f c = Ok [(1, request_at 5)]
  /\ exists requests,
       _create_fetch_requests_in
         (elements (fetchable_partitions (_subscriptions f))) f c = Ok requests
       /\ (needs_partition_assignment (_subscriptions f) = true -> requests = [])
       /\ NoDup requests.*1
       /\ forall node_id request,
            (node_id, request) ∈ requests ->
            (node_id ∉ _in_flight f)
            /\ forall tp, tp ∈ request_partitions request ->
                 tp ∉ OrderedDict.keys (_records f).
Proof.
  intros s f c. split; [vm_compute; reflexivity|].
  apply (planned_requests_respect_state f c
           (elements (fetchable_partitions (_subscriptions f)))).
  reflexivity.
Defined.

Example plan_two_partitions :
  let s := {| needs_partition_assignment := false;
              assignment := {[ TP "T" 0 := state_at 5; TP "T" 1 := state_at 7;
                               TP "U" 0 := state_at 9 ]};
              default_offset_reset_strategy := OffsetResetStrategy.LATEST |} in
  _create_fetch_requests_in [TP "T" 0; TP "T" 1; TP "U" 0]
    (fetcher_with s [(TP "U" 0, Buffer [])] ∅)
    (client_with (Some 1) true (Ok []))
  = Ok [(1, {| replica_id := -1; max_wait_time := 500; min_bytes := 1;
               topics := [("T", [(0, 5, 1048576); (1, 7, 1048576)])] |})].
Proof. vm_compute. reflexivity. Qed.

(** ** Offset reset subsystem *)

(** C8. [_proc_offset_request] raises [StaleMetadata] when the leader of
    the partition is unknown, [LeaderNotAvailableError] when it is -1,
    [NodeNotReadyError] when the leader is a node that is not ready (none of
    these sends anything), and returns the one offset of a NoError response
    for the requested partition. *)
Theorem proc_offset_request_outcomes c tp timestamp :
  (leader_for_partition c tp = None ->
   _proc_offset_request c tp timestamp = (Raise (Kafka (StaleMetadata tp)), []))
  /\ (leader_for_partition c tp = Some (-1) ->
      _proc_offset_request c tp timestamp
      = (Raise (Kafka (LeaderNotAvailableError tp)), []))
  /\ (forall node_id,
        leader_for_partition c tp = Some node_id -> node_id <> -1 ->
        ready c node_id = false ->
        _proc_offset_request c tp timestamp
        = (Raise (Kafka (NodeNotReadyError node_id)), []))
  /\ (forall node_id error_code offset,
        leader_for_partition c tp = Some node_id -> node_id <> -1 ->
        ready c node_id = true ->
        send c node_id (-1, [(topic tp, [(partition tp, timestamp, 1)])])
        = Ok [(topic tp, [(partition tp, error_code, [offset])])] ->
        for_code error_code = NoError ->
        _proc_offset_request c tp timestamp
        = (Ok offset,
           [Send node_id (-1, [(topic tp, [(partition tp, timestamp, 1)])])])).
Proof.
  unfold _proc_offset_request. repeat split.
  - by intros ->.
  - by intros ->.
  - intros n -> Hn Hr. apply Z.eqb_neq in Hn. by rewrite Hn, Hr.
  - intros n code off -> Hn Hr Hsend Hcode. apply Z.eqb_neq in Hn.
    rewrite Hn, Hr, Hsend. cbn.
    rewrite !bool_decide_eq_true_2 by done. cbn.
    by rewrite Hcode.
Qed.

Lemma proc_offset_request_outcomes_witness :
  _proc_offset_request (client_with (Some 1) true (Ok [("T", [(0, 0, [42])])])) tp0 (-1)
  = (Ok 42, [Send 1 (-1, [("T", [(0, -1, 1)])])]).
Proof.
  apply (proj2 (proj2 (proj2 (proc_offset_request_outcomes
           (client_with (Some 1) true (Ok [("T", [(0, 0, [42])])])) tp0 (-1))))
         1 0 42); [reflexivity | lia | reflexivity | reflexivity | reflexivity].
Defined.

Lemma offset_calls_timestamps retriable invalid_metadata clients tp timestamp :
  Forall (fun ts => ts = timestamp)
    (sent_timestamps (_offset retriable invalid_metadata clients tp timestamp).2).
Proof.
  assert (forall c, Forall (fun ts => ts = timestamp)
            (sent_timestamps (_proc_offset_request c tp timestamp).2)) as Hone.
  { intros c. unfold _proc_offset_request.
    destruct (leader_for_partition c tp) as [n|]; [|constructor].
    destruct (n =? -1); [constructor|].
    destruct (negb (ready c n)); [constructor|].
    cbn. by repeat constructor. }
  induction clients as [|c later IH]; cbn; [constructor|].
  specialize (Hone c).
  destruct (_proc_offset_request c tp timestamp) as [[off|[| | | |e]] calls];
    cbn in *; try done.
  destruct (retriable e); cbn; [|done].
  destruct (_offset retriable invalid_metadata later tp timestamp) as [r calls'].
  cbn in *. unfold sent_timestamps in *.
  rewrite !bind_app. apply Forall_app. split; [done|].
  apply Forall_app. split; [|done].
  destruct (invalid_metadata e); cbn; constructor.
Qed.

(** C6 fails at the strategy NONE.  [_reset_offset] hands the partition's
    [reset_strategy] to [_offset] as it is; the EARLIEST test only picks the
    word of the log line.  A partition without a committed offset, under the
    default strategy NONE, is marked by [update_fetch_positions] and its
    reset is scheduled.  That reset sends its OffsetRequest with NONE's own
    value 0 as the timestamp, where C6 has -1 for every strategy that is not
    EARLIEST, and it ends without an exception, the partition sought to the
    offset the broker gave for timestamp 0, where the docstring of
    [_reset_offset] has NoOffsetForPartitionError. *)
Theorem reset_offset_none_sends_timestamp_zero :
  let s0 := {| needs_partition_assignment := false;
               assignment :=
                 {[ tp0 := {| position := 0; has_valid_position := false;
                              committed := None; highwater := None;
                              reset_strategy := OffsetResetStrategy.LATEST;
                              paused := false; awaiting_reset := false |} ]};
               default_offset_reset_strategy := OffsetResetStrategy.NONE |} in
  let s := awaiting_reset_with OffsetResetStrategy.NONE in
  let out := _reset_offset spec_retriable spec_invalid_metadata
               [client_with (Some 1) true (Ok [("T", [(0, 0, [42])])])]
               s s tp0 in
  update_fetch_positions_loop [tp0] [] s0 = Ok ([tp0], s)
  /\ reset_strategy <$> assignment s !! tp0 = Some OffsetResetStrategy.NONE
  /\ OffsetResetStrategy.NONE <> OffsetResetStrategy.EARLIEST
  /\ out.2 = [Send 1 (-1, [("T", [(0, 0, 1)])])]
  /\ sent_timestamps out.2 = [0]
  /\ ~ Forall (fun ts => ts = -1) (sent_timestamps out.2)
  /\ exists s', out.1 = Some (Ok s') /\ position_of s' tp0 = Some 42.
Proof.
  cbn zeta. split; [vm_compute; reflexivity|].
  split; [vm_compute; reflexivity|]. split; [discriminate|].
  split; [vm_compute; reflexivity|]. split; [vm_compute; reflexivity|].
  split.
  - intros H. vm_compute in H. inversion H. discriminate.
  - eexists. split; vm_compute; reflexivity.
Qed.

Example reset_latest_seeks :
  _reset_offset spec_retriable spec_invalid_metadata
    [client_with None true (Ok []);
     client_with (Some 1) true (Ok [("T", [(0, 0, [42])])])]
    (awaiting_reset_with OffsetResetStrategy.LATEST)
    (awaiting_reset_with OffsetResetStrategy.LATEST) tp0
  = (Some (seek (awaiting_reset_with OffsetResetStrategy.LATEST) tp0 42),
     [ForceMetadataUpdate; Send 1 (-1, [("T", [(0, -1, 1)])])]).
Proof. vm_compute. reflexivity. Qed.

(** ** Consumer API *)

Lemma get_app {V} tp (d1 d2 : OrderedDict.t V) :
  OrderedDict.get tp (d1 ++ d2)
  = match OrderedDict.get tp d1 with
    | Some v => Some v
    | None => OrderedDict.get tp d2
    end.
Proof.
  induction d1 as [|[k v] d1 IH]; cbn; [done|]. by case_decide.
Qed.

(** Where a key of the dictionary sits, and what [del] and item assignment
    do there. *)
Lemma get_Some_split {V} tp (v : V) d :
  OrderedDict.get tp d = Some v ->
  exists d1 d2,
    d = d1 ++ (tp, v) :: d2
    /\ (tp ∉ OrderedDict.keys d1)
    /\ OrderedDict.del tp d = Ok (d1 ++ d2)
    /\ forall v', OrderedDict.set tp v' d = d1 ++ (tp, v') :: d2.
Proof.
  induction d as [|[k w] d IH]; cbn; [done|].
  destruct (decide (k = tp)) as [->|Hk].
  - intros [= ->]. exists [], d. repeat split; try done. apply not_elem_of_nil.
  - intros (d1 & d2 & -> & Hd1 & Hdel & Hset)%IH.
    exists ((k, w) :: d1), d2. rewrite Hdel. cbn.
    repeat split; try done.
    + rewrite not_elem_of_cons. split; [congruence | done].
    + intros v'. by rewrite Hset.
Qed.

Lemma get_split_ne {V} tp tp' (v : V) d1 d2 :
  tp' <> tp ->
  OrderedDict.get tp' (d1 ++ (tp, v) :: d2) = OrderedDict.get tp' (d1 ++ d2).
Proof.
  intros Hne. rewrite !get_app. cbn. by rewrite decide_False.
Qed.

Lemma keys_app {V} (d1 d2 : OrderedDict.t V) :
  OrderedDict.keys (d1 ++ d2) = OrderedDict.keys d1 ++ OrderedDict.keys d2.
Proof. unfold OrderedDict.keys. apply fmap_app. Qed.

Lemma get_split_removed {V} tp (v : V) d1 d2 :
  NoDup (OrderedDict.keys (d1 ++ (tp, v) :: d2)) ->
  OrderedDict.get tp (d1 ++ d2) = None.
Proof.
  rewrite keys_app. cbn. intros Hnd. apply get_None_keys. rewrite keys_app.
  apply NoDup_app in Hnd as (_ & Hd1 & Hd2). apply NoDup_cons in Hd2 as [Hd2 _].
  rewrite elem_of_app. intros [H|H]; [|done].
  apply (Hd1 _ H). apply list_elem_of_here.
Qed.

Lemma keys_split_remove {V} tp (v : V) d1 d2 :
  NoDup (OrderedDict.keys (d1 ++ (tp, v) :: d2)) ->
  NoDup (OrderedDict.keys (d1 ++ d2)).
Proof.
  rewrite !keys_app. cbn. intros Hnd. eapply sublist_NoDup; [exact Hnd|].
  apply sublist_app; [done|]. by apply sublist_cons.
Qed.

Lemma sentinels_split tp v d1 d2 :
  sentinels (d1 ++ (tp, v) :: d2)
  = sentinels d1 ++ match v with Err e => [e] | Buffer _ => [] end ++ sentinels d2.
Proof.
  unfold sentinels. rewrite omap_app. cbn. by destruct v.
Qed.

Lemma sentinels_app d1 d2 : sentinels (d1 ++ d2) = sentinels d1 ++ sentinels d2.
Proof. apply omap_app. Qed.

(** A buffer that [getone] or [getall] has worked on stays where it was in
    the record map. *)
Lemma buffer_written_back f tp m m' s :
  OrderedDict.get tp (_records f) = Some (Buffer m) ->
  let f1 := with_records (with_subscriptions f s)
              (OrderedDict.set tp (Buffer m') (_records f)) in
  sentinels (_records f1) = sentinels (_records f)
  /\ OrderedDict.keys (_records f1) = OrderedDict.keys (_records f)
  /\ (forall tp', tp' <> tp ->
        OrderedDict.get tp' (_records f1) = OrderedDict.get tp' (_records f)).
Proof.
  intros (d1 & d2 & Hd & _ & _ & Hset)%get_Some_split. cbn.
  rewrite Hset, Hd, !sentinels_split, !keys_app. cbn.
  split; [done|]. split; [unfold OrderedDict.keys; by rewrite fmap_app|].
  intros tp' Hne. by rewrite !get_split_ne.
Qed.

(** An exhausted buffer is deleted: the sentinels stay. *)
Lemma buffer_dropped f tp m m' s :
  OrderedDict.get tp (_records f) = Some (Buffer m) ->
  exists f2,
    del_and_notify tp
      (with_records (with_subscriptions f s)
         (OrderedDict.set tp (Buffer m') (_records f))) = Ok f2
    /\ _subscriptions f2 = s
    /\ sentinels (_records f2) = sentinels (_records f)
    /\ (NoDup (OrderedDict.keys (_records f)) ->
        NoDup (OrderedDict.keys (_records f2)))
    /\ (forall tp', tp' <> tp ->
          OrderedDict.get tp' (_records f2) = OrderedDict.get tp' (_records f)).
Proof.
  intros (d1 & d2 & Hd & Hd1 & _ & Hset)%get_Some_split.
  unfold del_and_notify. cbn [_records with_records].
  rewrite Hset.
  assert (OrderedDict.get tp (d1 ++ (tp, Buffer m') :: d2) = Some (Buffer m')) as Hget.
  { rewrite get_app. apply get_None_keys in Hd1. rewrite Hd1. cbn.
    by rewrite decide_True. }
  apply get_Some_split in Hget as (e1 & e2 & He & He1 & Hdel & _).
  rewrite Hdel. cbn. eexists. split; [reflexivity|]. cbn.
  assert (e1 = d1 /\ e2 = d2) as [-> ->].
  { clear -He Hd1 He1. revert e1 He He1.
    induction d1 as [|[k v] d1 IH]; intros [|[k' v'] e1]; cbn; intros He He1.
    - by injection He as ->.
    - injection He as <- _ _. destruct He1. apply list_elem_of_here.
    - injection He as -> _ _. destruct Hd1. apply list_elem_of_here.
    - injection He as -> -> He.
      cbn in Hd1, He1. rewrite not_elem_of_cons in Hd1, He1.
      destruct (IH (proj2 Hd1) e1 He (proj2 He1)) as [-> ->]. done. }
  rewrite Hd, !sentinels_split, sentinels_app. cbn.
  split; [done|]. split; [done|]. split.
  - apply keys_split_remove.
  - intros tp' Hne. by rewrite get_split_ne.
Qed.

(** A sentinel that is met is deleted: it leaves the stored sentinels, and
    its key the dictionary. *)
Lemma sentinel_removed f tp e :
  OrderedDict.get tp (_records f) = Some (Err e) ->
  exists f1,
    del_and_notify tp f = Ok f1
    /\ _subscriptions f1 = _subscriptions f
    /\ sentinels (_records f) ≡ₚ e :: sentinels (_records f1)
    /\ (NoDup (OrderedDict.keys (_records f)) ->
        NoDup (OrderedDict.keys (_records f1))
        /\ OrderedDict.get tp (_records f1) = None)
    /\ (forall tp', tp' <> tp ->
          OrderedDict.get tp' (_records f1) = OrderedDict.get tp' (_records f)).
Proof.
  intros (d1 & d2 & Hd & Hd1 & Hdel & _)%get_Some_split.
  unfold del_and_notify. rewrite Hdel. cbn. eexists. split; [reflexivity|]. cbn.
  rewrite Hd, sentinels_split, sentinels_app.
  split; [done|]. split; [by rewrite Permutation_middle|]. split.
  - intros Hnd. split; [by eapply keys_split_remove | by eapply get_split_removed].
  - intros tp' Hne. by rewrite get_split_ne.
Qed.

(** What one pass of [next_record] does to the record map: it raises a
    Kafka error only by taking a sentinel out of the map; otherwise the
    sentinels are all still there. *)
Lemma next_record_loop_spec ps keys : forall f res f',
  NoDup keys ->
  NoDup (OrderedDict.keys (_records f)) ->
  next_record_loop ps keys f = (res, f') ->
  NoDup (OrderedDict.keys (_records f'))
  /\ (forall tp, tp ∉ keys ->
        OrderedDict.get tp (_records f') = OrderedDict.get tp (_records f))
  /\ match res with
     | Raise (Kafka e) =>
         exists tp,
           tp ∈ keys
           /\ OrderedDict.get tp (_records f) = Some (Err e)
           /\ OrderedDict.get tp (_records f') = None
           /\ sentinels (_records f) ≡ₚ e :: sentinels (_records f')
     | _ => sentinels (_records f') = sentinels (_records f)
     end.
Proof.
  induction keys as [|tp keys IH]; intros f res f' Hkeys Hdict Hrun;
    cbn [next_record_loop] in Hrun.
  { injection Hrun as <- <-. done. }
  apply NoDup_cons in Hkeys as [Htp Hkeys].
  assert (forall g res f',
            NoDup (OrderedDict.keys (_records g)) ->
            sentinels (_records g) = sentinels (_records f) ->
            (forall tp', tp' <> tp ->
               OrderedDict.get tp' (_records g) = OrderedDict.get tp' (_records f)) ->
            next_record_loop ps keys g = (res, f') ->
            NoDup (OrderedDict.keys (_records f'))
            /\ (forall tp0, tp0 ∉ tp :: keys ->
                  OrderedDict.get tp0 (_records f') = OrderedDict.get tp0 (_records f))
            /\ match res with
               | Raise (Kafka e) =>
                   exists tp0,
                     tp0 ∈ tp :: keys
                     /\ OrderedDict.get tp0 (_records f) = Some (Err e)
                     /\ OrderedDict.get tp0 (_records f') = None
                     /\ sentinels (_records f) ≡ₚ e :: sentinels (_records f')
               | _ => sentinels (_records f') = sentinels (_records f)
               end) as Hrest.
  { intros g res0 f0 Hg Hsent Hframe Hrun0.
    destruct (IH g res0 f0 Hkeys Hg Hrun0) as (Hnd & Hfr & Hres).
    split; [done|]. split.
    - intros tp0 [Hne Hnin]%not_elem_of_cons. rewrite Hfr by done. by apply Hframe.
    - destruct res0 as [?|[| | | |e]]; try congruence.
      destruct Hres as (tp0 & Hin & Hget & Hgone & Hperm).
      exists tp0. split; [by apply list_elem_of_further|].
      rewrite <- Hframe, <- Hsent by (intros ->; done). done. }
  destruct (filtered_out ps tp); [by eapply Hrest|].
  destruct (OrderedDict.get tp (_records f)) as [[m|e]|] eqn:Hget.
  - destruct (getone_total (_subscriptions f) tp m) as ([[o s] m'] & Hone).
    rewrite Hone in Hrun.
    destruct (buffer_written_back f tp m m' s Hget) as (Hs1 & Hk1 & Hf1).
    destruct o as [msg|].
    + injection Hrun as <- <-. split; [by rewrite Hk1|]. split; [|done].
      intros tp0 [Hne _]%not_elem_of_cons. by apply Hf1.
    + destruct (buffer_dropped f tp m m' s Hget) as (f2 & Hdel & _ & Hs2 & Hk2 & Hf2).
      rewrite Hdel in Hrun.
      apply (Hrest f2 res f' (Hk2 Hdict) Hs2 Hf2 Hrun).
  - destruct (sentinel_removed f tp e Hget) as (f1 & Hdel & _ & Hperm & Hnd & Hframe).
    rewrite Hdel in Hrun. injection Hrun as <- <-.
    destruct (Hnd Hdict) as [Hnd1 Hgone].
    split; [done|]. split.
    + intros tp0 [Hne _]%not_elem_of_cons. by apply Hframe.
    + exists tp. split; [apply list_elem_of_here | done].
  - injection Hrun as <- <-. done.
Qed.

(** The same for one pass of [fetched_records]; a Kafka error is raised
    only while nothing has been drained, and then no buffer was touched. *)
Lemma fetched_records_loop_spec ps keys : forall drained f res f',
  NoDup keys ->
  NoDup (OrderedDict.keys (_records f)) ->
  fetched_records_loop ps keys drained f = (res, f') ->
  NoDup (OrderedDict.keys (_records f'))
  /\ match res with
     | Raise (Kafka e) =>
         drained = []
         /\ _subscriptions f' = _subscriptions f
         /\ exists tp,
              tp ∈ keys
              /\ OrderedDict.get tp (_records f) = Some (Err e)
              /\ OrderedDict.get tp (_records f') = None
              /\ sentinels (_records f) ≡ₚ e :: sentinels (_records f')
     | _ => sentinels (_records f') = sentinels (_records f)
     end.
Proof.
  induction keys as [|tp keys IH]; intros drained f res f' Hkeys Hdict Hrun;
    cbn [fetched_records_loop] in Hrun.
  { injection Hrun as <- <-. done. }
  apply NoDup_cons in Hkeys as [Htp Hkeys].
  destruct (filtered_out ps tp).
  { destruct (IH _ _ _ _ Hkeys Hdict Hrun) as (Hnd & Hres).
    split; [done|]. destruct res as [?|[| | | |e]]; try done.
    destruct Hres as (Hd & Hs & tp0 & Hin & Hrest).
    split; [done|]. split; [done|]. exists tp0.
    split; [by apply list_elem_of_further | done]. }
  destruct (OrderedDict.get tp (_records f)) as [[m|e]|] eqn:Hget.
  - destruct (getall_total (_subscriptions f) tp m) as ([[l s] m'] & Hall).
    rewrite Hall in Hrun.
    destruct (buffer_dropped f tp m m' s Hget) as (f2 & Hdel & _ & Hs2 & Hk2 & Hf2).
    rewrite Hdel in Hrun.
    destruct (IH _ _ _ _ Hkeys (Hk2 Hdict) Hrun) as (Hnd & Hres).
    split; [done|]. destruct res as [?|[| | | |e]]; try congruence.
    destruct Hres as (Hd & _). exfalso. clear -Hd.
    destruct drained as [|[k v] drained]; cbn in Hd; [done|].
    by case_decide.
  - destruct drained as [|kv drained].
    + destruct (sentinel_removed f tp e Hget)
        as (f1 & Hdel & Hsub & Hperm & Hnd & Hframe).
      rewrite Hdel in Hrun. injection Hrun as <- <-.
      destruct (Hnd Hdict) as [Hnd1 Hgone].
      split; [done|]. split; [done|]. split; [done|].
      exists tp. split; [apply list_elem_of_here | done].
    + injection Hrun as <- <-. done.
  - injection Hrun as <- <-. done.
Qed.

Lemma consume_spec call f o f' :
  NoDup (OrderedDict.keys (_records f)) ->
  consume call f = (o, f') ->
  NoDup (OrderedDict.keys (_records f'))
  /\ match o with
     | Some (Kafka e) => sentinels (_records f) ≡ₚ e :: sentinels (_records f')
     | _ => sentinels (_records f') = sentinels (_records f)
     end.
Proof.
  intros Hdict. destruct call as [ps|ps t]; cbn.
  - unfold next_record.
    destruct (next_record_loop ps (OrderedDict.keys (_records f)) f) as [res g] eqn:Hrun.
    destruct (next_record_loop_spec _ _ _ _ _ Hdict Hdict Hrun) as (Hnd & _ & Hres).
    destruct res as [r|ex]; intros [= <- <-]; (split; [done|]); [done|].
    destruct ex; try done. by destruct Hres as (tp & _ & _ & _ & Hperm).
  - unfold fetched_records.
    destruct (fetched_records_loop ps (OrderedDict.keys (_records f)) [] f)
      as [res g] eqn:Hrun.
    destruct (fetched_records_loop_spec _ _ _ _ _ _ Hdict Hdict Hrun) as (Hnd & Hres).
    destruct res as [r|ex].
    + destruct r; [destruct (t =? 0)|]; intros [= <- <-]; done.
    + intros [= <- <-]. split; [done|].
      destruct ex; try done. by destruct Hres as (_ & _ & tp & _ & _ & _ & Hperm).
Qed.

Lemma surfaced_among_sentinels calls : forall f,
  NoDup (OrderedDict.keys (_records f)) ->
  surfaced calls f ⊆+ sentinels (_records f).
Proof.
  induction calls as [|call later IH]; intros f Hdict; cbn.
  - apply submseteq_nil_l.
  - destruct (consume call f) as [o f'] eqn:Hc.
    destruct (consume_spec _ _ _ _ Hdict Hc) as (Hnd & Ho).
    specialize (IH f' Hnd).
    destruct o as [[| | | |e]|]; try (by rewrite <- Ho).
    rewrite Ho. by apply submseteq_skip.
Qed.

(** C3. In a record map (a dictionary: its keys are distinct), a sentinel
    is let out at most once.  When [next_record] raises a Kafka error, the
    error was the entry of some key and that key is gone from the map when
    the error is raised; when it returns, no sentinel has left the map.
    [fetched_records], on meeting a sentinel, returns what it has drained
    and leaves the fetcher as it is when something was drained, and deletes
    the sentinel and raises it when nothing was; whenever it returns, all
    sentinels are still in the map, and when it raises, no buffer was
    touched.  And over any sequence of consumer calls, the errors raised,
    counted with repetitions, are among the sentinels the map held at the
    start: none comes out twice. *)
Theorem sentinel_surfaced_at_most_once f
    (Hdict : NoDup (OrderedDict.keys (_records f))) :
  (forall ps e f',
      next_record ps f = (Raise (Kafka e), f') ->
      exists tp,
        OrderedDict.get tp (_records f) = Some (Err e)
        /\ OrderedDict.get tp (_records f') = None
        /\ sentinels (_records f) ≡ₚ e :: sentinels (_records f'))
  /\ (forall ps r f',
        next_record ps f = (Ok r, f') ->
        sentinels (_records f') = sentinels (_records f))
  /\ (forall ps timeout e f',
        fetched_records ps timeout f = (Raise (Kafka e), f') ->
        _subscriptions f' = _subscriptions f
        /\ exists tp,
             OrderedDict.get tp (_records f) = Some (Err e)
             /\ OrderedDict.get tp (_records f') = None
             /\ sentinels (_records f) ≡ₚ e :: sentinels (_records f'))
  /\ (forall ps timeout r f',
        fetched_records ps timeout f = (Ok r, f') ->
        sentinels (_records f') = sentinels (_records f))
  /\ (forall ps keys tp e,
        filtered_out ps tp = false ->
        OrderedDict.get tp (_records f) = Some (Err e) ->
        (forall drained, drained <> [] ->
           fetched_records_loop ps (tp :: keys) drained f = (Ok drained, f))
        /\ exists f1,
             fetched_records_loop ps (tp :: keys) [] f = (Raise (Kafka e), f1)
             /\ OrderedDict.get tp (_records f1) = None)
  /\ (forall calls, surfaced calls f ⊆+ sentinels (_records f)).
Proof.
  repeat apply conj.
  - intros ps e f' Hrun. unfold next_record in Hrun.
    destruct (next_record_loop_spec _ _ _ _ _ Hdict Hdict Hrun)
      as (_ & _ & tp & _ & H). eauto.
  - intros ps r f' Hrun. unfold next_record in Hrun.
    by destruct (next_record_loop_spec _ _ _ _ _ Hdict Hdict Hrun) as (_ & _ & H).
  - intros ps t e f' Hrun. unfold fetched_records in Hrun.
    destruct (fetched_records_loop ps (OrderedDict.keys (_records f)) [] f)
      as [res g] eqn:Hloop.
    destruct res as [r|ex].
    { destruct r; [destruct (t =? 0)|]; discriminate. }
    injection Hrun as -> ->.
    destruct (fetched_records_loop_spec _ _ _ _ _ _ Hdict Hdict Hloop)
      as (_ & _ & Hs & tp & _ & H). eauto.
  - intros ps t r f' Hrun. unfold fetched_records in Hrun.
    destruct (fetched_records_loop ps (OrderedDict.keys (_records f)) [] f)
      as [res g] eqn:Hloop.
    destruct (fetched_records_loop_spec _ _ _ _ _ _ Hdict Hdict Hloop) as (_ & H).
    destruct res as [d|ex]; [|discriminate].
    destruct d; [destruct (t =? 0)|]; by injection Hrun as <- <-.
  - intros ps keys tp e Hf Hget. cbn [fetched_records_loop]. rewrite Hf, Hget.
    split.
    + by intros [|kv drained].
    + destruct (sentinel_removed f tp e Hget) as (f1 & Hdel & _ & _ & Hnd & _).
      rewrite Hdel. exists f1. split; [done|]. by apply Hnd.
  - intros calls. by apply surfaced_among_sentinels.
Qed.

Lemma sentinel_surfaced_at_most_once_witness :
  exists tp,
    OrderedDict.get tp [(tp0, Err (RecordTooLargeError tp0 3 1048576))]
    = Some (Err (RecordTooLargeError tp0 3 1048576))
    /\ OrderedDict.get tp (@nil (TopicPartition * Entry)) = None
    /\ sentinels [(tp0, Err (RecordTooLargeError tp0 3 1048576))]
       ≡ₚ RecordTooLargeError tp0 3 1048576 :: sentinels [].
Proof.
  assert (NoDup (OrderedDict.keys
            (_records (fetcher_with (subs_at 4)
                         [(tp0, Err (RecordTooLargeError tp0 3 1048576))] ∅))))
    as Hdict by apply NoDup_singleton.
  apply (proj1 (sentinel_surfaced_at_most_once _ Hdict) []
           (RecordTooLargeError tp0 3 1048576)
           (fetcher_with (subs_at 4) [] ∅)).
  vm_compute. reflexivity.
Defined.

Example error_after_drained_is_held :
  let f := fetcher_with (subs_at 5)
             [(tp0, Buffer (rec_at <$> [5; 6]));
              (TP "U" 0, Err (TopicAuthorizationFailedError "U"))] ∅ in
  let held := fetcher_with (subs_at 7)
                [(TP "U" 0, Err (TopicAuthorizationFailedError "U"))] ∅ in
  fetched_records [] 0 f = (Ok (Some [(tp0, rec_at <$> [5; 6])]), held)
  /\ fetched_records [] 0 held
     = (Raise (Kafka (TopicAuthorizationFailedError "U")),
        fetcher_with (subs_at 7) [] ∅)
  /\ fetched_records [] 0 (fetcher_with (subs_at 7) [] ∅)
     = (Ok (Some []), fetcher_with (subs_at 7) [] ∅)
  /\ surfaced [FetchedRecords [] 0; NextRecord []; FetchedRecords [] 0;
               NextRecord []] f
     = [TopicAuthorizationFailedError "U"].
Proof. vm_compute. repeat split; reflexivity. Qed.

(** * Further properties of the code *)

(** ** FetchResult: serving and composing *)

(** X1. When the consumer needs a partition assignment, or the buffer's
    partition is not fetchable (unassigned, paused or without a valid
    position), [getone] and [getall] return nothing, throw the buffered
    records away and leave the subscription state as it is. *)
Theorem unserved_buffer_is_cleared s tp msgs
    (Hunserved : needs_partition_assignment s = true \/ is_fetchable s tp = false) :
  FetchResult.getone s tp msgs = Ok (None, s, [])
  /\ FetchResult.getall s tp msgs = Ok ([], s, []).
Proof.
  unfold FetchResult.getone, FetchResult.getall, FetchResult._check_assignment.
  destruct Hunserved as [-> | ->]; [done|].
  by rewrite orb_true_r.
Qed.

Lemma unserved_buffer_is_cleared_witness :
  FetchResult.getone (paused_at 10) tp0 (rec_at <$> [10; 11])
  = Ok (None, paused_at 10, [])
  /\ FetchResult.getall (paused_at 10) tp0 (rec_at <$> [10; 11])
     = Ok ([], paused_at 10, []).
Proof.
  apply (unserved_buffer_is_cleared (paused_at 10) tp0). right. reflexivity.
Defined.

(** X2. Neither operation raises, whatever the subscription state and the
    buffer: the lookup of [assignment[tp]] is only reached for an assigned
    partition.  [getall] always leaves the deque empty and returns records
    of the buffer in buffer order; [getone] leaves a suffix of the deque,
    the empty one when it returns nothing. *)
Theorem fetch_result_never_raises s tp msgs :
  (exists l s',
      FetchResult.getall s tp msgs = Ok (l, s', []) /\ l `sublist_of` msgs)
  /\ (exists r s' rest,
        FetchResult.getone s tp msgs = Ok (r, s', rest)
        /\ rest `suffix_of` msgs
        /\ (r = None -> rest = [] /\ s' = s)
        /\ (forall msg, r = Some msg -> msg ∈ msgs)).
Proof.
  destruct (check_assignment_cases s tp msgs)
    as [(Hone & Hall & _)|(st & Hst & _ & _ & Hone & Hall)].
  - rewrite Hone, Hall. split.
    + exists [], s. split; [done | apply sublist_nil_l].
    + exists None, s, []. repeat split; try done. apply suffix_nil.
  - rewrite Hone, Hall. split.
    + destruct (getall_loop_spec tp msgs s [] st Hst) as (l & s' & -> & _ & _ & _ & Hsub).
      eauto.
    + destruct (getone_loop_spec tp msgs s st Hst)
        as [[_ ->]|(pre & r & rest & s1 & -> & _ & _ & _ & ->)].
      * exists None, s, []. repeat split; try done. apply suffix_nil.
      * exists (Some r), s1, rest. repeat split; try done.
        -- exists (pre ++ [r]). by rewrite <- app_assoc.
        -- intros msg [= <-]. apply elem_of_app. right. apply list_elem_of_here.
Qed.

Lemma getall_loop_acc tp msgs : forall s acc,
  FetchResult.getall_loop s tp acc msgs
  = match FetchResult.getall_loop s tp [] msgs with
    | Ok (l, s', b) => Ok (acc ++ l, s', b)
    | Raise e => Raise e
    end.
Proof.
  induction msgs as [|r rest IH]; intros s acc; cbn.
  - by rewrite app_nil_r.
  - destruct (get_position s tp) as [pos|]; cbn; [|done].
    destruct (offset r =? pos); [|apply IH].
    destruct (incr_position s tp) as [s1|]; cbn; [|done].
    rewrite (IH s1 (acc ++ [r])), (IH s1 [r]).
    destruct (FetchResult.getall_loop s1 tp [] rest) as [[[l s'] b]|]; [|done].
    by rewrite <- app_assoc.
Qed.

(** X3. [getall] is [getone] called until it returns nothing: with more
    calls allowed than the buffer has records, the records the calls return
    one by one, the subscription state and the (empty) deque at the end are
    those of one [getall]. *)
Theorem getall_is_repeated_getone n : forall s tp msgs,
  (length msgs < n)%nat ->
  getone_repeatedly n s tp msgs = FetchResult.getall s tp msgs.
Proof.
  induction n as [|n IH]; intros s tp msgs Hn; [lia|]. cbn [getone_repeatedly].
  destruct (check_assignment_cases s tp msgs)
    as [(Hone & Hall & _)|(st & Hst & Hnp & Hf & Hone & Hall)].
  { by rewrite Hone, Hall. }
  rewrite Hone, Hall.
  destruct (getone_loop_spec tp msgs s st Hst)
    as [[Hne ->]|(pre & r & rest & s1 & -> & Hne & Hr & Hinc & ->)]; cbn.
  - pose proof (getall_loop_skip tp msgs [] s [] st Hst Hne) as H.
    rewrite app_nil_r in H. by rewrite H.
  - rewrite IH by (rewrite length_app in Hn; cbn in Hn; lia).
    rewrite (getall_loop_skip tp pre (r :: rest) s [] st Hst Hne). cbn.
    rewrite (get_position_lookup _ _ _ Hst). cbn. rewrite Hr, Z.eqb_refl, Hinc. cbn.
    destruct (incr_position_spec _ _ _ Hst) as (s2 & Hinc2 & Hst2 & Hnp2 & Hf2).
    assert (s2 = s1) as -> by congruence.
    unfold FetchResult.getall, FetchResult._check_assignment.
    rewrite Hnp2, Hf2, Hnp, Hf. cbn.
    rewrite (getall_loop_acc tp rest s1 [r]).
    by destruct (FetchResult.getall_loop s1 tp [] rest) as [[[l s'] b]|].
Qed.

Lemma getall_is_repeated_getone_witness :
  getone_repeatedly 5 (subs_at 10) tp0 (rec_at <$> [8; 9; 10; 11])
  = FetchResult.getall (subs_at 10) tp0 (rec_at <$> [8; 9; 10; 11]).
Proof.
  apply (getall_is_repeated_getone 5 (subs_at 10) tp0 (rec_at <$> [8; 9; 10; 11])).
  cbn. lia.
Defined.

Lemma incr_position_only_position s tp s1 :
  incr_position s tp = Ok s1 ->
  needs_partition_assignment s1 = needs_partition_assignment s
  /\ default_offset_reset_strategy s1 = default_offset_reset_strategy s
  /\ (forall tp', tp' <> tp -> assignment s1 !! tp' = assignment s !! tp')
  /\ exists st,
       assignment s !! tp = Some st
       /\ assignment s1 !! tp = Some (with_position st (position st + 1)).
Proof.
  unfold incr_position. destruct (assignment s !! tp) as [st|] eqn:Hst; [|done].
  intros [= <-]. cbn. repeat split; try done.
  - intros tp' Hne. by rewrite lookup_insert_ne.
  - exists st. by rewrite lookup_insert_eq.
Qed.

Lemma delivers_only_position tp s l s' :
  delivers tp s l s' ->
  needs_partition_assignment s' = needs_partition_assignment s
  /\ default_offset_reset_strategy s' = default_offset_reset_strategy s
  /\ (forall tp', tp' <> tp -> assignment s' !! tp' = assignment s !! tp')
  /\ (l = [] -> s' = s)
  /\ forall st,
       assignment s !! tp = Some st ->
       assignment s' !! tp
       = Some (with_position st (position st + Z.of_nat (length l))).
Proof.
  induction 1 as [s|s s1 s' r l Hp Hinc Hp1 Hd (IHn & IHd & IHf & _ & IHst)].
  - repeat split; try done. intros [] ->. cbn. unfold with_position. cbn.
    by rewrite Z.add_0_r.
  - destruct (incr_position_only_position _ _ _ Hinc)
      as (Hn & Hdef & Hframe & st0 & Hst0 & Hst1).
    split; [congruence|]. split; [congruence|]. split.
    { intros tp' Hne. rewrite IHf by done. by apply Hframe. }
    split; [done|].
    intros st Hst. assert (st0 = st) as -> by congruence.
    rewrite (IHst _ Hst1). f_equal. unfold with_position. cbn. f_equal. lia.
Qed.

(** X4. [getone] and [getall] write nothing but the position of the
    buffer's own partition: the assignment flag, the default reset strategy
    and every other partition are as before, and of the partition itself
    only [position] has changed, by the number of records returned. *)
Theorem fetch_result_writes_only_own_position s tp msgs :
  (forall l s' rest,
      FetchResult.getall s tp msgs = Ok (l, s', rest) ->
      needs_partition_assignment s' = needs_partition_assignment s
      /\ default_offset_reset_strategy s' = default_offset_reset_strategy s
      /\ (forall tp', tp' <> tp -> assignment s' !! tp' = assignment s !! tp')
      /\ (l = [] -> s' = s)
      /\ forall st,
           assignment s !! tp = Some st ->
           assignment s' !! tp
           = Some (with_position st (position st + Z.of_nat (length l))))
  /\ (forall r s' rest,
        FetchResult.getone s tp msgs = Ok (r, s', rest) ->
        needs_partition_assignment s' = needs_partition_assignment s
        /\ default_offset_reset_strategy s' = default_offset_reset_strategy s
        /\ (forall tp', tp' <> tp -> assignment s' !! tp' = assignment s !! tp')
        /\ forall st,
             assignment s !! tp = Some st ->
             assignment s' !! tp
             = Some (with_position st
                       (position st + match r with Some _ => 1 | None => 0 end))).
Proof.
  assert (forall st : TopicPartitionState, with_position st (position st + 0) = st)
    as Hsame.
  { intros []. unfold with_position. cbn. by rewrite Z.add_0_r. }
  split.
  - intros l s' rest Hrun.
    destruct (check_assignment_cases s tp msgs)
      as [(_ & Hall & _)|(st & Hst & _ & _ & _ & Hall)].
    + rewrite Hall in Hrun. injection Hrun as <- <- <-.
      repeat split; try done. intros st ->. cbn. by rewrite Hsame.
    + rewrite Hall in Hrun.
      destruct (getall_loop_spec tp msgs s [] st Hst) as (l' & s'' & H & Hd & _).
      rewrite H in Hrun. injection Hrun as <- <- <-.
      by apply delivers_only_position.
  - intros r s' rest Hrun.
    destruct (check_assignment_cases s tp msgs)
      as [(Hone & _ & _)|(st & Hst & _ & _ & Hone & _)].
    + rewrite Hone in Hrun. injection Hrun as <- <- <-.
      repeat split; try done. intros st ->. by rewrite Hsame.
    + rewrite Hone in Hrun.
      destruct (getone_loop_spec tp msgs s st Hst)
        as [[_ H]|(pre & r' & rest' & s1 & _ & _ & _ & Hinc & H)];
        rewrite H in Hrun; injection Hrun as <- <- <-.
      * repeat split; try done. intros st' Hst'. rewrite Hst'. by rewrite Hsame.
      * destruct (incr_position_only_position _ _ _ Hinc)
          as (Hn & Hdef & Hframe & st0 & Hst0 & Hst1).
        repeat split; try done. intros st' Hst'. congruence.
Qed.

(** X5. A buffer of a served partition whose offsets run from the position
    on without a gap is handed out whole by [getall], in order, and the
    position ends right after its last record. *)
Theorem consecutive_buffer_delivered_whole s tp p msgs
    (Hserved : needs_partition_assignment s = false)
    (Hfetchable : is_fetchable s tp = true)
    (Hpos : position_of s tp = Some p)
    (Hoffsets : offset <$> msgs = seqZ p (Z.of_nat (length msgs))) :
  exists s',
    FetchResult.getall s tp msgs = Ok (msgs, s', [])
    /\ position_of s' tp = Some (p + Z.of_nat (length msgs)).
Proof.
  unfold FetchResult.getall, FetchResult._check_assignment.
  rewrite Hserved, Hfetchable. cbn.
  unfold position_of in Hpos.
  destruct (assignment s !! tp) as [st|] eqn:Hst; [|done].
  injection Hpos as <-.
  destruct (getall_loop_run tp msgs s [] st [] Hst Hoffsets)
    as (s1 & st1 & Hst1 & Hp1 & Hrun).
  rewrite app_nil_r in Hrun. rewrite Hrun. cbn.
  exists s1. split; [done|].
  rewrite (position_of_lookup _ _ _ Hst1). by rewrite Hp1.
Qed.

Lemma consecutive_buffer_delivered_whole_witness :
  exists s',
    FetchResult.getall (subs_at 5) tp0 (rec_at <$> [5; 6; 7])
    = Ok (rec_at <$> [5; 6; 7], s', [])
    /\ position_of s' tp0 = Some (5 + Z.of_nat (length (rec_at <$> [5; 6; 7]))).
Proof.
  apply (consecutive_buffer_delivered_whole (subs_at 5) tp0 5 (rec_at <$> [5; 6; 7]));
    reflexivity.
Defined.

(** ** Record unpacker *)

Lemma unpack_compressed f tp o crc_ok inner :
  unpack_message f tp o (CompressedMessage crc_ok inner)
  = if _check_crcs f && negb crc_ok
    then Raise (Kafka (InvalidMessageError (CompressedMessage crc_ok inner)))
    else _unpack_message_set f tp inner.
Proof.
  cbn. destruct (_check_crcs f && negb crc_ok); [done|].
  induction inner as [|[[o' sz] m] inner IH]; [done|].
  cbn. by rewrite IH.
Qed.

Lemma leaves_compressed o crc_ok inner :
  leaves o (CompressedMessage crc_ok inner) = set_leaves inner.
Proof.
  cbn. induction inner as [|[[o' sz] m] inner IH]; [done|]. cbn. by rewrite IH.
Qed.

Lemma unpack_app f tp a b :
  _unpack_message_set f tp (a ++ b)
  = ra ← _unpack_message_set f tp a;
    rb ← _unpack_message_set f tp b;
    Ok (ra ++ rb).
Proof.
  induction a as [|[[o sz] m] a IH]; cbn.
  - by destruct (_unpack_message_set f tp b).
  - destruct (unpack_message f tp o m) as [rs|]; cbn; [|done].
    rewrite IH. destruct (_unpack_message_set f tp a) as [ra|]; cbn; [|done].
    destruct (_unpack_message_set f tp b) as [rb|]; cbn; [|done].
    by rewrite app_assoc.
Qed.

Lemma unpack_set_outcome f tp (messages : MessageSet) :
  Forall (fun e : Z * Z * Message =>
            forall o, unpack_outcome f tp (unpackable (_check_crcs f) e.2)
                        (leaves o e.2) (unpack_message f tp o e.2)) messages ->
  unpack_outcome f tp
    (forallb (fun e : Z * Z * Message => unpackable (_check_crcs f) e.2) messages)
    (set_leaves messages) (_unpack_message_set f tp messages).
Proof.
  induction 1 as [|[[o sz] m] rest Hm _ IH]; cbn; [done|].
  specialize (Hm o). cbn in Hm.
  destruct (unpack_message f tp o m) as [rs|[| | | |[]]]; cbn in *; try done.
  - destruct Hm as [-> ->]. cbn.
    destruct (_unpack_message_set f tp rest) as [rs'|[| | | |[]]]; cbn in *; try done.
    destruct IH as [-> ->]. by rewrite fmap_app.
  - by rewrite Hm.
  - by destruct Hm as [-> ->].
Qed.

Lemma unpack_message_outcome f tp m : forall o,
  unpack_outcome f tp (unpackable (_check_crcs f) m) (leaves o m)
    (unpack_message f tp o m).
Proof.
  induction m as [|crc_ok k v|crc_ok inner IH] using Message_nested_ind; intros o.
  - done.
  - cbn [unpack_message unpackable leaves].
    destruct (_deserialize f k v) as [dk dv] eqn:Hd.
    destruct (_check_crcs f) eqn:Hc, crc_ok; cbn [andb negb orb];
      unfold unpack_outcome, record_of; rewrite ?Hd, ?Hc; try done.
    all: split; [done|]; cbn [fmap list_fmap]; by rewrite Hd.
  - rewrite unpack_compressed, leaves_compressed.
    pose proof (unpack_set_outcome f tp inner IH) as Hset.
    cbn [unpackable].
    destruct (_check_crcs f) eqn:Hc, crc_ok; cbn; try done.
Qed.

(** X6. Unpacking a message set either gives one record per plain message,
    left to right through the compressed containers, each with the offset
    of its own entry, the partition's topic and number and the deserialised
    key and value; or it fails, which happens exactly when some message is
    not unpackable: with [InvalidMessageError] (only when CRCs are checked)
    or with the [AttributeError] of a partial message, which has none of a
    message's methods. *)
Theorem unpack_message_set_outcome f tp (messages : MessageSet) :
  unpack_outcome f tp
    (forallb (fun e : Z * Z * Message => unpackable (_check_crcs f) e.2) messages)
    (set_leaves messages) (_unpack_message_set f tp messages).
Proof.
  apply unpack_set_outcome. apply Forall_forall.
  intros e _. apply unpack_message_outcome.
Qed.

(** X7. A compressed container whose CRC passes (or is not checked) is
    transparent: the message set unpacks as if the container's nested
    messages stood in its place; the container's own offset and size play no
    part. *)
Theorem compressed_container_is_transparent f tp pre o sz crc_ok inner rest
    (Hcrc : _check_crcs f && negb crc_ok = false) :
  _unpack_message_set f tp (pre ++ (o, sz, CompressedMessage crc_ok inner) :: rest)
  = _unpack_message_set f tp (pre ++ inner ++ rest).
Proof.
  rewrite !unpack_app. cbn [_unpack_message_set].
  rewrite unpack_compressed, Hcrc.
  destruct (_unpack_message_set f tp pre) as [ra|]; cbn; [|done].
  destruct (_unpack_message_set f tp inner) as [ri|]; cbn; [|done].
  by destruct (_unpack_message_set f tp rest).
Qed.

Lemma compressed_container_is_transparent_witness :
  _unpack_message_set (fetcher_with (subs_at 10) [] ∅) tp0
    ([] ++ (11, 100, CompressedMessage true
                       [(8, 10, PlainMessage true "k" "a");
                        (9, 10, PlainMessage true "k" "b")])
        :: [(12, 10, PlainMessage true "k" "c")])
  = _unpack_message_set (fetcher_with (subs_at 10) [] ∅) tp0
      ([] ++ [(8, 10, PlainMessage true "k" "a");
              (9, 10, PlainMessage true "k" "b")]
          ++ [(12, 10, PlainMessage true "k" "c")]).
Proof.
  apply (compressed_container_is_transparent (fetcher_with (subs_at 10) [] ∅)).
  reflexivity.
Defined.

Lemma unpacked_records_of_partition f tp (messages : MessageSet) rs :
  _unpack_message_set f tp messages = Ok rs ->
  Forall (fun r => record_tp r = tp) rs
  /\ offset <$> rs = (fun leaf : Z * string * string => leaf.1.1) <$> set_leaves messages.
Proof.
  intros Hrun.
  assert (unpack_outcome f tp
            (forallb (fun e : Z * Z * Message => unpackable (_check_crcs f) e.2) messages)
            (set_leaves messages) (_unpack_message_set f tp messages)) as H.
  { apply unpack_set_outcome. apply Forall_forall.
    intros e _. apply unpack_message_outcome. }
  rewrite Hrun in H. destruct H as [_ ->]. split.
  - apply Forall_fmap, Forall_forall. intros [[o k] v] _. cbn. by destruct tp.
  - rewrite <- list_fmap_compose. apply list_fmap_ext. by intros ? [[o k] v].
Qed.

(** ** Fetch request planner: what is asked of whom *)

Lemma listed_nil node_id tp info : ~ listed [] node_id tp info.
Proof. intros (td & infos & Hin & _). by apply not_elem_of_nil in Hin. Qed.

Lemma elem_of_append_topic_iff t info d t' (i : PartitionInfo) :
  (exists infos, (t', infos) ∈ append_topic t info d /\ i ∈ infos)
  <-> (exists infos, (t', infos) ∈ d /\ i ∈ infos) \/ (t' = t /\ i = info).
Proof.
  induction d as [|[k l] d IH]; cbn.
  - split.
    + intros (infos & [= -> ->]%list_elem_of_singleton & ->%list_elem_of_singleton).
      by right.
    + intros [(infos & Hin & _)|[-> ->]]; [by apply not_elem_of_nil in Hin|].
      exists [info]. split; apply list_elem_of_here.
  - destruct (decide (k = t)) as [->|Hk].
    + split.
      * intros (infos & [[= -> ->]|Hin]%elem_of_cons & Hi).
        -- apply elem_of_app in Hi as [Hi| ->%list_elem_of_singleton]; [|by right].
           left. exists l. split; [apply list_elem_of_here | done].
        -- left. exists infos. split; [by apply list_elem_of_further | done].
      * intros [(infos & [[= -> ->]|Hin]%elem_of_cons & Hi)|[-> ->]].
        -- exists (l ++ [info]). split; [apply list_elem_of_here|].
           apply elem_of_app. by left.
        -- exists infos. split; [by apply list_elem_of_further | done].
        -- exists (l ++ [info]). split; [apply list_elem_of_here|].
           apply elem_of_app. right. apply list_elem_of_here.
    + split.
      * intros (infos & [[= -> ->]|Hin]%elem_of_cons & Hi).
        -- left. exists l. split; [apply list_elem_of_here | done].
        -- destruct (proj1 IH (ex_intro _ infos (conj Hin Hi)))
             as [(infos0 & Hin0 & Hi0)|?]; [|by right].
           left. exists infos0. split; [by apply list_elem_of_further | done].
      * intros [(infos & [[= -> ->]|Hin]%elem_of_cons & Hi)|Hnew].
        -- exists l. split; [apply list_elem_of_here | done].
        -- destruct (proj2 IH (or_introl (ex_intro _ infos (conj Hin Hi))))
             as (infos0 & Hin0 & Hi0).
           exists infos0. split; [by apply list_elem_of_further | done].
        -- destruct (proj2 IH (or_intror Hnew)) as (infos0 & Hin0 & Hi0).
           exists infos0. split; [by apply list_elem_of_further | done].
Qed.

Lemma elem_of_append_node_iff n t info d node t' (i : PartitionInfo) :
  (exists td, (node, td) ∈ append_node n t info d
              /\ exists infos, (t', infos) ∈ td /\ i ∈ infos)
  <-> (exists td, (node, td) ∈ d /\ exists infos, (t', infos) ∈ td /\ i ∈ infos)
      \/ (node = n /\ t' = t /\ i = info).
Proof.
  induction d as [|[k td0] d IH]; cbn.
  - split.
    + intros (td & [= -> ->]%list_elem_of_singleton & infos
              & [= -> ->]%list_elem_of_singleton & ->%list_elem_of_singleton).
      by right.
    + intros [(td & Hin & _)|(-> & -> & ->)]; [by apply not_elem_of_nil in Hin|].
      exists [(t, [info])]. split; [apply list_elem_of_here|].
      exists [info]. split; apply list_elem_of_here.
  - destruct (decide (k = n)) as [->|Hk].
    + split.
      * intros (td & [[= -> ->]|Hin]%elem_of_cons & Hi).
        -- apply elem_of_append_topic_iff in Hi as [Hi|[-> ->]]; [|by right].
           left. exists td0. split; [apply list_elem_of_here | done].
        -- left. exists td. split; [by apply list_elem_of_further | done].
      * intros [(td & [[= -> ->]|Hin]%elem_of_cons & Hi)|(-> & -> & ->)].
        -- exists (append_topic t info td0). split; [apply list_elem_of_here|].
           apply elem_of_append_topic_iff. by left.
        -- exists td. split; [by apply list_elem_of_further | done].
        -- exists (append_topic t info td0). split; [apply list_elem_of_here|].
           apply elem_of_append_topic_iff. by right.
    + split.
      * intros (td & [[= -> ->]|Hin]%elem_of_cons & Hi).
        -- left. exists td0. split; [apply list_elem_of_here | done].
        -- destruct (proj1 IH (ex_intro _ td (conj Hin Hi)))
             as [(td1 & Hin1 & Hi1)|?]; [|by right].
           left. exists td1. split; [by apply list_elem_of_further | done].
      * intros [(td & [[= -> ->]|Hin]%elem_of_cons & Hi)|Hnew].
        -- exists td0. split; [apply list_elem_of_here | done].
        -- destruct (proj2 IH (or_introl (ex_intro _ td (conj Hin Hi))))
             as (td1 & Hin1 & Hi1).
           exists td1. split; [by apply list_elem_of_further | done].
        -- destruct (proj2 IH (or_intror Hnew)) as (td1 & Hin1 & Hi1).
           exists td1. split; [by apply list_elem_of_further | done].
Qed.

Lemma listed_append n t info d node tp (i : PartitionInfo) :
  listed (append_node n t info d) node tp i
  <-> listed d node tp i
      \/ (node = n /\ topic tp = t /\ i = info /\ info.1.1 = partition tp).
Proof.
  unfold listed. split.
  - intros (td & infos & Hin & Ht & Hi & Hp).
    destruct (proj1 (elem_of_append_node_iff n t info d node (topic tp) i))
      as [(td1 & Hin1 & infos1 & Ht1 & Hi1)|(-> & -> & ->)]; eauto 10.
  - intros [(td & infos & Hin & Ht & Hi & Hp)|(-> & <- & -> & Hp)].
    + destruct (proj2 (elem_of_append_node_iff n t info d node (topic tp) i))
        as (td1 & Hin1 & infos1 & Ht1 & Hi1); eauto 10.
    + destruct (proj2 (elem_of_append_node_iff n (topic tp) info d n (topic tp) info))
        as (td1 & Hin1 & infos1 & Ht1 & Hi1); eauto 10.
Qed.

(** The planning loop adds to the grouped partitions exactly the
    partitions of its input that are to be planned. *)
Lemma plan_partitions_listed f c order : forall d d',
  plan_partitions f c order d = Ok d' ->
  forall node tp info,
    listed d' node tp info
    <-> listed d node tp info \/ (tp ∈ order /\ planned f c node tp info).
Proof.
  induction order as [|tp0 rest IH]; intros d d' Hrun node tp info.
  { cbn in Hrun. injection Hrun as <-. split; [by left|].
    intros [?|[?%not_elem_of_nil _]]; done. }
  cbn [plan_partitions] in Hrun.
  assert (~ planned f c node tp0 info ->
          (listed d node tp info \/ (tp ∈ rest /\ planned f c node tp info))
          <-> (listed d node tp info \/ (tp ∈ tp0 :: rest /\ planned f c node tp info)))
    as Hskip.
  { intros Hnot. rewrite elem_of_cons. split; [tauto|].
    intros [?|[[->|?] ?]]; tauto. }
  destruct (OrderedDict.contains tp0 (_records f)) eqn:Hc.
  { rewrite (IH _ _ Hrun). apply Hskip. intros (Hget & _).
    unfold OrderedDict.contains in Hc. rewrite Hget in Hc.
    apply bool_decide_eq_true in Hc. by destruct Hc. }
  assert (OrderedDict.get tp0 (_records f) = None) as Hget.
  { apply get_None_keys. by apply not_contains_keys. }
  destruct (in_flight_has f (leader_for_partition c tp0)) eqn:Hfl.
  { rewrite (IH _ _ Hrun). apply Hskip. intros (_ & Hl & _ & Hnin & _).
    rewrite Hl in Hfl. cbn in Hfl. by apply bool_decide_eq_true in Hfl. }
  destruct (leader_for_partition c tp0) as [n|] eqn:Hl.
  2:{ rewrite (IH _ _ Hrun). apply Hskip. intros (_ & ? & _). congruence. }
  destruct (Z.eqb_spec n (-1)) as [->|Hn].
  { rewrite (IH _ _ Hrun). apply Hskip. intros (_ & ? & ? & _). congruence. }
  unfold get_position in Hrun.
  destruct (assignment (_subscriptions f) !! tp0) as [st|] eqn:Hst; [|done].
  cbn in Hrun. rewrite (IH _ _ Hrun), listed_append, elem_of_cons.
  cbn in Hfl. apply bool_decide_eq_false in Hfl.
  split.
  - intros [[Hd|(-> & Ht & -> & Hp)]|[Hin Hpl]]; [by left | | tauto].
    right. assert (tp = tp0) as ->.
    { destruct tp, tp0. cbn in *. congruence. }
    split; [by left|]. unfold planned. rewrite Hl, Hst. eauto 10.
  - intros [Hd|[[->|Hin] Hpl]]; [tauto | | tauto].
    left. right. destruct Hpl as (_ & Hl' & _ & _ & st' & Hst' & ->).
    rewrite Hl in Hl'. injection Hl' as <-.
    assert (st' = st) as -> by congruence. done.
Qed.

Lemma build_requests_listed f d node tp (info : PartitionInfo) :
  (exists req, (node, req) ∈ build_requests f d
               /\ exists infos, (topic tp, infos) ∈ topics req /\ info ∈ infos
                                /\ info.1.1 = partition tp)
  <-> listed d node tp info.
Proof.
  unfold listed, build_requests. split.
  - intros (req & Hin & infos & Ht & Hi & Hp).
    apply list_elem_of_fmap in Hin as ([n td] & [= -> ->] & Hin). cbn in Ht.
    eauto 10.
  - intros (td & infos & Hin & Ht & Hi & Hp).
    exists {| replica_id := -1; max_wait_time := _fetch_max_wait_ms f;
              min_bytes := _fetch_min_bytes f; topics := td |}.
    split; [|by eauto].
    apply list_elem_of_fmap. by exists (node, td).
Qed.

(** X8. When an assignment is in place, the planner asks node [n] for
    partition [tp] exactly when [tp] is among the fetchable partitions it
    goes through, has no entry in the record map, has [n] as its known and
    available leader, and [n] has no request in flight; it then asks at the
    partition's current position, with [max_partition_fetch_bytes].  Every
    request has replica id -1 and the fetcher's wait and size settings. *)
Theorem planner_asks_exactly_what_is_due f c order requests
    (Hassigned : needs_partition_assignment (_subscriptions f) = false)
    (Hplan : _create_fetch_requests_in order f c = Ok requests) :
  (forall node req,
      (node, req) ∈ requests ->
      replica_id req = -1
      /\ max_wait_time req = _fetch_max_wait_ms f
      /\ min_bytes req = _fetch_min_bytes f)
  /\ forall node tp info,
       (exists req, (node, req) ∈ requests
                    /\ exists infos, (topic tp, infos) ∈ topics req /\ info ∈ infos
                                     /\ info.1.1 = partition tp)
       <-> tp ∈ order /\ planned f c node tp info.
Proof.
  unfold _create_fetch_requests_in in Hplan. rewrite Hassigned in Hplan.
  destruct (plan_partitions f c order []) as [d|] eqn:Hd; [|done].
  cbn in Hplan. injection Hplan as <-. split.
  - intros node req Hin. unfold build_requests in Hin.
    by apply list_elem_of_fmap in Hin as ([n td] & [= -> ->] & _).
  - intros node tp info.
    rewrite build_requests_listed, (plan_partitions_listed _ _ _ _ _ Hd).
    split; [|tauto]. intros [?%listed_nil|?]; tauto.
Qed.

Lemma planner_asks_exactly_what_is_due_witness :
  (exists req,
      (1, req) ∈ [(1, request_at 5)]
      /\ exists infos, (topic tp0, infos) ∈ topics req
                       /\ (0, 5, 1048576) ∈ infos
                       /\ (0, 5, 1048576).1.1 = partition tp0)
  <-> tp0 ∈ [tp0]
      /\ planned (fetcher_with (subs_at 5) [] ∅) (client_with (Some 1) true (Ok []))
           1 tp0 (0, 5, 1048576).
Proof.
  assert (_create_fetch_requests_in [tp0] (fetcher_with (subs_at 5) [] ∅)
            (client_with (Some 1) true (Ok [])) = Ok [(1, request_at 5)]) as Hplan
    by (vm_compute; reflexivity).
  apply (proj2 (planner_asks_exactly_what_is_due
                  (fetcher_with (subs_at 5) [] ∅)
                  (client_with (Some 1) true (Ok [])) [tp0] [(1, request_at 5)]
                  eq_refl Hplan) 1 tp0 (0, 5, 1048576)).
Defined.

Lemma fetch_offsets_fold_partitions (tp : TopicPartition) o t
    (infos : list PartitionInfo) : forall (m : gmap TopicPartition Z),
  (forall info, info ∈ infos -> t = topic tp -> info.1.1 = partition tp ->
                info.1.2 = o) ->
  m !! tp = Some o
  \/ (t = topic tp /\ exists info, info ∈ infos /\ info.1.1 = partition tp) ->
  foldl (fun (m : gmap TopicPartition Z) '(p, o, _) => <[TP t p := o]> m) m infos
    !! tp = Some o.
Proof.
  induction infos as [|[[p' o'] mb] infos IH]; intros m Hall Hor; cbn.
  - destruct Hor as [?|(_ & info & ?%not_elem_of_nil & _)]; done.
  - apply IH.
    { intros info Hin. apply Hall. by apply list_elem_of_further. }
    destruct (decide (TP t p' = tp)) as [<-|Hne].
    + left. rewrite lookup_insert_eq. f_equal.
      apply (Hall (p', o', mb)); [apply list_elem_of_here | done | done].
    + rewrite lookup_insert_ne by done.
      destruct Hor as [?|(-> & info & [->|Hin]%elem_of_cons & Hp)]; [by left| |].
      * cbn in Hp. subst p'. destruct Hne. by destruct tp.
      * right. eauto.
Qed.

Lemma fetch_offsets_fold_topics (tp : TopicPartition) o
    (tps : list (string * list PartitionInfo)) : forall (m : gmap TopicPartition Z),
  (forall infos info, (topic tp, infos) ∈ tps -> info ∈ infos ->
                      info.1.1 = partition tp -> info.1.2 = o) ->
  m !! tp = Some o
  \/ (exists infos info, (topic tp, infos) ∈ tps /\ info ∈ infos
                         /\ info.1.1 = partition tp) ->
  foldl (fun (m : gmap TopicPartition Z) '(t, partitions) =>
           foldl (fun (m : gmap TopicPartition Z) '(p, o, _) => <[TP t p := o]> m)
                 m partitions) m tps
    !! tp = Some o.
Proof.
  induction tps as [|[t infos0] tps IH]; intros m Hall Hor; cbn.
  - destruct Hor as [?|(infos & info & ?%not_elem_of_nil & _)]; done.
  - apply IH.
    { intros infos info Hin. apply Hall. by apply list_elem_of_further. }
    destruct (decide (m !! tp = Some o)) as [Hm|Hm].
    + left. apply fetch_offsets_fold_partitions; [|by left].
      intros info Hin -> Hp. apply (Hall infos0); [apply list_elem_of_here | done | done].
    + destruct Hor as [?|(infos & info & [[= <- ->]|Hin]%elem_of_cons & Hi & Hp)];
        [done| |].
      * left. apply fetch_offsets_fold_partitions.
        -- intros info' Hin' _ Hp'.
           apply (Hall infos0); [apply list_elem_of_here | done | done].
        -- right. eauto.
      * right. eauto.
Qed.

(** X9. A request made by the planner carries, for each partition it
    lists, that partition's position at planning time, and the processor's
    [fetch_offsets] finds it there: no listed partition is without its
    requested offset. *)
Theorem planned_request_keeps_positions f c order requests node req
    (Hassigned : needs_partition_assignment (_subscriptions f) = false)
    (Hplan : _create_fetch_requests_in order f c = Ok requests)
    (Hreq : (node, req) ∈ requests) :
  forall tp, tp ∈ request_partitions req ->
    exists st,
      assignment (_subscriptions f) !! tp = Some st
      /\ fetch_offsets_of req !! tp = Some (position st).
Proof.
  unfold _create_fetch_requests_in in Hplan. rewrite Hassigned in Hplan.
  destruct (plan_partitions f c order []) as [d|] eqn:Hd; [|done].
  cbn in Hplan. injection Hplan as <-.
  assert (forall tp infos info,
            (topic tp, infos) ∈ topics req -> info ∈ infos ->
            info.1.1 = partition tp ->
            exists st, assignment (_subscriptions f) !! tp = Some st
                       /\ info.1.2 = position st) as Hlisted.
  { intros tp infos info Ht Hi Hp.
    assert (listed d node tp info) as Hl.
    { apply (build_requests_listed f). eauto 10. }
    apply (plan_partitions_listed _ _ _ _ _ Hd) in Hl
      as [?%listed_nil|[_ (_ & _ & _ & _ & st & Hst & ->)]]; [done|].
    eauto. }
  intros tp Htp. unfold request_partitions in Htp.
  apply list_elem_of_bind in Htp as ([t infos] & Htp & Ht).
  apply list_elem_of_fmap in Htp as (info & -> & Hinfo).
  destruct (Hlisted (TP t info.1.1) infos info Ht Hinfo eq_refl) as (st & Hst & Ho).
  exists st. split; [done|]. unfold fetch_offsets_of.
  apply fetch_offsets_fold_topics.
  - intros infos' info' Ht' Hi' Hp'.
    destruct (Hlisted _ _ _ Ht' Hi' Hp') as (st' & Hst' & ->). congruence.
  - right. exists infos, info. done.
Qed.

Lemma planned_request_keeps_positions_witness :
  exists st,
    assignment (subs_at 5) !! tp0 = Some st
    /\ fetch_offsets_of (request_at 5) !! tp0 = Some (position st).
Proof.
  assert (_create_fetch_requests_in [tp0] (fetcher_with (subs_at 5) [] ∅)
            (client_with (Some 1) true (Ok [])) = Ok [(1, request_at 5)]) as Hplan
    by (vm_compute; reflexivity).
  apply (planned_request_keeps_positions
           (fetcher_with (subs_at 5) [] ∅) (client_with (Some 1) true (Ok []))
           [tp0] [(1, request_at 5)] 1 (request_at 5) eq_refl Hplan).
  - apply list_elem_of_here.
  - apply list_elem_of_here.
Defined.

(** ** Fetch response processor: what a response can and cannot do *)

Lemma set_keys {V} tp (v : V) d :
  OrderedDict.keys (OrderedDict.set tp v d)
  = if bool_decide (tp ∈ OrderedDict.keys d) then OrderedDict.keys d
    else OrderedDict.keys d ++ [tp].
Proof.
  unfold OrderedDict.keys. induction d as [|[k w] d IH]; cbn.
  - rewrite bool_decide_eq_false_2; [done | apply not_elem_of_nil].
  - destruct (decide (k = tp)) as [->|Hk]; cbn.
    + rewrite bool_decide_eq_true_2; [done | apply list_elem_of_here].
    + rewrite IH. case_bool_decide as Hin.
      * rewrite bool_decide_eq_true_2; [done | by apply list_elem_of_further].
      * rewrite bool_decide_eq_false_2; [done|].
        rewrite elem_of_cons. intros [?|?]; congruence.
Qed.

Lemma set_NoDup {V} tp (v : V) d :
  NoDup (OrderedDict.keys d) -> NoDup (OrderedDict.keys (OrderedDict.set tp v d)).
Proof.
  intros Hnd. rewrite set_keys. case_bool_decide as Hin; [done|].
  apply NoDup_app. repeat split; [done | | apply NoDup_singleton].
  intros x Hx ->%list_elem_of_singleton. done.
Qed.

Lemma set_keeps_keys {V} tp (v : V) d tp' :
  is_Some (OrderedDict.get tp' d) ->
  is_Some (OrderedDict.get tp' (OrderedDict.set tp v d)).
Proof.
  intros H. destruct (decide (tp = tp')) as [->|Hne].
  - rewrite get_set_eq. eauto.
  - by rewrite get_set_ne.
Qed.

Lemma touches_only_refl tps f : touches_only tps f f.
Proof. unfold touches_only. split_and!; try done; lia. Qed.

Lemma touches_only_trans tps1 tps2 f1 f2 f3 :
  touches_only tps1 f1 f2 -> touches_only tps2 f2 f3 ->
  touches_only (tps1 ++ tps2) f1 f3.
Proof.
  unfold touches_only.
  intros (? & ? & ? & ? & ? & ? & ? & ? & ? & ? & ? & Hnd1 & Hk1 & Hf1)
         (? & ? & ? & ? & ? & ? & ? & ? & ? & ? & ? & Hnd2 & Hk2 & Hf2).
  split_and!; try congruence; try lia; auto.
  intros tp [Hn1 Hn2]%not_elem_of_app.
  destruct (Hf1 tp Hn1), (Hf2 tp Hn2). split; congruence.
Qed.

Lemma touches_only_mono tps1 tps2 f f' :
  tps1 ⊆ tps2 -> touches_only tps1 f f' -> touches_only tps2 f f'.
Proof.
  unfold touches_only. intros Hsub H.
  split_and!; try apply H.
  intros tp Hn. apply H. intros Hin. apply Hn, Hsub, Hin.
Qed.

Lemma touches_only_records tp f v d :
  _records f = d ->
  touches_only [tp] f (with_records f (OrderedDict.set tp v d)).
Proof.
  intros <-. unfold touches_only. cbn. split_and!; try done; try lia.
  - apply set_NoDup.
  - intros tp'. apply set_keeps_keys.
  - intros tp' Hn. split; [|done].
    apply get_set_ne. intros ->. apply Hn, list_elem_of_here.
Qed.

Lemma touches_only_subscriptions tp f s :
  needs_partition_assignment s = needs_partition_assignment (_subscriptions f) ->
  default_offset_reset_strategy s = default_offset_reset_strategy (_subscriptions f) ->
  (forall tp', tp' <> tp -> assignment s !! tp' = assignment (_subscriptions f) !! tp') ->
  touches_only [tp] f (with_subscriptions f s).
Proof.
  unfold touches_only. cbn. intros Hn Hd Hf. split_and!; try done; try lia.
  intros tp' Hnin. split; [done|].
  apply Hf. intros ->. apply Hnin, list_elem_of_here.
Qed.

Lemma set_highwater_frame s tp h s1 :
  set_highwater s tp h = Ok s1 ->
  needs_partition_assignment s1 = needs_partition_assignment s
  /\ default_offset_reset_strategy s1 = default_offset_reset_strategy s
  /\ (forall tp', tp' <> tp -> assignment s1 !! tp' = assignment s !! tp')
  /\ exists st, assignment s !! tp = Some st
                /\ assignment s1 !! tp = Some (with_highwater st (Some h)).
Proof.
  unfold set_highwater. destruct (assignment s !! tp) as [st|] eqn:Hst; [|done].
  intros [= <-]. cbn. repeat split; try done.
  - intros tp' Hne. by rewrite lookup_insert_ne.
  - exists st. by rewrite lookup_insert_eq.
Qed.

Lemma need_offset_reset_frame s tp s1 :
  need_offset_reset s tp = Ok s1 ->
  needs_partition_assignment s1 = needs_partition_assignment s
  /\ default_offset_reset_strategy s1 = default_offset_reset_strategy s
  /\ (forall tp', tp' <> tp -> assignment s1 !! tp' = assignment s !! tp').
Proof.
  unfold need_offset_reset. destruct (assignment s !! tp) as [st|]; [|done].
  intros [= <-]. cbn. repeat split; try done.
  intros tp' Hne. by rewrite lookup_insert_ne.
Qed.

Lemma touches_only_same tp f1 f2 f3 :
  touches_only [tp] f1 f2 -> touches_only [tp] f2 f3 -> touches_only [tp] f1 f3.
Proof.
  intros H1 H2. eapply touches_only_mono; [|by eapply touches_only_trans].
  intros x [?|?]%elem_of_app; done.
Qed.

Lemma touches_only_metadata tps f : touches_only tps f (force_metadata_update f).
Proof. unfold touches_only. cbn. split_and!; try done. lia. Qed.

Lemma unpack_raises f tp (messages : MessageSet) e :
  _unpack_message_set f tp messages = Raise e ->
  e = AttributeError \/ exists m, e = Kafka (InvalidMessageError m).
Proof.
  intros Hrun.
  assert (unpack_outcome f tp
            (forallb (fun e : Z * Z * Message => unpackable (_check_crcs f) e.2) messages)
            (set_leaves messages) (_unpack_message_set f tp messages)) as H.
  { apply unpack_set_outcome. apply Forall_forall.
    intros x _. apply unpack_message_outcome. }
  rewrite Hrun in H. destruct e as [| | | |[]]; cbn in H; try done; eauto.
Qed.

(** One entry of a response: only its own partition is touched, and no
    Kafka error comes out. *)
Lemma proc_partition_touches fo t p error_code hw messages w f r f' :
  proc_partition fo t (p, error_code, hw, messages) w f = (r, f') ->
  touches_only [TP t p] f f' /\ forall e, r <> Raise (Kafka e).
Proof.
  unfold proc_partition.
  destruct (is_fetchable (_subscriptions f) (TP t p)); cbn [negb].
  2:{ intros [= <- <-]. split; [apply touches_only_refl | done]. }
  destruct (for_code error_code).
  - (* NoError *)
    destruct (set_highwater (_subscriptions f) (TP t p) hw) as [s1|e1] eqn:Hhw.
    2:{ intros [= <- <-]. split; [apply touches_only_refl|].
        unfold set_highwater in Hhw.
        destruct (assignment (_subscriptions f) !! TP t p); by simplify_eq. }
    destruct (set_highwater_frame _ _ _ _ Hhw) as (Hn & Hd & Hf & _).
    pose proof (touches_only_subscriptions (TP t p) f s1 Hn Hd Hf) as T1.
    set (f1 := with_subscriptions f s1) in *.
    destruct (fo !! TP t p) as [fetch_offset|].
    2:{ by intros [= <- <-]. }
    destruct (pop_partial messages) as [partial msgs'].
    destruct msgs' as [|m0 msgs'].
    + destruct partial as [pm|].
      2:{ by intros [= <- <-]. }
      set (f2 := with_records f1 _).
      assert (touches_only [TP t p] f1 f2) as T2
        by (by apply touches_only_records).
      destruct (incr_position (_subscriptions f2) (TP t p)) as [s2|e2] eqn:Hinc.
      * intros [= <- <-]. split; [|done].
        destruct (incr_position_only_position _ _ _ Hinc) as (Hn2 & Hd2 & Hf2 & _).
        apply (touches_only_same _ f f2); [by apply (touches_only_same _ f f1)|].
        by apply touches_only_subscriptions.
      * intros [= <- <-]. split; [by apply (touches_only_same _ f f1)|].
        unfold incr_position in Hinc.
        destruct (assignment (_subscriptions f2) !! TP t p); by simplify_eq.
    + destruct (_unpack_message_set f1 (TP t p) (m0 :: msgs')) as [rs|e] eqn:Hun.
      * intros [= <- <-]. split; [|done].
        apply (touches_only_same _ f f1); [exact T1 | by apply touches_only_records].
      * destruct (unpack_raises _ _ _ _ Hun) as [->|[m ->]].
        -- by intros [= <- <-].
        -- intros [= <- <-]. split; [|done].
           apply (touches_only_same _ f f1); [exact T1 | by apply touches_only_records].
  - (* OffsetOutOfRange *)
    destruct (fo !! TP t p) as [fetch_offset|].
    2:{ intros [= <- <-]. split; [apply touches_only_refl | done]. }
    destruct (has_default_offset_reset_policy (_subscriptions f)).
    + destruct (need_offset_reset (_subscriptions f) (TP t p)) as [s1|e1] eqn:Hr.
      * intros [= <- <-]. split; [|done].
        destruct (need_offset_reset_frame _ _ _ Hr) as (Hn & Hd & Hf).
        by apply touches_only_subscriptions.
      * intros [= <- <-]. split; [apply touches_only_refl|].
        unfold need_offset_reset in Hr.
        destruct (assignment (_subscriptions f) !! TP t p); by simplify_eq.
    + intros [= <- <-]. split; [by apply touches_only_records | done].
  - intros [= <- <-]. split; [apply touches_only_metadata | done].
  - intros [= <- <-]. split; [apply touches_only_metadata | done].
  - intros [= <- <-]. split; [by apply touches_only_records | done].
  - intros [= <- <-]. split; [apply touches_only_refl | done].
Qed.

Lemma proc_topics_touches fo (response : FetchResponse) : forall w f r f',
  proc_topics fo response w f = (r, f') ->
  touches_only (response_partitions response) f f' /\ forall e, r <> Raise (Kafka e).
Proof.
  assert (forall t partitions w f r f',
            proc_partitions fo t partitions w f = (r, f') ->
            touches_only ((fun e : Z * Z * Z * MessageSet => TP t e.1.1.1) <$> partitions)
              f f'
            /\ forall e, r <> Raise (Kafka e)) as Hparts.
  { intros t partitions.
    induction partitions as [|[[[p c] hw] ms] rest IH]; intros w f r f';
      cbn [proc_partitions fmap list_fmap].
    - intros [= <- <-]. split; [apply touches_only_refl | done].
    - destruct (proc_partition fo t (p, c, hw, ms) w f) as [r1 f1] eqn:H1.
      destruct (proc_partition_touches _ _ _ _ _ _ _ _ _ _ H1) as [T1 N1].
      destruct r1 as [w1|e1].
      + intros (T2 & N2)%IH. split; [|done].
        by apply (touches_only_trans [TP t p] _ f f1).
      + intros [= <- <-]. split; [|done].
        eapply touches_only_mono; [|exact T1].
        intros x ->%list_elem_of_singleton. apply list_elem_of_here. }
  induction response as [|[t partitions] rest IH]; intros w f r f';
    cbn [proc_topics].
  - intros [= <- <-]. split; [apply touches_only_refl | done].
  - change (response_partitions ((t, partitions) :: rest))
      with (((fun e : Z * Z * Z * MessageSet => TP t e.1.1.1) <$> partitions)
            ++ response_partitions rest).
    destruct (proc_partitions fo t partitions w f) as [r1 f1] eqn:H1.
    destruct (Hparts _ _ _ _ _ _ H1) as [T1 N1].
    destruct r1 as [w1|e1].
    + intros (T2 & N2)%IH. split; [|done].
      by apply (touches_only_trans _ _ f f1).
    + intros [= <- <-]. split; [|done].
      eapply touches_only_mono; [|exact T1].
      intros x Hx. apply elem_of_app. by left.
Qed.

(** X10. Whatever [send] gave, once [_proc_fetch_request] is over the node
    has left the in-flight set and the set is otherwise the same; a Kafka
    error of [send] makes it return false and change nothing else; and no
    Kafka error ever comes out of it: those are logged or stored in the
    record map.  Without the node in the in-flight set, the removal itself
    fails with KeyError. *)
Theorem processor_frees_node_and_keeps_kafka_errors node_id request response f :
  (node_id ∈ _in_flight f ->
   forall r f',
     _proc_fetch_request node_id request response f = (r, f') ->
     _in_flight f' = _in_flight f ∖ {[node_id]}
     /\ (forall e, r <> Raise (Kafka e))
     /\ (forall e, response = Raise (Kafka e) ->
           r = Ok false /\ f' = with_in_flight f (_in_flight f ∖ {[node_id]})))
  /\ (node_id ∉ _in_flight f ->
      _proc_fetch_request node_id request response f = (Raise KeyError, f)).
Proof.
  unfold _proc_fetch_request. split.
  - intros Hin r f'. rewrite bool_decide_eq_true_2 by done.
    destruct response as [resp|[| | | |e]]; try (by intros [= <- <-]).
    intros Hrun. apply proc_topics_touches in Hrun as [T N].
    split; [|split; [done|done]].
    destruct T as (_ & _ & _ & _ & _ & _ & Hfl & _). by rewrite Hfl.
  - intros Hnin. by rewrite bool_decide_eq_false_2.
Qed.

Lemma processor_frees_node_and_keeps_kafka_errors_witness :
  let f := fetcher_with (subs_at 3) [] {[1]} in
  let f' := with_in_flight f (_in_flight f ∖ {[1]}) in
  _in_flight f' = _in_flight f ∖ {[1]}
  /\ (forall e, @Ok bool false <> Raise (Kafka e))
  /\ (forall e, @Raise FetchResponse (Kafka (NodeNotReadyError 1)) = Raise (Kafka e) ->
        @Ok bool false = Ok false
        /\ f' = with_in_flight f (_in_flight f ∖ {[1]})).
Proof.
  intros f f'.
  apply (proj1 (processor_frees_node_and_keeps_kafka_errors 1 (request_at 3)
                  (Raise (Kafka (NodeNotReadyError 1))) f)).
  - vm_compute. reflexivity.
  - vm_compute. reflexivity.
Defined.

(** X11. Processing a response touches only the partitions the response
    has entries for: apart from the node leaving the in-flight set, the
    fetcher's settings and waiter are the same, the record map is still a
    dictionary and has lost no key, and the record map entry and the
    subscription state of every other partition are as before. *)
Theorem response_touches_only_its_partitions node_id request response f r f'
    (Hin : node_id ∈ _in_flight f)
    (Hrun : _proc_fetch_request node_id request (Ok response) f = (r, f')) :
  touches_only (response_partitions response)
    (with_in_flight f (_in_flight f ∖ {[node_id]})) f'.
Proof.
  unfold _proc_fetch_request in Hrun. rewrite bool_decide_eq_true_2 in Hrun by done.
  by apply proc_topics_touches in Hrun as [T _].
Qed.

Lemma response_touches_only_its_partitions_witness :
  let f := fetcher_with (subs_at 3) [(TP "U" 0, Buffer [])] {[1]} in
  touches_only
    (response_partitions [("T", [(0, 0, 10, [(3, 2000000, PartialMessage)])])])
    (with_in_flight f (_in_flight f ∖ {[1]}))
    (fetcher_with
       {| needs_partition_assignment := false;
          assignment := {[ tp0 := with_highwater (state_at 4) (Some 10) ]};
          default_offset_reset_strategy := OffsetResetStrategy.LATEST |}
       [(TP "U" 0, Buffer []); (tp0, Err (RecordTooLargeError tp0 3 1048576))]
       ∅).
Proof.
  intros f.
  assert (1 ∈ _in_flight f) as Hin by (vm_compute; reflexivity).
  refine (response_touches_only_its_partitions 1 (request_at 3)
            [("T", [(0, 0, 10, [(3, 2000000, PartialMessage)])])]
            f (Ok true) _ Hin _).
  vm_compute. reflexivity.
Defined.

Lemma unpack_ignores_subscriptions f s tp (messages : MessageSet) :
  _unpack_message_set (with_subscriptions f s) tp messages
  = _unpack_message_set f tp messages.
Proof.
  assert (forall m o, unpack_message (with_subscriptions f s) tp o m
                      = unpack_message f tp o m) as Hm.
  { intros m. induction m as [|crc_ok k v|crc_ok inner IH] using Message_nested_ind;
      intros o; [done | done |].
    rewrite !unpack_compressed. cbn [_check_crcs with_subscriptions].
    destruct (_check_crcs f && negb crc_ok); [done|].
    induction IH as [|[[o' sz] m] rest Hhd _ IHl]; [done|].
    cbn [_unpack_message_set]. cbn in Hhd. by rewrite Hhd, IHl. }
  induction messages as [|[[o sz] m] rest IH]; [done|].
  cbn [_unpack_message_set]. by rewrite Hm, IH.
Qed.

(** X12. An entry with error code NoError for a fetchable, requested
    partition whose messages (a trailing partial one apart) are not empty
    and all unpackable puts a buffer into the record map that holds one
    record per plain message, all of them of this partition; it stores the
    high-watermark, leaves the position alone and reports new data. *)
Theorem records_entry_installs_buffer
    fetch_offsets t p error_code hw messages partial m0 ms w f fetch_offset
    (Hfetchable : is_fetchable (_subscriptions f) (TP t p) = true)
    (Hcode : for_code error_code = NoError)
    (Hrequested : fetch_offsets !! TP t p = Some fetch_offset)
    (Hfull : pop_partial messages = (partial, m0 :: ms))
    (Hgood : forallb (fun e : Z * Z * Message => unpackable (_check_crcs f) e.2)
               (m0 :: ms) = true) :
  exists f' st,
    proc_partition fetch_offsets t (p, error_code, hw, messages) w f = (Ok true, f')
    /\ OrderedDict.get (TP t p) (_records f')
       = Some (Buffer (record_of f (TP t p) <$> set_leaves (m0 :: ms)))
    /\ Forall (fun r => record_tp r = TP t p)
         (record_of f (TP t p) <$> set_leaves (m0 :: ms))
    /\ assignment (_subscriptions f) !! TP t p = Some st
    /\ assignment (_subscriptions f') !! TP t p = Some (with_highwater st (Some hw)).
Proof.
  destruct (is_fetchable_assigned _ _ Hfetchable) as (st & Hst & _ & _).
  unfold proc_partition. rewrite Hfetchable, Hcode. cbn [negb].
  unfold set_highwater. rewrite Hst, Hrequested, Hfull.
  set (s1 := with_assignment _ _).
  rewrite unpack_ignores_subscriptions.
  assert (unpack_outcome f (TP t p)
            (forallb (fun e : Z * Z * Message => unpackable (_check_crcs f) e.2)
               (m0 :: ms))
            (set_leaves (m0 :: ms)) (_unpack_message_set f (TP t p) (m0 :: ms))) as H.
  { apply unpack_set_outcome. apply Forall_forall.
    intros x _. apply unpack_message_outcome. }
  rewrite Hgood in H.
  destruct (_unpack_message_set f (TP t p) (m0 :: ms)) as [rs|[| | | |[]]] eqn:Hun;
    cbn in H; try done; try (by destruct H).
  destruct H as [_ ->].
  eexists _, st. split; [reflexivity|]. cbn [_records with_records _subscriptions
                                             with_subscriptions].
  split; [apply get_set_eq|]. split.
  { by apply (unpacked_records_of_partition f (TP t p) (m0 :: ms)). }
  split; [done|]. subst s1. cbn. by rewrite lookup_insert_eq.
Qed.

Lemma records_entry_installs_buffer_witness :
  exists f' st,
    proc_partition (fetch_offsets_of (request_at 5)) "T"
      (0, 0, 10, [(5, 10, PlainMessage true "k" "a")]) false
      (fetcher_with (subs_at 5) [] ∅) = (Ok true, f')
    /\ OrderedDict.get tp0 (_records f')
       = Some (Buffer (record_of (fetcher_with (subs_at 5) [] ∅) tp0
                         <$> set_leaves [(5, 10, PlainMessage true "k" "a")]))
    /\ Forall (fun r => record_tp r = tp0)
         (record_of (fetcher_with (subs_at 5) [] ∅) tp0
            <$> set_leaves [(5, 10, PlainMessage true "k" "a")])
    /\ assignment (subs_at 5) !! tp0 = Some st
    /\ assignment (_subscriptions f') !! tp0 = Some (with_highwater st (Some 10)).
Proof.
  apply (records_entry_installs_buffer (fetch_offsets_of (request_at 5)) "T" 0 0 10
           [(5, 10, PlainMessage true "k" "a")] None
           (5, 10, PlainMessage true "k" "a") [] false
           (fetcher_with (subs_at 5) [] ∅) 5).
  - reflexivity.
  - reflexivity.
  - vm_compute. reflexivity.
  - reflexivity.
  - reflexivity.
Defined.

(** X13. When unpacking such an entry's messages fails on a CRC, the
    [InvalidMessageError] becomes the partition's record map entry and the
    high-watermark is stored, but the has-new-data flag is left as it was:
    this entry alone does not wake the consumer. *)
Theorem invalid_message_entry_is_not_announced
    fetch_offsets t p error_code hw messages partial m0 ms w f fetch_offset bad
    (Hfetchable : is_fetchable (_subscriptions f) (TP t p) = true)
    (Hcode : for_code error_code = NoError)
    (Hrequested : fetch_offsets !! TP t p = Some fetch_offset)
    (Hfull : pop_partial messages = (partial, m0 :: ms))
    (Hbad : _unpack_message_set f (TP t p) (m0 :: ms)
            = Raise (Kafka (InvalidMessageError bad))) :
  exists f' st,
    proc_partition fetch_offsets t (p, error_code, hw, messages) w f = (Ok w, f')
    /\ OrderedDict.get (TP t p) (_records f') = Some (Err (InvalidMessageError bad))
    /\ assignment (_subscriptions f) !! TP t p = Some st
    /\ assignment (_subscriptions f') !! TP t p = Some (with_highwater st (Some hw)).
Proof.
  destruct (is_fetchable_assigned _ _ Hfetchable) as (st & Hst & _ & _).
  unfold proc_partition. rewrite Hfetchable, Hcode. cbn [negb].
  unfold set_highwater. rewrite Hst, Hrequested, Hfull.
  set (s1 := with_assignment _ _).
  rewrite unpack_ignores_subscriptions, Hbad.
  eexists _, st. split; [reflexivity|]. cbn [_records with_records _subscriptions
                                             with_subscriptions].
  split; [apply get_set_eq|]. split; [done|].
  subst s1. cbn. by rewrite lookup_insert_eq.
Qed.

Lemma invalid_message_entry_is_not_announced_witness :
  exists f' st,
    proc_partition (fetch_offsets_of (request_at 5)) "T"
      (0, 0, 10, [(5, 10, PlainMessage false "k" "a")]) false
      (fetcher_with (subs_at 5) [] ∅) = (Ok false, f')
    /\ OrderedDict.get tp0 (_records f')
       = Some (Err (InvalidMessageError (PlainMessage false "k" "a")))
    /\ assignment (subs_at 5) !! tp0 = Some st
    /\ assignment (_subscriptions f') !! tp0 = Some (with_highwater st (Some 10)).
Proof.
  apply (invalid_message_entry_is_not_announced
           (fetch_offsets_of (request_at 5)) "T" 0 0 10
           [(5, 10, PlainMessage false "k" "a")] None
           (5, 10, PlainMessage false "k" "a") [] false
           (fetcher_with (subs_at 5) [] ∅) 5).
  - reflexivity.
  - reflexivity.
  - vm_compute. reflexivity.
  - reflexivity.
  - reflexivity.
Defined.

(** ** Offset reset subsystem: responses, retries, the seek *)

(** X14. With a known, available and ready leader, [_proc_offset_request]
    sends exactly one OffsetRequest, for the one partition, the given
    timestamp and one offset.  An exception of [send] goes through; a
    response for exactly the requested partition gives its offset when the
    code is NoError and there is one offset, AssertionError when there is
    not, and the error class of any other code, made with the partition;
    any other response gives IndexError (no topic) or AssertionError, never
    an offset. *)
Theorem offset_request_exchange c tp timestamp node_id
    (Hleader : leader_for_partition c tp = Some node_id)
    (Hup : node_id <> -1)
    (Hready : ready c node_id = true) :
  let request : OffsetRequest :=
    (-1, [(topic tp, [(partition tp, timestamp, 1)])]) in
  let out := _proc_offset_request c tp timestamp in
  out.2 = [Send node_id request]
  /\ (forall e, send c node_id request = Raise e -> out.1 = Raise e)
  /\ (forall error_code offsets,
        send c node_id request
        = Ok [(topic tp, [(partition tp, error_code, offsets)])] ->
        out.1 = match for_code error_code with
                | NoError =>
                    match offsets with
                    | [offset] => Ok offset
                    | _ => Raise AssertionError
                    end
                | error_type => Raise (Kafka (BrokerError error_type tp))
                end)
  /\ (forall response,
        send c node_id request = Ok response ->
        (forall error_code offsets,
            response <> [(topic tp, [(partition tp, error_code, offsets)])]) ->
        out.1 = Raise (if decide (response = []) then IndexError else AssertionError)).
Proof.
  cbn zeta. unfold _proc_offset_request.
  apply Z.eqb_neq in Hup. rewrite Hleader, Hup, Hready. cbn [negb fst snd].
  split; [done|]. split; [|split].
  - by intros e ->.
  - intros code offsets ->. cbn.
    rewrite !bool_decide_eq_true_2 by done. cbn.
    destruct (for_code code); try done.
    destruct offsets as [|o [|o' offsets]]; done.
  - intros response -> Hshape.
    destruct response as [|[t info] rest]; [done|]. cbn.
    rewrite decide_False by done.
    destruct rest as [|x rest].
    2:{ rewrite (bool_decide_eq_false_2 (S (length (x :: rest)) = 1%nat))
          by (cbn; lia). done. }
    destruct info as [|[[part code] offsets] [|y info]]; [done| |].
    2:{ rewrite (bool_decide_eq_false_2 (length (_ :: y :: info) = 1%nat))
          by (cbn; lia). by rewrite andb_false_r. }
    cbn.
    destruct (decide (t = topic tp)) as [->|Ht].
    2:{ by rewrite (bool_decide_eq_false_2 (t = topic tp)). }
    destruct (decide (part = partition tp)) as [->|Hp].
    2:{ rewrite (bool_decide_eq_false_2 (part = partition tp)) by done.
        by rewrite andb_false_r. }
    by destruct (Hshape code offsets).
Qed.

Lemma offset_request_exchange_witness :
  let c := client_with (Some 1) true (Ok [("T", [(0, 1, [])])]) in
  let request : OffsetRequest := (-1, [(topic tp0, [(partition tp0, -2, 1)])]) in
  let out := _proc_offset_request c tp0 (-2) in
  out.2 = [Send 1 request]
  /\ (forall e, send c 1 request = Raise e -> out.1 = Raise e)
  /\ (forall error_code offsets,
        send c 1 request
        = Ok [(topic tp0, [(partition tp0, error_code, offsets)])] ->
        out.1 = match for_code error_code with
                | NoError =>
                    match offsets with
                    | [offset] => Ok offset
                    | _ => Raise AssertionError
                    end
                | error_type => Raise (Kafka (BrokerError error_type tp0))
                end)
  /\ (forall response,
        send c 1 request = Ok response ->
        (forall error_code offsets,
            response <> [(topic tp0, [(partition tp0, error_code, offsets)])]) ->
        out.1 = Raise (if decide (response = []) then IndexError else AssertionError)).
Proof.
  intros c.
  apply (offset_request_exchange c tp0 (-2) 1); [reflexivity | lia | reflexivity].
Defined.

(** X15. [_offset] retries as long as the attempts fail with retriable
    Kafka errors and ends with the first attempt that does not: its offset,
    its non-retriable Kafka error or its other exception, whatever the
    client would have said later.  While every attempt so far has failed
    with a retriable error, it is still retrying. *)
Theorem offset_ends_with_first_decisive_attempt
    retriable invalid_metadata pre c later tp timestamp
    (Hretried : Forall (fun c' => exists e,
                   (_proc_offset_request c' tp timestamp).1 = Raise (Kafka e)
                   /\ retriable e = true) pre) :
  (_offset retriable invalid_metadata pre tp timestamp).1 = None
  /\ ((forall e, (_proc_offset_request c tp timestamp).1 = Raise (Kafka e) ->
                 retriable e = false) ->
      (_offset retriable invalid_metadata (pre ++ c :: later) tp timestamp).1
      = Some (_proc_offset_request c tp timestamp).1).
Proof.
  induction Hretried as [|c' pre (e & He & Hr) _ [IHnone IHsome]].
  - split; [done|]. intros Hdec. cbn.
    destruct (_proc_offset_request c tp timestamp) as [[o|[| | | |e]] calls];
      cbn in *; try done.
    rewrite (Hdec e) by done. done.
  - cbn. destruct (_proc_offset_request c' tp timestamp) as [r calls].
    cbn in He. subst r. rewrite Hr. cbn. split.
    + by destruct (_offset retriable invalid_metadata pre tp timestamp).
    + intros Hdec. specialize (IHsome Hdec).
      by destruct (_offset retriable invalid_metadata (pre ++ c :: later) tp timestamp).
Qed.

Lemma offset_ends_with_first_decisive_attempt_witness :
  (_offset spec_retriable spec_invalid_metadata
     [client_with None true (Ok [])] tp0 (-1)).1 = None
  /\ ((forall e,
         (_proc_offset_request
            (client_with (Some 1) true (Ok [("T", [(0, 0, [42])])])) tp0 (-1)).1
         = Raise (Kafka e) -> spec_retriable e = false) ->
      (_offset spec_retriable spec_invalid_metadata
         ([client_with None true (Ok [])]
          ++ client_with (Some 1) true (Ok [("T", [(0, 0, [42])])]) :: [])
         tp0 (-1)).1
      = Some (_proc_offset_request
                (client_with (Some 1) true (Ok [("T", [(0, 0, [42])])])) tp0 (-1)).1).
Proof.
  apply (offset_ends_with_first_decisive_attempt spec_retriable spec_invalid_metadata
           [client_with None true (Ok [])]).
  repeat constructor. exists (StaleMetadata tp0). split; reflexivity.
Defined.

(** X16. [_reset_offset] on a partition that is assigned when it starts
    makes the calls of [_offset] and no other, and ends as [_offset] does:
    an exception of [_offset] is passed on, and while [_offset] is still
    retrying so is the coroutine.  When [_offset] returns an offset the
    coroutine ends without an exception.  Conversely, when it ends without
    an exception [_offset] had found an offset, and the subscription state
    is the one found when the coroutine resumed, with the partition sought
    to that offset if it is still assigned (so fetchable unless paused) and
    untouched if the assignment was lost meanwhile; every other partition is
    as it was found.  An exception that leaves it is the one of [_offset],
    or the KeyError that a partition not assigned at the start gives before
    anything is sent. *)
Theorem reset_offset_seeks_if_still_assigned
    retriable invalid_metadata clients s s_resumed tp :
  let out := _reset_offset retriable invalid_metadata clients s s_resumed tp in
  (assignment s !! tp = None -> out = (Some (Raise KeyError), []))
  /\ (forall st, assignment s !! tp = Some st ->
        let run := _offset retriable invalid_metadata clients tp
                     (reset_strategy st) in
        out.2 = run.2
        /\ (forall e, run.1 = Some (Raise e) -> out.1 = Some (Raise e))
        /\ (run.1 = None -> out.1 = None)
        /\ (forall offset, run.1 = Some (Ok offset) ->
              exists s', out.1 = Some (Ok s')))
  /\ (forall e, out.1 = Some (Raise e) ->
        assignment s !! tp = None /\ e = KeyError
        \/ exists st, assignment s !! tp = Some st
             /\ (_offset retriable invalid_metadata clients tp
                   (reset_strategy st)).1 = Some (Raise e))
  /\ (forall s', out.1 = Some (Ok s') ->
        exists st offset,
          assignment s !! tp = Some st
          /\ (_offset retriable invalid_metadata clients tp (reset_strategy st)).1
             = Some (Ok offset)
          /\ (forall tp', tp' <> tp ->
                assignment s' !! tp' = assignment s_resumed !! tp')
          /\ match assignment s_resumed !! tp with
             | None => s' = s_resumed
             | Some st_r =>
                 position_of s' tp = Some offset
                 /\ is_fetchable s' tp = negb (paused st_r)
             end).
Proof.
  cbn zeta. unfold _reset_offset.
  destruct (assignment s !! tp) as [st|] eqn:Hst.
  2:{ split; [done|]. split; [done|]. split; [|done]. intros e [= <-]. by left. }
  split; [done|].
  destruct (_offset retriable invalid_metadata clients tp (reset_strategy st))
    as [[[offset|e]|] calls] eqn:Hoff; cbn.
  - unfold is_assigned, seek.
    destruct (assignment s_resumed !! tp) as [st_r|] eqn:Hr.
    + rewrite bool_decide_eq_true_2 by eauto.
      split.
      { intros st' [= <-]. rewrite Hoff. cbn. split_and!; [done..|]. eauto. }
      split; [done|].
      intros s' [= <-]. exists st, offset.
      split; [done|]. split; [by rewrite Hoff|]. split; [|split].
      * intros tp' Hne. cbn. by rewrite lookup_insert_ne.
      * unfold position_of. cbn. by rewrite lookup_insert_eq.
      * unfold is_fetchable. cbn. rewrite lookup_insert_eq. cbn.
        by rewrite andb_true_r.
    + rewrite bool_decide_eq_false_2 by (by intros []).
      split.
      { intros st' [= <-]. rewrite Hoff. cbn. split_and!; [done..|]. eauto. }
      split; [done|].
      intros s' [= <-]. exists st, offset. by rewrite Hoff.
  - split.
    { intros st' [= <-]. rewrite Hoff. cbn.
      split_and!; [done | by intros ? [= <-] | done..]. }
    split; [|done]. intros e' [= <-]. right. exists st. by rewrite Hoff.
  - split.
    { intros st' [= <-]. rewrite Hoff. cbn. split_and!; [done..|]. done. }
    done.
Qed.

(** X22. On the two strategies that name an end of the log, a reset asks
    for that end: every OffsetRequest that [_reset_offset] sends carries the
    timestamp -2 when the partition's strategy is EARLIEST and -1 when it is
    LATEST, and such a request, for this partition alone and for one offset,
    is the first call it makes as soon as the client knows a ready leader. *)
Theorem reset_offset_timestamp_earliest_latest
    retriable invalid_metadata clients s s_resumed tp st ts
    (Hst : assignment s !! tp = Some st)
    (Hts : reset_strategy st = OffsetResetStrategy.EARLIEST /\ ts = -2
           \/ reset_strategy st = OffsetResetStrategy.LATEST /\ ts = -1) :
  let calls := (_reset_offset retriable invalid_metadata clients s s_resumed tp).2 in
  Forall (fun t => t = ts) (sent_timestamps calls)
  /\ (forall c later node_id,
        clients = c :: later ->
        leader_for_partition c tp = Some node_id -> node_id <> -1 ->
        ready c node_id = true ->
        exists calls',
          calls = Send node_id (-1, [(topic tp, [(partition tp, ts, 1)])])
                  :: calls').
Proof.
  cbn zeta.
  assert (reset_strategy st = ts) as Hstrategy.
  { by destruct Hts as [[-> ->]|[-> ->]]. }
  clear Hts. subst ts. unfold _reset_offset. rewrite Hst. split.
  - pose proof (offset_calls_timestamps retriable invalid_metadata clients tp
                  (reset_strategy st)) as H.
    destruct (_offset retriable invalid_metadata clients tp (reset_strategy st))
      as [[[off|e]|] calls]; exact H.
  - intros c later n -> Hleader Hn Hready. cbn [_offset].
    unfold _proc_offset_request. apply Z.eqb_neq in Hn.
    rewrite Hleader, Hn, Hready. cbn [negb].
    destruct (_ ≫= _) as [off|[| | | |e]]; cbn; eauto.
    destruct (retriable e); cbn; eauto.
    destruct (_offset retriable invalid_metadata later tp (reset_strategy st))
      as [[[off|e']|] calls']; cbn; eauto.
Qed.

Lemma reset_offset_timestamp_earliest_latest_witness :
  Forall (fun t => t = -2)
    (sent_timestamps
       (_reset_offset spec_retriable spec_invalid_metadata
          [client_with (Some 1) true (Ok [("T", [(0, 0, [42])])])]
          (awaiting_reset_with OffsetResetStrategy.EARLIEST)
          (awaiting_reset_with OffsetResetStrategy.EARLIEST) tp0).2)
  /\ Forall (fun t => t = -1)
       (sent_timestamps
          (_reset_offset spec_retriable spec_invalid_metadata
             [client_with None true (Ok []);
              client_with (Some 1) true (Ok [("T", [(0, 0, [42])])])]
             (awaiting_reset_with OffsetResetStrategy.LATEST)
             (awaiting_reset_with OffsetResetStrategy.LATEST) tp0).2).
Proof.
  split.
  - refine (proj1 (reset_offset_timestamp_earliest_latest
              spec_retriable spec_invalid_metadata _
              (awaiting_reset_with OffsetResetStrategy.EARLIEST) _ tp0 _ (-2)
              _ _)); [reflexivity | left; split; reflexivity].
  - refine (proj1 (reset_offset_timestamp_earliest_latest
              spec_retriable spec_invalid_metadata _
              (awaiting_reset_with OffsetResetStrategy.LATEST) _ tp0 _ (-1)
              _ _)); [reflexivity | right; split; reflexivity].
Defined.

(** ** Consumer API: what a call hands out and what it leaves *)

Lemma del_at {V} tp (v : V) d1 d2 :
  tp ∉ OrderedDict.keys d1 ->
  OrderedDict.del tp (d1 ++ (tp, v) :: d2) = Ok (d1 ++ d2).
Proof.
  unfold OrderedDict.keys. induction d1 as [|[k w] d1 IH]; cbn; intros Hnin.
  - by rewrite decide_True.
  - apply not_elem_of_cons in Hnin as [Hne Hnin].
    rewrite decide_False by congruence. by rewrite IH.
Qed.

(** Deleting the entry of a buffer that has just been worked on. *)
Lemma buffer_dropped_at f tp m m' s :
  OrderedDict.get tp (_records f) = Some (Buffer m) ->
  exists d1 d2,
    _records f = d1 ++ (tp, Buffer m) :: d2
    /\ (tp ∉ OrderedDict.keys d1)
    /\ del_and_notify tp
         (with_records (with_subscriptions f s)
            (OrderedDict.set tp (Buffer m') (_records f)))
       = Ok (notify_full (with_records (with_subscriptions f s) (d1 ++ d2))).
Proof.
  intros (d1 & d2 & Hd & Hd1 & _ & Hset)%get_Some_split.
  exists d1, d2. split; [done|]. split; [done|].
  unfold del_and_notify. cbn [_records with_records].
  by rewrite Hset, del_at.
Qed.

Lemma getone_some s tp msgs r s' rest :
  FetchResult.getone s tp msgs = Ok (Some r, s', rest) ->
  r ∈ msgs /\ rest `suffix_of` msgs
  /\ position_of s tp = Some (offset r)
  /\ position_of s' tp = Some (offset r + 1).
Proof.
  intros Hrun.
  destruct (check_assignment_cases s tp msgs)
    as [(Hone & _)|(st & Hst & _ & _ & Hone & _)]; [congruence|].
  rewrite Hone in Hrun.
  destruct (getone_loop_spec tp msgs s st Hst)
    as [[_ H]|(pre & r' & rest' & s1 & -> & _ & Hr & Hinc & H)]; [congruence|].
  rewrite H in Hrun. injection Hrun as <- <- <-.
  destruct (incr_position_spec _ _ _ Hst) as (s2 & Hinc2 & Hst2 & _).
  assert (s2 = s1) as -> by congruence.
  rewrite (position_of_lookup _ _ _ Hst), (position_of_lookup _ _ _ Hst2), Hr.
  repeat split; try done.
  - apply elem_of_app. right. apply list_elem_of_here.
  - exists (pre ++ [r']). by rewrite <- app_assoc.
Qed.

Lemma getone_none s tp msgs s' rest :
  FetchResult.getone s tp msgs = Ok (None, s', rest) -> s' = s /\ rest = [].
Proof.
  intros Hrun.
  destruct (check_assignment_cases s tp msgs)
    as [(Hone & _)|(st & Hst & _ & _ & Hone & _)];
    rewrite Hone in Hrun; [by injection Hrun as <- <-|].
  destruct (getone_loop_spec tp msgs s st Hst)
    as [[_ H]|(pre & r' & rest' & s1 & _ & _ & _ & _ & H)];
    rewrite H in Hrun; [by injection Hrun as <- <- | done].
Qed.

Lemma next_record_loop_delivery ps keys : forall f r f',
  NoDup keys ->
  next_record_loop ps keys f = (Ok (Some r), f') ->
  exists tp msgs rest,
    tp ∈ keys
    /\ filtered_out ps tp = false
    /\ OrderedDict.get tp (_records f) = Some (Buffer msgs)
    /\ FetchResult.getone (_subscriptions f) tp msgs
       = Ok (Some r, _subscriptions f', rest)
    /\ OrderedDict.get tp (_records f') = Some (Buffer rest).
Proof.
  induction keys as [|k keys IH]; intros f r f' Hkeys Hrun;
    cbn [next_record_loop] in Hrun; [done|].
  apply NoDup_cons in Hkeys as [Hk Hkeys].
  destruct (filtered_out ps k) eqn:Hfilter.
  { destruct (IH _ _ _ Hkeys Hrun) as (tp & msgs & rest & Hin & H).
    exists tp, msgs, rest. split; [by apply list_elem_of_further | done]. }
  destruct (OrderedDict.get k (_records f)) as [[m|e]|] eqn:Hget; [| |done].
  2:{ by destruct (del_and_notify k f). }
  destruct (FetchResult.getone (_subscriptions f) k m) as [[[o s] m']|] eqn:Hone;
    [|done].
  destruct o as [msg|].
  - injection Hrun as <- <-. exists k, m, m'.
    split; [apply list_elem_of_here|]. split; [done|]. split; [done|].
    split; [done|]. cbn. apply get_set_eq.
  - apply getone_none in Hone as [-> ->].
    destruct (buffer_dropped f k m [] (_subscriptions f) Hget)
      as (f2 & Hdel & Hsub & _ & _ & Hframe).
    rewrite Hdel in Hrun.
    destruct (IH _ _ _ Hkeys Hrun) as (tp & msgs & rest & Hin & Hf & Hg & Hgo & Hg').
    exists tp, msgs, rest. split; [by apply list_elem_of_further|].
    split; [done|]. rewrite <- Hframe, <- Hsub by (intros ->; done). done.
Qed.

(** X17. A record that [next_record] returns was in the buffer of a
    partition that the caller's filter lets through; it sat at that
    partition's position, which is now right after it; and what is left of
    the buffer, a tail of it, is still in the record map for the next
    call. *)
Theorem next_record_hands_out_the_record_at_the_position ps f r f'
    (Hdict : NoDup (OrderedDict.keys (_records f)))
    (Hrun : next_record ps f = (Ok (Some r), f')) :
  exists tp msgs rest,
    filtered_out ps tp = false
    /\ OrderedDict.get tp (_records f) = Some (Buffer msgs)
    /\ r ∈ msgs
    /\ position_of (_subscriptions f) tp = Some (offset r)
    /\ position_of (_subscriptions f') tp = Some (offset r + 1)
    /\ OrderedDict.get tp (_records f') = Some (Buffer rest)
    /\ rest `suffix_of` msgs.
Proof.
  unfold next_record in Hrun.
  destruct (next_record_loop_delivery _ _ _ _ _ Hdict Hrun)
    as (tp & msgs & rest & _ & Hf & Hget & Hone & Hget').
  destruct (getone_some _ _ _ _ _ _ Hone) as (Hin & Hsuf & Hp & Hp').
  exists tp, msgs, rest. done.
Qed.

Lemma next_record_hands_out_the_record_at_the_position_witness :
  exists tp msgs rest,
    filtered_out [] tp = false
    /\ OrderedDict.get tp [(tp0, Buffer (rec_at <$> [4; 5; 6]))] = Some (Buffer msgs)
    /\ rec_at 5 ∈ msgs
    /\ position_of (subs_at 5) tp = Some (offset (rec_at 5))
    /\ position_of (subs_at 6) tp = Some (offset (rec_at 5) + 1)
    /\ OrderedDict.get tp [(tp0, Buffer [rec_at 6])] = Some (Buffer rest)
    /\ rest `suffix_of` msgs.
Proof.
  refine (next_record_hands_out_the_record_at_the_position []
            (fetcher_with (subs_at 5) [(tp0, Buffer (rec_at <$> [4; 5; 6]))] ∅)
            (rec_at 5)
            (fetcher_with (subs_at 6) [(tp0, Buffer [rec_at 6])] ∅) _ _).
  - apply NoDup_singleton.
  - vm_compute. reflexivity.
Defined.

Lemma consumes_only_refl ps f : consumes_only ps f f.
Proof. unfold consumes_only. split_and!; done. Qed.

Lemma consumes_only_trans ps f1 f2 f3 :
  consumes_only ps f1 f2 -> consumes_only ps f2 f3 -> consumes_only ps f1 f3.
Proof.
  unfold consumes_only.
  intros (? & ? & ? & ? & ? & ? & ? & ? & ? & ? & Hk1 & Hf1)
         (? & ? & ? & ? & ? & ? & ? & ? & ? & ? & Hk2 & Hf2).
  split_and!; try congruence.
  - by etrans.
  - intros tp Hfl. destruct (Hf1 tp Hfl), (Hf2 tp Hfl). split; congruence.
Qed.

Lemma del_only_its_key {V} tp (d d' : OrderedDict.t V) :
  OrderedDict.del tp d = Ok d' ->
  OrderedDict.keys d' `sublist_of` OrderedDict.keys d
  /\ forall tp', tp' <> tp -> OrderedDict.get tp' d' = OrderedDict.get tp' d.
Proof.
  unfold OrderedDict.keys. revert d'.
  induction d as [|[k v] d IH]; intros d'; cbn; [done|].
  destruct (decide (k = tp)) as [->|Hk].
  - intros [= <-]. split; [by apply sublist_cons|].
    intros tp' Hne. by rewrite decide_False.
  - destruct (OrderedDict.del tp d) as [d0|] eqn:Hdel; cbn; [|done].
    intros [= <-]. destruct (IH d0 eq_refl) as [Hsub Hget]. cbn. split.
    + by apply sublist_skip.
    + intros tp' Hne. case_decide; [done|]. by apply Hget.
Qed.

Lemma consumes_only_del ps tp f f2 :
  filtered_out ps tp = false ->
  del_and_notify tp f = Ok f2 -> consumes_only ps f f2.
Proof.
  intros Hfl. unfold del_and_notify.
  destruct (OrderedDict.del tp (_records f)) as [d|] eqn:Hdel; cbn; [|done].
  intros [= <-]. destruct (del_only_its_key _ _ _ Hdel) as [Hsub Hget].
  unfold consumes_only. cbn. split_and!; try done.
  intros tp' Hfl'. split; [|done]. apply Hget. congruence.
Qed.

Lemma consumes_only_written_back ps tp f m m' s :
  filtered_out ps tp = false ->
  OrderedDict.get tp (_records f) = Some (Buffer m) ->
  needs_partition_assignment s = needs_partition_assignment (_subscriptions f) ->
  default_offset_reset_strategy s = default_offset_reset_strategy (_subscriptions f) ->
  (forall tp', tp' <> tp -> assignment s !! tp' = assignment (_subscriptions f) !! tp') ->
  consumes_only ps f
    (with_records (with_subscriptions f s)
       (OrderedDict.set tp (Buffer m') (_records f))).
Proof.
  intros Hfl Hget Hn Hd Hframe.
  destruct (buffer_written_back f tp m m' s Hget) as (_ & Hk & Hg).
  unfold consumes_only. cbn in *. split_and!; try done.
  - by rewrite Hk.
  - intros tp' Hfl'. split; [apply Hg | apply Hframe]; congruence.
Qed.

Lemma getone_frame s tp msgs r s' rest :
  FetchResult.getone s tp msgs = Ok (r, s', rest) ->
  needs_partition_assignment s' = needs_partition_assignment s
  /\ default_offset_reset_strategy s' = default_offset_reset_strategy s
  /\ forall tp', tp' <> tp -> assignment s' !! tp' = assignment s !! tp'.
Proof.
  intros Hrun. destruct r as [msg|].
  - destruct (check_assignment_cases s tp msgs)
      as [(Hone & _)|(st & Hst & _ & _ & Hone & _)]; [congruence|].
    rewrite Hone in Hrun.
    destruct (getone_loop_spec tp msgs s st Hst)
      as [[_ H]|(pre & r' & rest' & s1 & _ & _ & _ & Hinc & H)]; [congruence|].
    rewrite H in Hrun. injection Hrun as <- <- <-.
    destruct (incr_position_only_position _ _ _ Hinc) as (? & ? & ? & _). done.
  - by apply getone_none in Hrun as [-> _].
Qed.

Lemma getall_frame s tp msgs l s' rest :
  FetchResult.getall s tp msgs = Ok (l, s', rest) ->
  needs_partition_assignment s' = needs_partition_assignment s
  /\ default_offset_reset_strategy s' = default_offset_reset_strategy s
  /\ forall tp', tp' <> tp -> assignment s' !! tp' = assignment s !! tp'.
Proof.
  intros Hrun.
  destruct (check_assignment_cases s tp msgs)
    as [(_ & Hall & _)|(st & Hst & _ & _ & _ & Hall)]; rewrite Hall in Hrun.
  - by injection Hrun as <- <- <-.
  - destruct (getall_loop_spec tp msgs s [] st Hst) as (l' & s'' & H & Hd & _).
    rewrite H in Hrun. injection Hrun as <- <- <-.
    destruct (delivers_only_position _ _ _ _ Hd) as (? & ? & ? & _). done.
Qed.

Lemma next_record_loop_consumes ps keys : forall f r f',
  next_record_loop ps keys f = (r, f') -> consumes_only ps f f'.
Proof.
  induction keys as [|k keys IH]; intros f r f' Hrun;
    cbn [next_record_loop] in Hrun.
  { injection Hrun as <- <-. apply consumes_only_refl. }
  destruct (filtered_out ps k) eqn:Hfl; [by eapply IH|].
  destruct (OrderedDict.get k (_records f)) as [[m|e]|] eqn:Hget.
  - destruct (FetchResult.getone (_subscriptions f) k m) as [[[o s] m']|] eqn:Hone.
    2:{ injection Hrun as <- <-. apply consumes_only_refl. }
    destruct (getone_frame _ _ _ _ _ _ Hone) as (Hn & Hd & Hframe).
    pose proof (consumes_only_written_back ps k f m m' s Hfl Hget Hn Hd Hframe) as C1.
    destruct o as [msg|]; [by injection Hrun as <- <-|].
    destruct (del_and_notify k _) as [f2|] eqn:Hdel.
    + pose proof (consumes_only_del ps k _ f2 Hfl Hdel) as C2.
      apply IH in Hrun. eapply consumes_only_trans; [|exact Hrun].
      by eapply consumes_only_trans.
    + by injection Hrun as <- <-.
  - destruct (del_and_notify k f) as [f1|] eqn:Hdel; injection Hrun as <- <-.
    + by eapply consumes_only_del.
    + apply consumes_only_refl.
  - injection Hrun as <- <-. apply consumes_only_refl.
Qed.

Lemma fetched_records_loop_consumes ps keys : forall drained f r f',
  fetched_records_loop ps keys drained f = (r, f') -> consumes_only ps f f'.
Proof.
  induction keys as [|k keys IH]; intros drained f r f' Hrun;
    cbn [fetched_records_loop] in Hrun.
  { injection Hrun as <- <-. apply consumes_only_refl. }
  destruct (filtered_out ps k) eqn:Hfl; [by eapply IH|].
  destruct (OrderedDict.get k (_records f)) as [[m|e]|] eqn:Hget.
  - destruct (FetchResult.getall (_subscriptions f) k m) as [[[l s] m']|] eqn:Hall.
    2:{ injection Hrun as <- <-. apply consumes_only_refl. }
    destruct (getall_frame _ _ _ _ _ _ Hall) as (Hn & Hd & Hframe).
    pose proof (consumes_only_written_back ps k f m m' s Hfl Hget Hn Hd Hframe) as C1.
    destruct (del_and_notify k _) as [f2|] eqn:Hdel.
    + pose proof (consumes_only_del ps k _ f2 Hfl Hdel) as C2.
      apply IH in Hrun. eapply consumes_only_trans; [|exact Hrun].
      by eapply consumes_only_trans.
    + by injection Hrun as <- <-.
  - destruct drained.
    + destruct (del_and_notify k f) as [f1|] eqn:Hdel; injection Hrun as <- <-.
      * by eapply consumes_only_del.
      * apply consumes_only_refl.
    + injection Hrun as <- <-. apply consumes_only_refl.
  - injection Hrun as <- <-. apply consumes_only_refl.
Qed.

(** X18. The consumer calls only consume: whatever [next_record] or
    [fetched_records] returns or raises, the record map has gained no key,
    the settings, the in-flight set and the metadata refreshes are as
    before, and the buffers, sentinels and positions of the partitions that
    the caller's filter holds back are untouched. *)
Theorem consumer_calls_only_consume ps timeout f :
  (forall r f', next_record ps f = (r, f') -> consumes_only ps f f')
  /\ (forall r f', fetched_records ps timeout f = (r, f') -> consumes_only ps f f').
Proof.
  split.
  - intros r f'. unfold next_record. apply next_record_loop_consumes.
  - intros r f'. unfold fetched_records.
    destruct (fetched_records_loop ps (OrderedDict.keys (_records f)) [] f)
      as [res g] eqn:Hloop.
    apply fetched_records_loop_consumes in Hloop.
    destruct res as [d|e]; [destruct d; [destruct (timeout =? 0)|]|];
      by intros [= <- <-].
Qed.

Lemma consumer_calls_only_consume_witness :
  consumes_only [TP "U" 0]
    (fetcher_with (subs_at 5)
       [(tp0, Buffer (rec_at <$> [5; 6])); (TP "U" 0, Buffer (rec_at <$> [1]))] ∅)
    (fetcher_with (subs_at 5)
       [(tp0, Buffer (rec_at <$> [5; 6]))] ∅).
Proof.
  refine (proj2 (consumer_calls_only_consume [TP "U" 0] 0 _) (Ok (Some _)) _ _).
  vm_compute. reflexivity.
Defined.

Lemma no_sentinel_all_buffers d tp v :
  sentinels d = [] -> OrderedDict.get tp d = Some v -> exists m, v = Buffer m.
Proof.
  intros Hs (d1 & d2 & -> & _)%get_Some_split.
  rewrite sentinels_split in Hs. destruct v as [m|e]; [eauto|].
  by destruct (sentinels d1).
Qed.

Lemma fetched_records_loop_drains ps keys : forall drained f,
  NoDup keys ->
  NoDup (OrderedDict.keys (_records f)) ->
  (forall tp, tp ∈ keys -> filtered_out ps tp = false ->
     exists m, OrderedDict.get tp (_records f) = Some (Buffer m)) ->
  exists drained' f',
    fetched_records_loop ps keys drained f = (Ok drained', f')
    /\ (forall tp, tp ∈ keys -> filtered_out ps tp = false ->
          OrderedDict.get tp (_records f') = None)
    /\ (forall tp, tp ∉ keys ->
          OrderedDict.get tp (_records f') = OrderedDict.get tp (_records f))
    /\ (forall tp, is_Some (OrderedDict.get tp drained')
                   <-> is_Some (OrderedDict.get tp drained)
                       \/ (tp ∈ keys /\ filtered_out ps tp = false)).
Proof.
  induction keys as [|k keys IH]; intros drained f Hkeys Hdict Hbuf;
    cbn [fetched_records_loop].
  { exists drained, f. split; [done|]. split; [by intros ? ?%not_elem_of_nil|].
    split; [done|]. intros tp. split; [tauto|].
    intros [?|[?%not_elem_of_nil _]]; done. }
  apply NoDup_cons in Hkeys as [Hk Hkeys].
  assert (forall tp, tp ∈ keys -> tp <> k) as Hne by (intros tp Hin ->; done).
  destruct (filtered_out ps k) eqn:Hfl.
  { destruct (IH drained f Hkeys Hdict) as (drained' & f' & Hrun & Hgone & Hframe & Hdr).
    { intros tp Hin. apply Hbuf. by apply list_elem_of_further. }
    exists drained', f'. split; [done|]. split; [|split].
    - intros tp [->|Hin]%elem_of_cons Hf; [congruence | by apply Hgone].
    - intros tp [_ Hnin]%not_elem_of_cons. by apply Hframe.
    - intros tp. rewrite Hdr, elem_of_cons. split; [tauto|].
      intros [?|[[->|?] ?]]; [tauto | congruence | tauto]. }
  destruct (Hbuf k (list_elem_of_here _ _) Hfl) as [m Hget]. rewrite Hget.
  destruct (getall_total (_subscriptions f) k m) as ([[l s] m'] & ->).
  destruct (buffer_dropped_at f k m m' s Hget) as (d1 & d2 & Hd & Hd1 & ->).
  set (f2 := notify_full _).
  assert (_records f2 = d1 ++ d2) as Hr2 by done.
  assert (NoDup (OrderedDict.keys (_records f2))) as Hdict2.
  { rewrite Hr2. eapply keys_split_remove. by rewrite <- Hd. }
  assert (OrderedDict.get k (_records f2) = None) as Hgone2.
  { rewrite Hr2. eapply get_split_removed. by rewrite <- Hd. }
  assert (forall tp, tp <> k ->
            OrderedDict.get tp (_records f2) = OrderedDict.get tp (_records f))
    as Hframe2.
  { intros tp Htp. by rewrite Hr2, Hd, get_split_ne. }
  destruct (IH (OrderedDict.set k l drained) f2 Hkeys Hdict2)
    as (drained' & f' & Hrun & Hgone & Hframe & Hdr).
  { intros tp Hin Hf. rewrite Hframe2 by auto.
    apply Hbuf; [by apply list_elem_of_further | done]. }
  exists drained', f'. split; [done|]. split; [|split].
  - intros tp [->|Hin]%elem_of_cons Hf; [|by apply Hgone].
    by rewrite Hframe.
  - intros tp [Htp Hnin]%not_elem_of_cons. rewrite Hframe by done. by apply Hframe2.
  - intros tp. rewrite Hdr, elem_of_cons.
    destruct (decide (tp = k)) as [->|Htp].
    + rewrite get_set_eq. split; [intros _; right; auto | eauto].
    + rewrite get_set_ne by done. split; [tauto|].
      intros [?|[[->|?] ?]]; tauto.
Qed.

(** X19. With no sentinel in the record map, [fetched_records] with
    timeout 0 drains it: it returns normally, with an entry for exactly the
    buffered partitions that the filter lets through, and afterwards none of
    those partitions has an entry in the record map any more. *)
Theorem fetched_records_drains_every_buffer ps f
    (Hdict : NoDup (OrderedDict.keys (_records f)))
    (Hclean : sentinels (_records f) = []) :
  exists drained f',
    fetched_records ps 0 f = (Ok (Some drained), f')
    /\ (forall tp, filtered_out ps tp = false ->
          OrderedDict.get tp (_records f') = None)
    /\ (forall tp, is_Some (OrderedDict.get tp drained)
                   <-> is_Some (OrderedDict.get tp (_records f))
                       /\ filtered_out ps tp = false).
Proof.
  destruct (fetched_records_loop_drains ps (OrderedDict.keys (_records f)) [] f
              Hdict Hdict) as (drained & f' & Hrun & Hgone & Hframe & Hdr).
  { intros tp Hin _.
    destruct (OrderedDict.get tp (_records f)) as [v|] eqn:Hget.
    - destruct (no_sentinel_all_buffers _ _ _ Hclean Hget) as [m ->]. eauto.
    - by apply get_None_keys in Hget. }
  exists drained, f'. unfold fetched_records. rewrite Hrun. split.
  { by destruct drained. }
  split.
  - intros tp Hfl.
    destruct (decide (tp ∈ OrderedDict.keys (_records f))) as [Hin|Hnin].
    + by apply Hgone.
    + rewrite Hframe by done. by apply get_None_keys.
  - intros tp. rewrite Hdr. cbn. split.
    + intros [[? [=]]|[Hin Hfl]]. split; [|done].
      destruct (OrderedDict.get tp (_records f)) eqn:Hget; [eauto|].
      by apply get_None_keys in Hget.
    + intros [[v Hget] Hfl]. right. split; [|done].
      destruct (decide (tp ∈ OrderedDict.keys (_records f))) as [Hin|Hnin]; [done|].
      apply get_None_keys in Hnin. congruence.
Qed.

Lemma fetched_records_drains_every_buffer_witness :
  exists drained f',
    fetched_records [] 0
      (fetcher_with (subs_at 5) [(tp0, Buffer (rec_at <$> [5; 6]))] ∅)
    = (Ok (Some drained), f')
    /\ (forall tp, filtered_out [] tp = false ->
          OrderedDict.get tp (_records f') = None)
    /\ (forall tp, is_Some (OrderedDict.get tp drained)
                   <-> is_Some (OrderedDict.get tp [(tp0, Buffer (rec_at <$> [5; 6]))])
                       /\ filtered_out [] tp = false).
Proof.
  apply (fetched_records_drains_every_buffer []
           (fetcher_with (subs_at 5) [(tp0, Buffer (rec_at <$> [5; 6]))] ∅)).
  - apply NoDup_singleton.
  - reflexivity.
Defined.

(** ** update_fetch_positions *)

Lemma update_fetch_positions_step k rest futures s :
  exists futures1 s1,
    update_fetch_positions_loop (k :: rest) futures s
    = update_fetch_positions_loop rest futures1 s1
    /\ futures `prefix_of` futures1
    /\ (forall tp, tp ∈ futures1 -> tp ∈ futures \/ tp = k)
    /\ (forall tp, tp <> k -> assignment s1 !! tp = assignment s !! tp)
    /\ (forall tp, is_Some (assignment s1 !! tp) <-> is_Some (assignment s !! tp))
    /\ (forall tp, settled s futures tp -> settled s1 futures1 tp)
    /\ (is_assigned s k = true -> settled s1 futures1 k)
    /\ ((is_assigned s k = false \/ is_fetchable s k = true) ->
        futures1 = futures /\ s1 = s).
Proof.
  cbn [update_fetch_positions_loop]. unfold is_assigned, is_fetchable.
  destruct (assignment s !! k) as [st|] eqn:Hst.
  2:{ rewrite bool_decide_eq_false_2 by (by intros []). cbn.
      exists futures, s. split_and!; try done; auto. }
  rewrite bool_decide_eq_true_2 by eauto. cbn [negb].
  destruct (negb (paused st) && has_valid_position st) eqn:Hf.
  { exists futures, s. split_and!; try done; auto.
    intros _. exists st. split; [done|]. left. by apply andb_prop in Hf as []. }
  unfold is_offset_reset_needed. rewrite Hst. cbn.
  destruct (awaiting_reset st) eqn:Haw.
  { exists (futures ++ [k]), s. split_and!; try done.
    - by apply prefix_app_r.
    - intros tp [?|Hk%list_elem_of_singleton]%elem_of_app; auto.
    - intros tp (st' & Hst' & [?|[? ?]]); exists st'; (split; [done|]); [by left|].
      right. split; [done|]. apply elem_of_app. by left.
    - intros _. exists st. split; [done|]. right. split; [done|].
      apply elem_of_app. right. apply list_elem_of_here.
    - intros [[=]|[=]]. }
  destruct (committed st) as [c|] eqn:Hc.
  - unfold seek. rewrite Hst. cbn.
    eexists futures, _. split; [reflexivity|]. unfold settled. cbn.
    split_and!; try done; auto.
    + intros tp Hne. by rewrite lookup_insert_ne.
    + intros tp. destruct (decide (tp = k)) as [->|Hne].
      * rewrite lookup_insert_eq, Hst. split; eauto.
      * by rewrite lookup_insert_ne.
    + intros tp (st' & Hst' & Hor). destruct (decide (tp = k)) as [->|Hne].
      * eexists. rewrite lookup_insert_eq. split; [done|]. by left.
      * exists st'. by rewrite lookup_insert_ne.
    + intros _. eexists. rewrite lookup_insert_eq. split; [done|]. by left.
    + intros [[=]|[=]].
  - unfold need_offset_reset. rewrite Hst. cbn.
    eexists (futures ++ [k]), _. split; [reflexivity|]. unfold settled. cbn.
    split_and!.
    + by apply prefix_app_r.
    + intros tp [?|Hk%list_elem_of_singleton]%elem_of_app; auto.
    + intros tp Hne. by rewrite lookup_insert_ne.
    + intros tp. destruct (decide (tp = k)) as [->|Hne].
      * rewrite lookup_insert_eq, Hst. split; eauto.
      * by rewrite lookup_insert_ne.
    + intros tp (st' & Hst' & Hor). destruct (decide (tp = k)) as [->|Hne].
      * eexists. rewrite lookup_insert_eq. split; [done|]. right. cbn.
        split; [done|]. apply elem_of_app. right. apply list_elem_of_here.
      * exists st'. rewrite lookup_insert_ne by done. split; [done|].
        destruct Hor as [?|[? ?]]; [by left|]. right. split; [done|].
        apply elem_of_app. by left.
    + intros _. eexists. rewrite lookup_insert_eq. split; [done|]. right. cbn.
      split; [done|]. apply elem_of_app. right. apply list_elem_of_here.
    + intros [[=]|[=]].
Qed.

Lemma update_fetch_positions_loop_spec partitions : forall futures s,
  exists futures' s',
    update_fetch_positions_loop partitions futures s = Ok (futures', s')
    /\ futures `prefix_of` futures'
    /\ (forall tp, tp ∈ futures' -> tp ∈ futures \/ tp ∈ partitions)
    /\ (forall tp, tp ∉ partitions -> assignment s' !! tp = assignment s !! tp)
    /\ (forall tp, is_Some (assignment s' !! tp) <-> is_Some (assignment s !! tp))
    /\ (forall tp, settled s futures tp -> settled s' futures' tp)
    /\ (forall tp, tp ∈ partitions -> is_assigned s tp = true ->
          settled s' futures' tp).
Proof.
  induction partitions as [|k rest IH]; intros futures s.
  { exists futures, s. split_and!; try done.
    - by left.
    - by intros ? ?%not_elem_of_nil. }
  destruct (update_fetch_positions_step k rest futures s)
    as (futures1 & s1 & -> & Hpre1 & Hin1 & Hframe1 & Hdom1 & Hset1 & Hk1 & _).
  destruct (IH futures1 s1)
    as (futures' & s' & -> & Hpre & Hin & Hframe & Hdom & Hset & Hall).
  exists futures', s'. split_and!; try done.
  - by etrans.
  - intros tp Htp. rewrite elem_of_cons.
    destruct (Hin tp Htp) as [Hf1|?]; [|auto].
    destruct (Hin1 tp Hf1); auto.
  - intros tp [Hne Hnin]%not_elem_of_cons. rewrite Hframe by done. by apply Hframe1.
  - intros tp. by rewrite Hdom.
  - intros tp ?. by apply Hset, Hset1.
  - intros tp [->|Hin']%elem_of_cons Has.
    + by apply Hset, Hk1.
    + apply Hall; [done|]. unfold is_assigned in *.
      apply bool_decide_eq_true. apply Hdom1. by apply bool_decide_eq_true in Has.
Qed.

(** X20. The loop of [update_fetch_positions] never raises, and when it
    ends every assigned partition of its argument is settled: it has a valid
    position (it was fetchable, or has been sought to its committed offset)
    or it awaits a reset for which a [_reset_offset] has been scheduled.
    Resets are scheduled for partitions of the argument only, partitions
    outside it are untouched, and no partition is added to or dropped from
    the assignment. *)
Theorem update_fetch_positions_settles_every_partition partitions s :
  exists futures s',
    update_fetch_positions_loop partitions [] s = Ok (futures, s')
    /\ (forall tp, tp ∈ partitions -> is_assigned s tp = true ->
          settled s' futures tp)
    /\ (forall tp, tp ∈ futures -> tp ∈ partitions)
    /\ (forall tp, tp ∉ partitions -> assignment s' !! tp = assignment s !! tp)
    /\ (forall tp, is_Some (assignment s' !! tp) <-> is_Some (assignment s !! tp)).
Proof.
  destruct (update_fetch_positions_loop_spec partitions [] s)
    as (futures & s' & Hrun & _ & Hin & Hframe & Hdom & _ & Hall).
  exists futures, s'. split_and!; try done.
  intros tp [?%not_elem_of_nil|?]%Hin; done.
Qed.

(** X21. [update_fetch_positions] changes nothing and schedules nothing
    when each of its partitions is unassigned or still fetchable: positions
    that are valid are not touched, however often it is called. *)
Theorem update_fetch_positions_skips_fetchable partitions futures s
    (Hskip : Forall (fun tp => is_assigned s tp = false \/ is_fetchable s tp = true)
               partitions) :
  update_fetch_positions_loop partitions futures s = Ok (futures, s).
Proof.
  induction Hskip as [|k rest Hk _ IH]; [done|].
  destruct (update_fetch_positions_step k rest futures s)
    as (futures1 & s1 & -> & _ & _ & _ & _ & _ & _ & Hsame).
  by destruct (Hsame Hk) as [-> ->].
Qed.

Lemma update_fetch_positions_skips_fetchable_witness :
  update_fetch_positions_loop [tp0; TP "U" 0] [] (subs_at 5) = Ok ([], subs_at 5).
Proof.
  apply (update_fetch_positions_skips_fetchable [tp0; TP "U" 0] [] (subs_at 5)).
  constructor; [right; reflexivity|].
  constructor; [left; vm_compute; reflexivity|].
  constructor.
Defined.
